(** * buzzcon-card-scan: the contact-field classifier and the OCR orchestration

    A shallow embedding of [extractContactInfo] and [processImage] of the
    CardScanner component (the confidence-aware version), and of the
    [vision-ocr] edge function it calls; then of what surrounds them: the
    taking of the image ([capturePhoto], [handleFileUpload], [retakePhoto]),
    the page that hands the record to the form, the form's [handleInputChange]
    and [handleSave], the list's search, delete and cards, and the export.

    JavaScript strings are modelled as lists of code units restricted to the
    range 0..255 ([list ascii], read as Latin-1).  On that range the built-ins
    used by the component are modelled exactly: [\d], [\w], [\s], [trim],
    [toLowerCase], [includes], [endsWith], [split], [replace], [match], and
    the backtracking regular-expression matcher with its greedy priorities.
    JavaScript numbers are IEEE binary64 values ([PrimFloat.float]). *)

From Stdlib Require Import Ascii String List Arith NArith Bool Lia.
From Stdlib Require Import Floats.PrimFloat.
Import ListNotations.

Set Implicit Arguments.
Set Warnings "-inexact-float".
Local Open Scope char_scope.
Local Open Scope list_scope.

(** ** Code units and strings *)

Definition jsstring := list ascii.

(** A string literal of the source. *)
Definition str (s : string) : jsstring := list_ascii_of_string s.

Definition LF : ascii := "010".
Definition CR : ascii := "013".

Definition code (c : ascii) : nat := nat_of_ascii c.

Definition between (lo hi c : ascii) : bool :=
  ((code lo <=? code c) && (code c <=? code hi))%nat.

(** [\d] *)
Definition is_digit (c : ascii) : bool := between "0" "9" c.

Definition is_upper (c : ascii) : bool := between "A" "Z" c.
Definition is_lower (c : ascii) : bool := between "a" "z" c.

(** [\w] is [A-Za-z0-9_]. *)
Definition is_word (c : ascii) : bool :=
  is_lower c || is_upper c || is_digit c || (c =? "_").

(** [\s], and what [trim] strips: WhiteSpace and LineTerminator code units
    below 256, that is TAB, LF, VT, FF, CR, SPACE and NBSP. *)
Definition is_space (c : ascii) : bool :=
  let n := code c in
  (((9 <=? n) && (n <=? 13)) || (n =? 32) || (n =? 160))%nat.

(** What [.] refuses. *)
Definition is_line_terminator (c : ascii) : bool := (c =? LF) || (c =? CR).

(** ASCII case mapping, as the matcher's Canonicalize needs it for the
    patterns of this program (all their atoms are ASCII). *)
Definition ascii_upper (c : ascii) : ascii :=
  if is_lower c then ascii_of_nat (code c - 32) else c.
Definition ascii_lower (c : ascii) : ascii :=
  if is_upper c then ascii_of_nat (code c + 32) else c.

(** [toLowerCase] on one Latin-1 code unit: A-Z, and U+00C0..U+00DE except
    the multiplication sign U+00D7. *)
Definition lower_char (c : ascii) : ascii :=
  let n := code c in
  if is_upper c then ascii_of_nat (n + 32)
  else if ((192 <=? n) && (n <=? 222) && negb (n =? 215))%nat then ascii_of_nat (n + 32)
  else c.

(** [s.toLowerCase()] on a string of code units below 256.  On that range
    the built-in works unit by unit: the mappings that look at the context or
    change the length (the final sigma, the dotted capital I) start from
    code units outside it.  Only the classifier uses this definition, on the
    text of a card; where a string may hold any character (the contacts of the
    list) the lower-casing is left abstract. *)
Definition toLowerCase (s : jsstring) : jsstring := map lower_char s.

Fixpoint drop_space (s : jsstring) : jsstring :=
  match s with
  | c :: s' => if is_space c then drop_space s' else s
  | [] => []
  end.

Definition trim (s : jsstring) : jsstring :=
  rev (drop_space (rev (drop_space s))).

Fixpoint jseq (a b : jsstring) : bool :=
  match a, b with
  | [], [] => true
  | x :: a', y :: b' => (x =? y) && jseq a' b'
  | _, _ => false
  end.

Fixpoint starts_with (p s : jsstring) : bool :=
  match p, s with
  | [], _ => true
  | x :: p', y :: s' => (x =? y) && starts_with p' s'
  | _ :: _, [] => false
  end.

(** [s.includes(sub)] *)
Fixpoint includes (s sub : jsstring) : bool :=
  starts_with sub s ||
  match s with
  | [] => false
  | _ :: s' => includes s' sub
  end.

(** [s.endsWith(suf)] *)
Definition endsWith (s suf : jsstring) : bool :=
  starts_with (rev suf) (rev s).

(** A string is truthy when it is not empty. *)
Definition truthy_str (s : jsstring) : bool :=
  match s with [] => false | _ => true end.

(** [arr.find((x, index) => f x index)] *)
Fixpoint find_from {A} (f : A -> nat -> bool) (i : nat) (l : list A) : option A :=
  match l with
  | [] => None
  | x :: l' => if f x i then Some x else find_from f (S i) l'
  end.

Definition Array_find {A} (f : A -> nat -> bool) (l : list A) : option A :=
  find_from f 0 l.

(** The index at which [Array_find] stops. *)
Fixpoint findIndex_from {A} (f : A -> nat -> bool) (i : nat) (l : list A) : option nat :=
  match l with
  | [] => None
  | x :: l' => if f x i then Some i else findIndex_from f (S i) l'
  end.

Definition Array_findIndex {A} (f : A -> nat -> bool) (l : list A) : option nat :=
  findIndex_from f 0 l.

(** [arr?.some(f)]: an absent array gives [undefined], which is falsy. *)
Definition opt_some {A} (arr : option (list A)) (f : A -> bool) : bool :=
  match arr with
  | Some l => existsb f l
  | None => false
  end.

(** [arr?.[0]] *)
Definition opt_first {A} (arr : option (list A)) : option A :=
  match arr with
  | Some (x :: _) => Some x
  | _ => None
  end.

(** ** Regular expressions *)

(** The members of a character class. *)
Inductive item : Type :=
| Ch (c : ascii)
| Rg (lo hi : ascii)
| Dig
| Wrd
| Spc.

(** One-character atoms: [[...]], [[^...]] and [.]. *)
Inductive atom : Type :=
| In_ (l : list item)
| NotIn (l : list item)
| Dot.

(** The patterns of the component.  Quantifiers on a one-character atom are
    [Rep a lo hi] (greedy, [hi = None] for no upper bound); [Opt r] is a group
    followed by [?].  Capture groups play no part in [match] with the [g]
    flag, in [test] or in a replacement without [$], so they are not kept. *)
Inductive regex : Type :=
| Eps
| Bol
| Eol
| One (a : atom)
| Rep (a : atom) (lo : nat) (hi : option nat)
| Opt (r : regex)
| Seq (r1 r2 : regex)
| Alt (r1 r2 : regex).

Declare Scope regex_scope.
Delimit Scope regex_scope with re.
Bind Scope regex_scope with regex.
Notation "r1 >> r2" := (Seq r1 r2) (at level 41, right associativity) : regex_scope.
Notation "r1 <|> r2" := (Alt r1 r2) (at level 51, right associativity) : regex_scope.

Definition lit (c : ascii) : regex := One (In_ [Ch c]).

(** A literal word of a pattern. *)
Fixpoint word (s : string) : regex :=
  match s with
  | EmptyString => Eps
  | String c s' => Seq (lit c) (word s')
  end.

Definition plus (a : atom) : regex := Rep a 1 None.
Definition star (a : atom) : regex := Rep a 0 None.
Definition quest (a : atom) : regex := Rep a 0 (Some 1).
Definition times (a : atom) (n : nat) : regex := Rep a n (Some n).

Definition item_has (it : item) (c : ascii) : bool :=
  match it with
  | Ch x => (x =? c)
  | Rg lo hi => between lo hi c
  | Dig => is_digit c
  | Wrd => is_word c
  | Spc => is_space c
  end.

(** Membership of a class, with the [i] flag when [ic] is set: a member of the
    class and the input character match when they canonicalize alike. *)
Definition set_has (ic : bool) (l : list item) (c : ascii) : bool :=
  existsb (fun it =>
    item_has it c || (ic && (item_has it (ascii_upper c) || item_has it (ascii_lower c)))) l.

Definition atom_has (ic : bool) (a : atom) (c : ascii) : bool :=
  match a with
  | In_ l => set_has ic l c
  | NotIn l => negb (set_has ic l c)
  | Dot => negb (is_line_terminator c)
  end.

Definition dec_bound (hi : option nat) : option nat :=
  match hi with
  | Some n => Some (pred n)
  | None => None
  end.

Section Matcher.
(** The [i] flag. *)
Variable ic : bool.
(** What the continuation answers. *)
Variable R : Type.

(** A continuation takes the index reached and the input left. *)
Definition cont := nat -> jsstring -> option R.

(** The greedy quantifier on a one-character atom: take a character while
    allowed, and fall back to stopping here once [lo] is reached.  (A pattern
    with [hi < lo] does not parse, so [lo] is 0 whenever [hi] is.) *)
Fixpoint rep (a : atom) (lo : nat) (hi : option nat)
         (i : nat) (s : jsstring) (k : cont) {struct s} : option R :=
  let stop := match lo with 0 => k i s | S _ => None end in
  match hi with
  | Some 0 => stop
  | _ =>
    match s with
    | c :: s' =>
      if atom_has ic a c then
        match rep a (pred lo) (dec_bound hi) (S i) s' k with
        | Some x => Some x
        | None => stop
        end
      else stop
    | [] => stop
    end
  end.

(** The backtracking matcher: [run r i s k] matches [r] at index [i], where
    [s] is the input from [i] on, and hands what is left to [k]; the first
    alternative that leads [k] to an answer wins. *)
Fixpoint run (r : regex) (i : nat) (s : jsstring) (k : cont) {struct r} : option R :=
  match r with
  | Eps => k i s
  | Bol => if (i =? 0)%nat then k i s else None
  | Eol => match s with [] => k i s | _ :: _ => None end
  | One a =>
    match s with
    | c :: s' => if atom_has ic a c then k (S i) s' else None
    | [] => None
    end
  | Rep a lo hi => rep a lo hi i s k
  | Opt r1 =>
    match run r1 i s (fun j s' => if (j =? i)%nat then None else k j s') with
    | Some x => Some x
    | None => k i s
    end
  | Seq r1 r2 => run r1 i s (fun j s' => run r2 j s' k)
  | Alt r1 r2 =>
    match run r1 i s k with
    | Some x => Some x
    | None => run r2 i s k
    end
  end.
End Matcher.

(** The continuation that accepts: it answers the index reached. *)
Definition accept : cont nat := fun j _ => Some j.

(** The end index of the match of [r] that starts at index [i]. *)
Definition exec (ic : bool) (r : regex) (i : nat) (s : jsstring) : option nat :=
  run ic r i s accept.

(** The first match at or after index [i]: its start and end. *)
Fixpoint search (ic : bool) (r : regex) (i : nat) (s : jsstring) : option (nat * nat) :=
  match exec ic r i s with
  | Some e => Some (i, e)
  | None =>
    match s with
    | [] => None
    | _ :: s' => search ic r (S i) s'
    end
  end.

(** [re.test(s)] for a pattern without the [g] flag. *)
Definition test (ic : bool) (r : regex) (s : jsstring) : bool :=
  match search ic r 0 s with
  | Some _ => true
  | None => false
  end.

(** All matches from index [i] on, left to right; [skip] counts the characters
    of the last match still to be passed.  After an empty match the scan moves
    one character on. *)
Fixpoint match_from (ic : bool) (r : regex) (i : nat) (s : jsstring) (skip : nat)
  : list jsstring :=
  match skip with
  | S n =>
    match s with
    | [] => []
    | _ :: s' => match_from ic r (S i) s' n
    end
  | 0 =>
    match exec ic r i s with
    | Some e =>
      firstn (e - i) s ::
      match s with
      | [] => []
      | _ :: s' => match_from ic r (S i) s' (e - i - 1)
      end
    | None =>
      match s with
      | [] => []
      | _ :: s' => match_from ic r (S i) s' 0
      end
    end
  end.

(** [s.match(re)] for a pattern with the [g] flag: [null] without a match. *)
Definition match_g (ic : bool) (r : regex) (s : jsstring) : option (list jsstring) :=
  match match_from ic r 0 s 0 with
  | [] => None
  | l => Some l
  end.

(** [s.replace(re, by)] for a pattern with the [g] flag and a replacement
    without [$]. *)
Fixpoint replace_from (ic : bool) (r : regex) (by_ : jsstring)
         (i : nat) (s : jsstring) (skip : nat) : jsstring :=
  match skip with
  | S n =>
    match s with
    | [] => []
    | _ :: s' => replace_from ic r by_ (S i) s' n
    end
  | 0 =>
    match exec ic r i s with
    | Some e =>
      by_ ++
      match s with
      | [] => []
      | c :: s' =>
        if (e =? i)%nat then c :: replace_from ic r by_ (S i) s' 0
        else replace_from ic r by_ (S i) s' (e - i - 1)
      end
    | None =>
      match s with
      | [] => []
      | c :: s' => c :: replace_from ic r by_ (S i) s' 0
      end
    end
  end.

Definition replace_g (ic : bool) (r : regex) (by_ : jsstring) (s : jsstring) : jsstring :=
  replace_from ic r by_ 0 s 0.

(** [s.replace(re, by)] for a pattern without the [g] flag: the first match only. *)
Definition replace_first (ic : bool) (r : regex) (by_ : jsstring) (s : jsstring) : jsstring :=
  match search ic r 0 s with
  | Some (b, e) => firstn b s ++ by_ ++ skipn e s
  | None => s
  end.

(** [s.split(re)]: [cur] is the piece being read, last character first; a
    separator is looked for at every index before the end, and one that is
    empty and starts where the last one ended is passed over. *)
Fixpoint split_from (ic : bool) (r : regex) (i : nat) (s : jsstring)
         (skip : nat) (cur : jsstring) : list jsstring :=
  match s with
  | [] => [rev cur]
  | c :: s' =>
    match skip with
    | S n => split_from ic r (S i) s' n cur
    | 0 =>
      match exec ic r i s with
      | Some e =>
        if (e =? i)%nat then
          match cur with
          | [] => split_from ic r (S i) s' 0 [c]
          | _ :: _ => rev cur :: split_from ic r (S i) s' 0 [c]
          end
        else rev cur :: split_from ic r (S i) s' (e - i - 1) []
      | None => split_from ic r (S i) s' 0 (c :: cur)
      end
    end
  end.

Definition split (ic : bool) (r : regex) (s : jsstring) : list jsstring :=
  match s with
  | [] => match exec ic r 0 [] with Some _ => [] | None => [[]] end
  | _ :: _ => split_from ic r 0 s 0 []
  end.

(** ** The classifier: [extractContactInfo] *)

Local Open Scope string_scope.
Local Open Scope regex_scope.

Definition az : item := Rg "a" "z".
Definition AZ : item := Rg "A" "Z".
Definition d09 : item := Rg "0" "9".

(** [/([a-zA-Z0-9._%+-]+@[a-zA-Z0-9.-]+\.[a-zA-Z]{2,})/gi] *)
Definition emailLocal : atom := In_ [az; AZ; d09; Ch "."; Ch "_"; Ch "%"; Ch "+"; Ch "-"].
Definition emailDomain : atom := In_ [az; AZ; d09; Ch "."; Ch "-"].
Definition letters : atom := In_ [az; AZ].

Definition emailRegex : regex :=
  plus emailLocal >> lit "@" >> plus emailDomain >> lit "." >> Rep letters 2 None.

(** [/(\+?91[\s-]?[6-9]\d{9}|\+?1[\s-]?\(?[2-9]\d{2}\)?[\s-]?[2-9]\d{2}[\s-]?\d{4}|\+?[1-9]\d{1,14})/g] *)
Definition sep : atom := In_ [Spc; Ch "-"].
Definition digit : atom := In_ [Dig].

Definition phoneIndia : regex :=
  quest (In_ [Ch "+"]) >> lit "9" >> lit "1" >> quest sep >>
  One (In_ [Rg "6" "9"]) >> times digit 9.

Definition phoneUS : regex :=
  quest (In_ [Ch "+"]) >> lit "1" >> quest sep >> quest (In_ [Ch "("]) >>
  One (In_ [Rg "2" "9"]) >> times digit 2 >> quest (In_ [Ch ")"]) >> quest sep >>
  One (In_ [Rg "2" "9"]) >> times digit 2 >> quest sep >> times digit 4.

Definition phoneGeneric : regex :=
  quest (In_ [Ch "+"]) >> One (In_ [Rg "1" "9"]) >> Rep digit 1 (Some 14).

Definition phoneRegex : regex := phoneIndia <|> phoneUS <|> phoneGeneric.

(** [/(?:https?:\/\/)?(?:www\.)?([a-zA-Z0-9][a-zA-Z0-9-]{1,61}[a-zA-Z0-9]\.[a-zA-Z]{2,})/gi] *)
Definition alnum : atom := In_ [az; AZ; d09].
Definition alnumHyphen : atom := In_ [az; AZ; d09; Ch "-"].

Definition scheme : regex :=
  word "http" >> quest (In_ [Ch "s"]) >> lit ":" >> lit "/" >> lit "/".

Definition domainShape : regex :=
  One alnum >> Rep alnumHyphen 1 (Some 61) >> One alnum >> lit "." >> Rep letters 2 None.

Definition websiteRegex : regex :=
  Opt scheme >> Opt (word "www" >> lit ".") >> domainShape.

(** [text.replace(/[^\w\s@.+\-()]/gi, ' ').replace(/\s+/g, ' ').trim()] *)
Definition keptChars : list item :=
  [Wrd; Spc; Ch "@"; Ch "."; Ch "+"; Ch "-"; Ch "("; Ch ")"].

Definition cleanText (text : jsstring) : jsstring :=
  trim (replace_g false (plus (In_ [Spc])) (str " ")
         (replace_g true (One (NotIn keptChars)) (str " ") text)).

(** [text.split(/[\n\r]+/).map(line => line.trim()).filter(line => line.length > 1)] *)
Definition linesOf (text : jsstring) : list jsstring :=
  filter (fun line => (1 <? length line)%nat)
         (map trim (split false (plus (In_ [Ch LF; Ch CR])) text)).

(** [phone.replace(/\D/g, '')] *)
Definition digitsOf (phone : jsstring) : jsstring :=
  replace_g false (One (NotIn [Dig])) [] phone.

(** [/^[A-Z][a-zA-Z]{1,}\s+[A-Z][a-zA-Z]{1,}(\s+[A-Z][a-zA-Z]{1,})?$/] *)
Definition nameWord : regex := One (In_ [AZ]) >> Rep letters 1 None.

Definition nameRegex : regex :=
  Bol >> nameWord >> plus (In_ [Spc]) >> nameWord >>
  Opt (plus (In_ [Spc]) >> nameWord) >> Eol.

(** [/\d/] *)
Definition anyDigit : regex := One digit.

Section Candidates.
(** [emails], [phones] and [websites]: what [cleanText.match] gave. *)
Variables emails phones websites : option (list jsstring).

(** The callback of [nameCandidate]. *)
Definition isNameLine (line : jsstring) (index : nat) : bool :=
  let trimmed := trim line in
  if (3 <? index)%nat then false
  else
    let isValidName := test false nameRegex trimmed in
    let hasNoNumbers := negb (test false anyDigit trimmed) in
    let hasNoEmail :=
      negb (opt_some emails (fun email =>
              includes (toLowerCase trimmed) (toLowerCase email))) in
    let hasNoPhone :=
      negb (opt_some phones (fun phone => includes trimmed (digitsOf phone))) in
    let hasNoWebsite :=
      negb (opt_some websites (fun website =>
              includes (toLowerCase trimmed) (toLowerCase website))) in
    isValidName && hasNoNumbers && hasNoEmail && hasNoPhone && hasNoWebsite.

Definition companyKeywords : list jsstring :=
  map str
    ["inc"; "inc."; "ltd"; "ltd."; "llc"; "corp"; "corporation"; "company"; "co."; "co";
     "group"; "solutions"; "services"; "technologies"; "systems"; "enterprises"; "consulting";
     "pvt"; "private"; "limited"; "software"; "tech"; "digital"; "innovation"].

(** [nameCandidate && line === nameCandidate], and the like. *)
Definition isCandidate (cand : option jsstring) (line : jsstring) : bool :=
  match cand with
  | Some c => truthy_str c && jseq line c
  | None => false
  end.

Definition hasCompanyKeyword (trimmed : jsstring) : bool :=
  existsb (fun keyword => includes trimmed keyword || endsWith trimmed keyword)
          companyKeywords.

(** [/^[A-Z][a-zA-Z\s&,.-]{2,}/] *)
Definition properCaseRegex : regex :=
  Bol >> One (In_ [AZ]) >>
  Rep (In_ [az; AZ; Spc; Ch "&"; Ch ","; Ch "."; Ch "-"]) 2 None.

Definition isProperCase (line : jsstring) : bool :=
  test false properCaseRegex (trim line).

(** The lines the company and address searches pass over as contact details. *)
Definition hasEmailIn (lowered : jsstring) : bool :=
  opt_some emails (fun email => includes lowered (toLowerCase email)).

Definition hasPhoneIn (trimmed : jsstring) : bool :=
  opt_some phones (fun phone => includes trimmed (digitsOf phone)).

(** The callback of [companyCandidate]. *)
Definition isCompanyLine (nameCandidate : option jsstring)
           (line : jsstring) (index : nat) : bool :=
  let trimmed := toLowerCase (trim line) in
  if isCandidate nameCandidate line then false
  else if hasEmailIn trimmed then false
  else if hasPhoneIn trimmed then false
  else hasCompanyKeyword trimmed || (isProperCase line && (index <? 5)%nat).

Definition titleKeywords : list jsstring :=
  map str
    ["manager"; "director"; "ceo"; "cto"; "cfo"; "president"; "vice president"; "vp";
     "senior"; "lead"; "head"; "chief"; "engineer"; "developer"; "analyst"; "consultant";
     "specialist"; "coordinator"; "executive"; "officer"; "founder"; "partner"; "associate"].

(** The callback of [jobTitleCandidate]. *)
Definition isJobTitleLine (nameCandidate companyCandidate : option jsstring)
           (line : jsstring) (index : nat) : bool :=
  let trimmed := toLowerCase (trim line) in
  if isCandidate nameCandidate line then false
  else if isCandidate companyCandidate line then false
  else existsb (fun keyword => includes trimmed keyword) titleKeywords.

(** [/\d+.*(?:street|st\.?|avenue|ave\.?|road|rd\.?|drive|dr\.?|lane|ln\.?|boulevard|blvd\.?)/i] *)
Definition dot_ : atom := In_ [Ch "."].

Definition streetRegex : regex :=
  plus digit >> star Dot >>
  (word "street" <|> (word "st" >> quest dot_) <|>
   word "avenue" <|> (word "ave" >> quest dot_) <|>
   word "road" <|> (word "rd" >> quest dot_) <|>
   word "drive" <|> (word "dr" >> quest dot_) <|>
   word "lane" <|> (word "ln" >> quest dot_) <|>
   word "boulevard" <|> (word "blvd" >> quest dot_)).

(** [/[A-Z][a-z]+,\s*[A-Z]{2}\s*\d{5}/] *)
Definition cityStateZipRegex : regex :=
  One (In_ [AZ]) >> plus (In_ [az]) >> lit "," >> star (In_ [Spc]) >>
  times (In_ [AZ]) 2 >> star (In_ [Spc]) >> times digit 5.

(** [/\d{6}/] and [/\d{5}/] *)
Definition pin6Regex : regex := times digit 6.
Definition zip5Regex : regex := times digit 5.

Definition looksLikeAddress (trimmed : jsstring) : bool :=
  test true streetRegex trimmed ||
  test false cityStateZipRegex trimmed ||
  test false pin6Regex trimmed ||
  test false zip5Regex trimmed.

(** The callback of [addressCandidate]. *)
Definition isAddressLine (line : jsstring) (index : nat) : bool :=
  let trimmed := trim line in
  if hasEmailIn (toLowerCase trimmed) then false
  else if hasPhoneIn trimmed then false
  else looksLikeAddress trimmed.
End Candidates.

Inductive Source : Type := camera | upload.

Record ScannedData : Type := {
  name : option jsstring;
  email : option jsstring;
  phone : option jsstring;
  website : option jsstring;
  company : option jsstring;
  job_title : option jsstring;
  location : option jsstring;
  raw_text : jsstring;
  source : Source;
  confidence : option float
}.

(** [/^(https?:\/\/)?/] *)
Definition schemePrefix : regex := Bol >> Opt scheme.

(** [/[^\d+]/g] *)
Definition notDigitPlus : regex := One (NotIn [Dig; Ch "+"]).

Definition emailsOf (text : jsstring) : option (list jsstring) :=
  match_g true emailRegex (cleanText text).
Definition phonesOf (text : jsstring) : option (list jsstring) :=
  match_g false phoneRegex (cleanText text).
Definition websitesOf (text : jsstring) : option (list jsstring) :=
  match_g true websiteRegex (cleanText text).

Definition nameCandidateOf (text : jsstring) : option jsstring :=
  Array_find (isNameLine (emailsOf text) (phonesOf text) (websitesOf text)) (linesOf text).

Definition companyCandidateOf (text : jsstring) : option jsstring :=
  Array_find (isCompanyLine (emailsOf text) (phonesOf text) (nameCandidateOf text))
             (linesOf text).

Definition jobTitleCandidateOf (text : jsstring) : option jsstring :=
  Array_find (isJobTitleLine (nameCandidateOf text) (companyCandidateOf text)) (linesOf text).

Definition addressCandidateOf (text : jsstring) : option jsstring :=
  Array_find (isAddressLine (emailsOf text) (phonesOf text)) (linesOf text).

(** [uploadSource] is the component's state when the scan runs. *)
Definition extractContactInfo (uploadSource : Source)
           (text : jsstring) (confidence : option float) : ScannedData :=
  let emails := emailsOf text in
  let phones := phonesOf text in
  let websites := websitesOf text in
  let nameCandidate := nameCandidateOf text in
  let companyCandidate := companyCandidateOf text in
  let jobTitleCandidate := jobTitleCandidateOf text in
  let addressCandidate := addressCandidateOf text in
  let cleanPhone := option_map (replace_g false notDigitPlus []) (opt_first phones) in
  {| name := option_map trim nameCandidate;
     email := option_map toLowerCase (opt_first emails);
     phone := cleanPhone;
     website := option_map (replace_first false schemePrefix []) (opt_first websites);
     company := option_map trim companyCandidate;
     job_title := option_map trim jobTitleCandidate;
     location := option_map trim addressCandidate;
     raw_text := text;
     source := uploadSource;
     confidence := confidence |}.

(** The line indices the four line-level fields are taken from. *)
Definition nameIndexOf (text : jsstring) : option nat :=
  Array_findIndex (isNameLine (emailsOf text) (phonesOf text) (websitesOf text)) (linesOf text).
Definition companyIndexOf (text : jsstring) : option nat :=
  Array_findIndex (isCompanyLine (emailsOf text) (phonesOf text) (nameCandidateOf text))
                  (linesOf text).
Definition jobTitleIndexOf (text : jsstring) : option nat :=
  Array_findIndex (isJobTitleLine (nameCandidateOf text) (companyCandidateOf text))
                  (linesOf text).
Definition addressIndexOf (text : jsstring) : option nat :=
  Array_findIndex (isAddressLine (emailsOf text) (phonesOf text)) (linesOf text).

(** Lines of a card, joined by line feeds. *)
Fixpoint card (ls : list string) : jsstring :=
  match ls with
  | [] => []
  | [l] => str l
  | l :: ls' => (str l ++ LF :: card ls')%list
  end.

(** ** The remote engine: the [vision-ocr] edge function *)

Local Open Scope list_scope.

(** A number is truthy unless it is zero or NaN. *)
Definition truthy_num (x : float) : bool :=
  negb (PrimFloat.eqb x 0 || negb (PrimFloat.eqb x x)).

(** [x || d] on an optional number. *)
Definition num_or (x : option float) (d : float) : float :=
  match x with
  | Some v => if truthy_num v then v else d
  | None => d
  end.

(** [s || d] on an optional string. *)
Definition str_or (s : option jsstring) (d : jsstring) : jsstring :=
  match s with
  | Some v => if truthy_str v then v else d
  | None => d
  end.

(** The JSON body the edge function answers with. *)
Record VisionData : Type := {
  success : bool;
  text : jsstring;
  v_confidence : option float;
  error : option jsstring
}.

(** [result.responses?.[0]?.textAnnotations?.[0]] of the provider's answer. *)
Record Annotation : Type := {
  description : jsstring;
  score : option float
}.

(** What a thrown value is to [error instanceof Error ? error.message : ...]. *)
Inductive Thrown : Type :=
| ErrorObj (message : jsstring)
| OtherValue.

Inductive outcome (A : Type) : Type :=
| Returned (a : A)
| Threw (e : Thrown).
Arguments Returned {A} a.
Arguments Threw {A} e.

Definition failureBody (message : jsstring) : VisionData :=
  {| success := false; text := []; v_confidence := None; error := Some message |}.

(** The handler after the OPTIONS check: [apiKey] is the configured key, and
    [annotate] what the call to the provider and the reading of its answer
    give: the first text annotation, if any, or what they threw.  The answer
    is a status and a body. *)
Definition visionHandler (apiKey : option jsstring)
           (annotate : outcome (option Annotation)) : nat * VisionData :=
  match apiKey with
  | Some key =>
    if truthy_str key then
      match annotate with
      | Returned (Some a) =>
        (200, {| success := true;
                 text := description a;
                 v_confidence := Some (num_or (score a) 0.8);
                 error := None |})
      | Returned None => (500, failureBody (str "No text detected in image"))
      | Threw (ErrorObj m) => (500, failureBody m)
      | Threw OtherValue => (500, failureBody [])
      end
    else (500, failureBody (str "Google Cloud API key not configured"))
  | None => (500, failureBody (str "Google Cloud API key not configured"))
  end.

(** [supabase.functions.invoke]: the body of a 2xx answer is [data]; any other
    status leaves [data] null. *)
Definition invokeData (answer : nat * VisionData) : option VisionData :=
  let (status, body) := answer in
  if ((200 <=? status) && (status <? 300))%nat then Some body else None.

(** ** The orchestration: [processImage] *)

(** What the local engine resolves to: [result.data]. *)
Record TesseractData : Type := {
  t_text : jsstring;
  t_confidence : float
}.

(** What the component does that its surroundings can see. *)
Inductive Event : Type :=
| SetScanning (b : bool)
| InvokeVision (imageData : jsstring)
| TesseractRecognize (image : jsstring) (lang : jsstring)
| OnScanComplete (data : ScannedData)
| ToastScanComplete (confidence : float)
| ToastScanFailed (description : jsstring).

(** The component's state and the two engines, as [processImage] meets them. *)
Record Env : Type := {
  capturedImage : option jsstring;
  uploadSource : Source;
  invoke : jsstring -> outcome (option VisionData);
  recognize : jsstring -> jsstring -> outcome TesseractData
}.

(** Computations that log events and may throw. *)
Definition M (A : Type) : Type := list Event * outcome A.

Definition ret {A} (a : A) : M A := ([], Returned a).
Definition throw {A} (e : Thrown) : M A := ([], Threw e).
Definition emit (ev : Event) : M unit := ([ev], Returned tt).

Definition bind {A B} (m : M A) (f : A -> M B) : M B :=
  match m with
  | (log, Returned a) => let (log', r) := f a in (log ++ log', r)
  | (log, Threw e) => (log, Threw e)
  end.

(** [try { m } catch (e) { h e }] *)
Definition try_catch {A} (m : M A) (h : Thrown -> M A) : M A :=
  match m with
  | (log, Threw e) => let (log', r) := h e in (log ++ log', r)
  | (log, Returned a) => (log, Returned a)
  end.

(** [try { m } finally { f }] *)
Definition try_finally {A} (m : M A) (f : M unit) : M A :=
  let (log, r) := m in
  match f with
  | (log', Returned _) => (log ++ log', r)
  | (log', Threw e) => (log ++ log', Threw e)
  end.

Notation "x <- m ;; f" := (bind m (fun x => f))
  (at level 61, m at next level, right associativity).
Notation "m ;;; f" := (bind m (fun _ => f))
  (at level 61, right associativity).

Definition noTextMessage : jsstring := str "No text could be extracted from the image".
Definition defaultFailure : jsstring :=
  str "Failed to process the image. Please try again with better lighting.".

(** [!extractedText || extractedText.trim().length < 3] *)
Definition tooShort (extractedText : jsstring) : bool :=
  negb (truthy_str extractedText) || (length (trim extractedText) <? 3)%nat.

Section ProcessImage.
Variable env : Env.

(** [await supabase.functions.invoke('vision-ocr', { body: { imageData } })] *)
Definition callVision (image : jsstring) : M (option VisionData) :=
  ([InvokeVision image], invoke env image).

(** [await Tesseract.recognize(capturedImage, 'eng', ...)] *)
Definition callTesseract (image : jsstring) : M TesseractData :=
  ([TesseractRecognize image (str "eng")], recognize env image (str "eng")).

(** The remote attempt: the text and the confidence, or a throw. *)
Definition remoteAttempt (image : jsstring) : M (jsstring * float) :=
  data <- callVision image ;;
  match data with
  | Some d =>
    if success d then ret (text d, num_or (v_confidence d) 0.8)
    else throw (ErrorObj (str_or (error d) (str "Vision API failed")))
  | None => throw (ErrorObj (str "Vision API failed"))
  end.

(** The fallback in the [catch] of the remote attempt. *)
Definition localFallback (image : jsstring) : M (jsstring * float) :=
  result <- callTesseract image ;;
  ret (t_text result, (t_confidence result / 100)%float).

Definition recognizeText (image : jsstring) : M (jsstring * float) :=
  try_catch (remoteAttempt image) (fun _ => localFallback image).

Definition scanBody (image : jsstring) : M unit :=
  tc <- recognizeText image ;;
  let (extractedText, confidence) := tc in
  if tooShort extractedText
  then throw (ErrorObj noTextMessage)
  else
    emit (OnScanComplete
            (extractContactInfo (uploadSource env) extractedText (Some confidence))) ;;;
    emit (ToastScanComplete confidence).

Definition failureToast (e : Thrown) : M unit :=
  emit (ToastScanFailed
          match e with
          | ErrorObj m => m
          | OtherValue => defaultFailure
          end).

Definition processImage : M unit :=
  match capturedImage env with
  | Some image =>
    if truthy_str image then
      emit (SetScanning true) ;;;
      try_finally (try_catch (scanBody image) failureToast)
                  (emit (SetScanning false))
    else ret tt
  | None => ret tt
  end.
End ProcessImage.

(** The events of a run. *)
Definition trace (env : Env) : list Event := fst (processImage env).

Definition isTesseractCall (ev : Event) : bool :=
  match ev with
  | TesseractRecognize _ _ => true
  | _ => false
  end.

(** The record handed to [onScanComplete], if the run got that far. *)
Fixpoint scanned (l : list Event) : option ScannedData :=
  match l with
  | [] => None
  | OnScanComplete d :: _ => Some d
  | _ :: l' => scanned l'
  end.

(** The remote call failed: it threw, or it gave no data, or data that do not
    say [success]. *)
Definition remoteFailed (r : outcome (option VisionData)) : bool :=
  match r with
  | Threw _ => true
  | Returned None => true
  | Returned (Some d) => negb (success d)
  end.

(** ** What a pattern describes *)

Definition within (hi : option nat) (n : nat) : Prop :=
  match hi with
  | Some h => n <= h
  | None => True
  end.

(** [matches ic r i w rest]: at index [i], with [w ++ rest] ahead, the pattern
    [r] can consume exactly [w]. *)
Inductive matches (ic : bool) : regex -> nat -> jsstring -> jsstring -> Prop :=
| M_Eps i rest : matches ic Eps i [] rest
| M_Bol rest : matches ic Bol 0 [] rest
| M_Eol i : matches ic Eol i [] []
| M_One a c i rest :
    atom_has ic a c = true -> matches ic (One a) i [c] rest
| M_Rep a lo hi i w rest :
    Forall (fun c => atom_has ic a c = true) w ->
    lo <= length w -> within hi (length w) ->
    matches ic (Rep a lo hi) i w rest
| M_OptSkip r i rest : matches ic (Opt r) i [] rest
| M_OptTake r i w rest : matches ic r i w rest -> matches ic (Opt r) i w rest
| M_Seq r1 r2 i w1 w2 rest :
    matches ic r1 i w1 (w2 ++ rest) ->
    matches ic r2 (i + length w1) w2 rest ->
    matches ic (Seq r1 r2) i (w1 ++ w2) rest
| M_AltL r1 r2 i w rest : matches ic r1 i w rest -> matches ic (Alt r1 r2) i w rest
| M_AltR r1 r2 i w rest : matches ic r2 i w rest -> matches ic (Alt r1 r2) i w rest.

(** [s] has a match of [r] that starts after [pre]. *)
Definition matchAt (ic : bool) (r : regex) (s pre m post : jsstring) : Prop :=
  s = pre ++ m ++ post /\ matches ic r (length pre) m post.

(** The characters a match of [r] may hold. *)
Fixpoint may_hold (ic : bool) (r : regex) (c : ascii) : bool :=
  match r with
  | Eps | Bol | Eol => false
  | One a => atom_has ic a c
  | Rep a _ _ => atom_has ic a c
  | Opt r1 => may_hold ic r1 c
  | Seq r1 r2 => may_hold ic r1 c || may_hold ic r2 c
  | Alt r1 r2 => may_hold ic r1 c || may_hold ic r2 c
  end.

Definition all_ascii : list ascii := map ascii_of_nat (seq 0 256).

(** Every character of the atom answers [P]. *)
Definition only (P : ascii -> bool) (ic : bool) (a : atom) : bool :=
  forallb (fun c => implb (atom_has ic a c) (P c)) all_ascii.

(** Every match of [r] holds a character that answers [P] (a sufficient check). *)
Fixpoint must_hold (P : ascii -> bool) (ic : bool) (r : regex) : bool :=
  match r with
  | Eps | Bol | Eol | Opt _ => false
  | One a => only P ic a
  | Rep a lo _ => (1 <=? lo)%nat && only P ic a
  | Seq r1 r2 => must_hold P ic r1 || must_hold P ic r2
  | Alt r1 r2 => must_hold P ic r1 && must_hold P ic r2
  end.

(** The substring of the first match, as [search] finds it. *)
Definition firstMatch (ic : bool) (r : regex) (s : jsstring) : option jsstring :=
  match search ic r 0 s with
  | Some (b, e) => Some (firstn (e - b) (skipn b s))
  | None => None
  end.

(** ** The properties under study *)

Definition distinctWhenSet (a b : option nat) : Prop :=
  forall i j, a = Some i -> b = Some j -> i <> j.

(** No two of name, company, job title and location come from one line. *)
Definition lineExclusive (text : jsstring) : Prop :=
  distinctWhenSet (nameIndexOf text) (companyIndexOf text) /\
  distinctWhenSet (nameIndexOf text) (jobTitleIndexOf text) /\
  distinctWhenSet (nameIndexOf text) (addressIndexOf text) /\
  distinctWhenSet (companyIndexOf text) (jobTitleIndexOf text) /\
  distinctWhenSet (companyIndexOf text) (addressIndexOf text) /\
  distinctWhenSet (jobTitleIndexOf text) (addressIndexOf text).






(** The website carries neither a scheme nor a leading [www.]. *)
Definition websiteBare (text : jsstring) : Prop :=
  forall w, website (extractContactInfo camera text None) = Some w ->
    starts_with (str "http://") (toLowerCase w) = false /\
    starts_with (str "https://") (toLowerCase w) = false /\
    starts_with (str "www.") (toLowerCase w) = false.

(** What stands before and after the first [c] of a string. *)
Fixpoint before (c : ascii) (s : jsstring) : jsstring :=
  match s with
  | [] => []
  | x :: s' => if (x =? c)%char then [] else x :: before c s'
  end.

Fixpoint after (c : ascii) (s : jsstring) : jsstring :=
  match s with
  | [] => []
  | x :: s' => if (x =? c)%char then s' else after c s'
  end.

(** The domain of an address, and the first label of a domain. *)
Definition domainOf (address : jsstring) : jsstring := after "@" address.
Definition firstLabelOf (domain : jsstring) : jsstring := before "." domain.

(** Where the domain of the first email match starts in the normalized text. *)
Definition domainStartOf (text : jsstring) : option nat :=
  match search true emailRegex 0 (cleanText text) with
  | Some (b, e) =>
    Some (b + length (before "@" (firstn (e - b) (skipn b (cleanText text)))) + 1)
  | None => None
  end.

(** No match of the website pattern starts before index [d] of the normalized text. *)
Definition websiteFreeBefore (text : jsstring) (d : nat) : bool :=
  forallb (fun q =>
             match exec true websiteRegex q (skipn q (cleanText text)) with
             | Some _ => false
             | None => true
             end) (seq 0 d).

(** The website is the domain of the email. *)
Definition websiteIsEmailDomain (text : jsstring) : Prop :=
  forall e d,
    email (extractContactInfo camera text None) = Some e ->
    domainStartOf text = Some d ->
    3 <= length (firstLabelOf (domainOf e)) ->
    websiteFreeBefore text d = true ->
    website (extractContactInfo camera text None) = Some (domainOf e).

(** A first label the website pattern can take whole: 3 to 63 characters,
    a letter or a digit at both ends. *)
Definition labelShaped (l : jsstring) : bool :=
  (3 <=? length l)%nat && (length l <=? 63)%nat &&
  match l, rev l with
  | a :: _, z :: _ => atom_has true alnum a && atom_has true alnum z
  | _, _ => false
  end.

(** A domain of exactly two labels. *)
Definition twoLabels (domain : jsstring) : bool :=
  negb (existsb (fun c => (c =? ".")%char) (after "." domain)).

(** What the cleaning of a phone keeps. *)
Definition digitOrPlus (c : ascii) : bool := is_digit c || (c =? "+")%char.

(** A phone as the record holds it: digits, after at most one [+]. *)
Definition plusThenDigits (p : jsstring) : Prop :=
  exists ds, (p = ds \/ p = "+"%char :: ds) /\ Forall (fun c => is_digit c = true) ds.

(** Nothing of the text answers a pattern or a line rule. *)
Definition nothingFound (text : jsstring) : Prop :=
  firstMatch true emailRegex (cleanText text) = None /\
  firstMatch false phoneRegex (cleanText text) = None /\
  firstMatch true websiteRegex (cleanText text) = None /\
  Forall (fun line =>
            test false nameRegex (trim line) = false /\
            hasCompanyKeyword (toLowerCase (trim line)) = false /\
            isProperCase line = false /\
            existsb (fun keyword => includes (toLowerCase (trim line)) keyword)
                    titleKeywords = false /\
            looksLikeAddress (trim line) = false)
         (linesOf text).

Definition allUnset (r : ScannedData) : Prop :=
  name r = None /\ email r = None /\ phone r = None /\ website r = None /\
  company r = None /\ job_title r = None /\ location r = None.

(** What the run of the component ends with, once a text and a confidence
    are there, whichever engine gave them. *)
Definition afterRecognition (src : Source) (t : jsstring) (c : float) : list Event :=
  if tooShort t then [ToastScanFailed noTextMessage]
  else [OnScanComplete (extractContactInfo src t (Some c)); ToastScanComplete c].

(** The calls to the two engines, which the caller of the scan does not see. *)
Definition isEngineCall (ev : Event) : bool :=
  match ev with
  | InvokeVision _ | TesseractRecognize _ _ => true
  | _ => false
  end.

(** What the caller of the scan sees of a run. *)
Definition callerView (l : list Event) : list Event :=
  filter (fun ev => negb (isEngineCall ev)) l.

(** The characters the normalized text is made of. *)
Definition kept (c : ascii) : Prop := set_has true keptChars c = true.

Definition is_colon (c : ascii) : bool := (c =? ":")%char.

(** The line at index [i], trimmed as the record holds it. *)
Definition lineAt (text : jsstring) (i : option nat) : option jsstring :=
  match i with
  | Some j => option_map trim (nth_error (linesOf text) j)
  | None => None
  end.


(** ** Two runs of the component *)

(** The remote call throws and the local engine reads two lines. *)
Definition envFailingRemote : Env :=
  {| capturedImage := Some (str "data:image/jpeg;base64,AAAA");
     uploadSource := upload;
     invoke := fun _ => Threw (ErrorObj (str "network down"));
     recognize := fun _ _ =>
       Returned {| t_text := card ["Jane Doe"; "jane@acme.com"]%string;
                   t_confidence := 87%float |} |}.

(** The provider reads a text of two letters. *)
Definition envShortRemote : Env :=
  {| capturedImage := Some (str "data:image/jpeg;base64,AAAA");
     uploadSource := camera;
     invoke := fun _ =>
       Returned (invokeData
         (visionHandler (Some (str "key"))
            (Returned (Some {| description := str " ab "; score := None |}))));
     recognize := fun _ _ =>
       Returned {| t_text := card ["Jane Doe"; "jane@acme.com"]%string;
                   t_confidence := 87%float |} |}.


(** ** Further properties of the run *)

(** What the failure toast says of a thrown value. *)
Definition failureText (e : Thrown) : jsstring :=
  match e with
  | ErrorObj m => m
  | OtherValue => defaultFailure
  end.

(** How a run that has an image ends, between the two settings of [scanning]:
    a failure toast, or a record and the success toast with the record's
    confidence. *)
Inductive RunEnd : list Event -> Prop :=
| EndFailed m : RunEnd [ToastScanFailed m]
| EndComplete d c :
    confidence d = Some c -> RunEnd [OnScanComplete d; ToastScanComplete c].

(** The calls a run makes: the remote engine, and then the local one or not. *)
Inductive EngineCalls (image : jsstring) : list Event -> Prop :=
| RemoteOnly : EngineCalls image [InvokeVision image]
| RemoteThenLocal :
    EngineCalls image [InvokeVision image; TesseractRecognize image (str "eng")].


(** Both engines fail: the edge function has no key, the local engine throws. *)
Definition envBothFail : Env :=
  {| capturedImage := Some (str "data:image/jpeg;base64,AAAA");
     uploadSource := camera;
     invoke := fun _ =>
       Returned (invokeData (visionHandler None (Returned None)));
     recognize := fun _ _ => Threw (ErrorObj (str "worker failed")) |}.

(** The provider reads a card and gives no score. *)
Definition envRemoteReads : Env :=
  {| capturedImage := Some (str "data:image/jpeg;base64,AAAA");
     uploadSource := upload;
     invoke := fun _ =>
       Returned (invokeData
         (visionHandler (Some (str "key"))
            (Returned (Some {| description := card ["Jane Doe"; "jane@acme.com"]%string;
                               score := None |}))));
     recognize := fun _ _ => Threw OtherValue |}.

(** ** The edge function's request handling *)

Local Open Scope regex_scope.

(** [/^data:image\/[a-z]+;base64,/] *)
Definition dataUrlPrefix : regex :=
  Bol >> word "data:image/" >> plus (In_ [az]) >> word ";base64,".

(** [imageData.replace(/^data:image\/[a-z]+;base64,/, '')] *)
Definition base64Of (imageData : jsstring) : jsstring :=
  replace_first false dataUrlPrefix [] imageData.

(** A request: its method, and what [await req.json()] gives, read at
    [imageData] ([None] when the body has no such key). *)
Record Request : Type := {
  q_method : jsstring;
  q_json : outcome (option jsstring)
}.

Inductive Body : Type :=
| OkText
| Json (d : VisionData).

(** An answer: its status, whether it carries [corsHeaders], its body. *)
Record Response : Type := {
  r_status : nat;
  r_cors : bool;
  r_body : Body
}.

(** The handler passed to [serve].  [typeError] is the message of the
    TypeError that [imageData.replace] throws on [undefined] (the engine's
    own text), and [provider] what the call to the provider and the reading
    of its answer give for the image content sent. *)
Definition serve (typeError : jsstring) (apiKey : option jsstring)
           (provider : jsstring -> outcome (option Annotation))
           (req : Request) : Response :=
  if jseq (q_method req) (str "OPTIONS") then
    {| r_status := 200; r_cors := true; r_body := OkText |}
  else
    let answer :=
      match q_json req with
      | Threw (ErrorObj m) => (500, failureBody m)
      | Threw OtherValue => (500, failureBody [])
      | Returned imageData =>
        visionHandler apiKey
          match imageData with
          | Some s => provider (base64Of s)
          | None => Threw (ErrorObj typeError)
          end
      end in
    {| r_status := fst answer; r_cors := true; r_body := Json (snd answer) |}.

(** A data URL as [toDataURL] and [readAsDataURL] build it. *)
Definition dataUrl (subtype payload : jsstring) : jsstring :=
  str "data:image/" ++ subtype ++ str ";base64," ++ payload.

(** ** Taking the image: [capturePhoto], [handleFileUpload], [retakePhoto] *)

(** A chosen file: its MIME type, its size in bytes, and what the reader
    makes of it. *)
Record File : Type := {
  f_type : jsstring;
  f_size : N;
  f_result : jsstring
}.

Inductive UploadOutcome : Type :=
| NoFile
| InvalidFile
| FileTooLarge
| Reading (result : jsstring).

(** [handleFileUpload], up to the start of the reading. *)
Definition handleFileUpload (file : option File) : UploadOutcome :=
  match file with
  | None => NoFile
  | Some f =>
    if negb (starts_with (str "image/") (f_type f)) then InvalidFile
    else if (10 * 1024 * 1024 <? f_size f)%N then FileTooLarge
    else Reading (f_result f)
  end.

(** The state of the scanner that the scan depends on.  The image carries a
    mark that the code does not store: which handler set it. *)
Record Scanner : Type := {
  s_image : option (Source * jsstring);
  s_source : Source;
  s_cameraActive : bool
}.

Definition scannerStart : Scanner :=
  {| s_image := None; s_source := camera; s_cameraActive := false |}.

(** What happens to the scanner.  [CapturePhoto refs width height context
    frame]: the button is pressed while the video and canvas are there or
    not, the video has that size, the canvas gives a context or not, and
    [frame] is what [toDataURL] gives.  [CameraStarted video]: [play]
    resolved, with the video element there or not.  [FileLoaded] is the
    reader's [onload]. *)
Inductive Action : Type :=
| CameraStarted (video : bool)
| CameraFailed
| CapturePhoto (refs : bool) (width height : nat) (context : bool) (frame : jsstring)
| UploadFile (file : option File)
| FileLoaded (result : jsstring)
| RetakePhoto.

Definition scannerStep (s : Scanner) (a : Action) : Scanner :=
  match a with
  | CameraStarted video =>
    if video then
      {| s_image := s_image s; s_source := s_source s; s_cameraActive := true |}
    else s
  | CameraFailed =>
    {| s_image := s_image s; s_source := s_source s; s_cameraActive := false |}
  | CapturePhoto refs width height context frame =>
    if refs && s_cameraActive s then
      if ((width =? 0) || (height =? 0))%nat then s
      else if context then
        {| s_image := Some (camera, frame); s_source := camera; s_cameraActive := false |}
      else s
    else s
  | UploadFile _ => s
  | FileLoaded result =>
    {| s_image := Some (upload, result); s_source := upload; s_cameraActive := false |}
  | RetakePhoto =>
    {| s_image := None; s_source := camera; s_cameraActive := false |}
  end.

(** The reader's [onload] comes only after a file went through the checks. *)
Fixpoint wellFormed (pending : list jsstring) (l : list Action) : bool :=
  match l with
  | [] => true
  | UploadFile file :: l' =>
    match handleFileUpload file with
    | Reading result => wellFormed (result :: pending) l'
    | _ => wellFormed pending l'
    end
  | FileLoaded result :: l' =>
    existsb (jseq result) pending && wellFormed pending l'
  | _ :: l' => wellFormed pending l'
  end.

Definition scannerAfter (l : list Action) : Scanner := fold_left scannerStep l scannerStart.

(** The environment of a scan in a state of the scanner. *)
Definition envOf (s : Scanner)
           (remote : jsstring -> outcome (option VisionData))
           (lcl : jsstring -> jsstring -> outcome TesseractData) : Env :=
  {| capturedImage := option_map snd (s_image s);
     uploadSource := s_source s;
     invoke := remote;
     recognize := lcl |}.

(** A first text annotation the provider may find. *)
Definition janeAnnotation : Annotation :=
  {| description := card ["Jane Doe"; "jane@acme.com"]%string; score := None |}.

(** A file that passes the checks, and a session: the camera starts, a frame
    is captured, the user retakes, then uploads the file. *)
Definition pngFile : File :=
  {| f_type := str "image/png"; f_size := 2048; f_result := dataUrl (str "png") (str "AAAA") |}.

Definition uploadSession : list Action :=
  [CameraStarted true;
   CapturePhoto true 1920 1080 true (dataUrl (str "jpeg") (str "BBBB"));
   RetakePhoto;
   UploadFile (Some pngFile);
   FileLoaded (f_result pngFile)].

(** The source in the state names the handler that set the image. *)
Definition sourceMarksOrigin (s : Scanner) : Prop :=
  forall o d, s_image s = Some (o, d) -> s_source s = o.

(** [d] is the content of a file of the session that passes both checks. *)
Definition checkedFileOf (l : list Action) (d : jsstring) : Prop :=
  exists f, In (UploadFile (Some f)) l /\ d = f_result f /\
    starts_with (str "image/") (f_type f) = true /\ (f_size f <= 10485760)%N.


(** ** Counting the characters of a match *)

(** How many characters of [s] answer [P]. *)
Definition count (P : ascii -> bool) (s : jsstring) : nat := length (filter P s).

(** No character of the atom answers [P]. *)
Definition never (P : ascii -> bool) (ic : bool) (a : atom) : bool :=
  only (fun c => negb (P c)) ic a.

Definition opt_add (a b : option nat) : option nat :=
  match a, b with
  | Some x, Some y => Some (x + y)
  | _, _ => None
  end.

Definition opt_max (a b : option nat) : option nat :=
  match a, b with
  | Some x, Some y => Some (Nat.max x y)
  | _, _ => None
  end.

(** Every match of [r] holds at least this many characters that answer [P]. *)
Fixpoint count_min (P : ascii -> bool) (ic : bool) (r : regex) : nat :=
  match r with
  | Eps | Bol | Eol | Opt _ => 0
  | One a => if only P ic a then 1 else 0
  | Rep a lo _ => if only P ic a then lo else 0
  | Seq r1 r2 => count_min P ic r1 + count_min P ic r2
  | Alt r1 r2 => Nat.min (count_min P ic r1) (count_min P ic r2)
  end.

(** Every match of [r] holds at most this many ([None]: no bound is known). *)
Fixpoint count_max (P : ascii -> bool) (ic : bool) (r : regex) : option nat :=
  match r with
  | Eps | Bol | Eol => Some 0
  | One a => Some (if never P ic a then 0 else 1)
  | Rep a _ hi => if never P ic a then Some 0 else hi
  | Opt r1 => count_max P ic r1
  | Seq r1 r2 => opt_add (count_max P ic r1) (count_max P ic r2)
  | Alt r1 r2 => opt_max (count_max P ic r1) (count_max P ic r2)
  end.

(** The pattern begins with [^], ends with [$]. *)
Fixpoint starts_bol (r : regex) : bool :=
  match r with
  | Bol => true
  | Seq r1 _ => starts_bol r1
  | _ => false
  end.

Fixpoint ends_eol (r : regex) : bool :=
  match r with
  | Eol => true
  | Seq _ r2 => ends_eol r2
  | _ => false
  end.

(** The pattern matches the empty string only. *)
Definition is_anchor (r : regex) : bool :=
  match r with
  | Eps | Bol | Eol => true
  | _ => false
  end.

(** Every match of [r] begins with a character that answers [P]
    (a sufficient check). *)
Fixpoint first_only (P : ascii -> bool) (ic : bool) (r : regex) : bool :=
  match r with
  | One a => only P ic a
  | Rep a lo _ => (1 <=? lo)%nat && only P ic a
  | Seq r1 r2 => first_only P ic r1 || (is_anchor r1 && first_only P ic r2)
  | Alt r1 r2 => first_only P ic r1 && first_only P ic r2
  | _ => false
  end.

Definition anyChar (c : ascii) : bool := true.
Definition is_at (c : ascii) : bool := (c =? "@")%char.
Definition is_letter (c : ascii) : bool := is_upper c || is_lower c.

(** The characters of an email, of a website, of a name as the record holds them. *)
Definition emailChar (c : ascii) : bool :=
  is_lower c || is_digit c ||
  existsb (Ascii.eqb c) ["."; "_"; "%"; "+"; "-"; "@"]%char.

Definition hostChar (c : ascii) : bool :=
  is_letter c || is_digit c || (c =? "-")%char || (c =? ".")%char.

Definition nameChar (c : ascii) : bool := is_letter c || is_space c.

(** [sub] stands somewhere in [s]. *)
Definition substring (sub s : jsstring) : Prop :=
  exists pre post, s = pre ++ sub ++ post.

(** A line as the classifier sees it: it stands in the text, it has at least
    two characters, none of them a line break, and no white space at its ends. *)
Definition lineOf (text l : jsstring) : Prop :=
  In l (linesOf text) /\ substring l text /\ 2 <= length l /\ trim l = l /\
  Forall (fun c => is_line_terminator c = false) l.

(** The four fields taken from lines. *)
Definition lineFields (r : ScannedData) : list (option jsstring) :=
  [name r; company r; job_title r; location r].

(** A card with every field on it. *)
Definition janeCard : jsstring :=
  card ["Jane Doe"; "Acme Solutions Inc"; "Senior Engineer"; "+1 (415) 555-0132";
        "Jane@Acme.com"; "5 Main Street, Springfield"]%string.

(** The fields that are never taken from a line holding the email or the phone. *)
Definition guardedFields (r : ScannedData) : list (option jsstring) :=
  [name r; company r; location r].

(** ** The contact list: search, delete and display *)

(** A row of the [contacts] table as the list holds it. *)
Record Contact : Type := {
  c_id : jsstring;
  c_name : option jsstring;
  c_phone : option jsstring;
  c_email : option jsstring;
  c_company : option jsstring;
  c_job_title : option jsstring;
  c_website : option jsstring;
  c_location : option jsstring;
  c_raw_text : option jsstring;
  c_created_at : jsstring
}.

Section ContactSearch.
(** [String.prototype.toLowerCase] on the strings of the list, which hold
    whatever was saved: nothing is assumed of it. *)
Variable lowered : jsstring -> jsstring.

(** [field?.toLowerCase().includes(searchTerm.toLowerCase())] *)
Definition lowerHas (field : option jsstring) (searchTerm : jsstring) : bool :=
  match field with
  | Some s => includes (lowered s) (lowered searchTerm)
  | None => false
  end.

(** [contact.phone?.includes(searchTerm)] *)
Definition phoneHas (field : option jsstring) (searchTerm : jsstring) : bool :=
  match field with
  | Some s => includes s searchTerm
  | None => false
  end.

(** The callback of the filter. *)
Definition matchesSearch (searchTerm : jsstring) (contact : Contact) : bool :=
  lowerHas (c_name contact) searchTerm ||
  lowerHas (c_email contact) searchTerm ||
  lowerHas (c_company contact) searchTerm ||
  phoneHas (c_phone contact) searchTerm.

(** The effect on [searchTerm] and [contacts]: what [filteredContacts] is set to. *)
Definition filteredContacts (searchTerm : jsstring) (contacts : list Contact) : list Contact :=
  if truthy_str searchTerm then filter (matchesSearch searchTerm) contacts
  else contacts.
End ContactSearch.

Inductive ListToast : Type := DeleteSuccess | DeleteError.

(** [handleDelete]: [dbFailed] says that the call gave an error or threw. *)
Definition handleDelete (dbFailed : bool) (id : jsstring) (contacts : list Contact)
  : list Contact * ListToast :=
  if dbFailed then (contacts, DeleteError)
  else (filter (fun contact => negb (jseq (c_id contact) id)) contacts, DeleteSuccess).

(** [l'] is [l] without the contacts of that id, the others in their order. *)
Inductive without (id : jsstring) : list Contact -> list Contact -> Prop :=
| without_nil : without id [] []
| without_drop c l l' : c_id c = id -> without id l l' -> without id (c :: l) l'
| without_keep c l l' : c_id c <> id -> without id l l' -> without id (c :: l) (c :: l').

Definition truthy_opt (o : option jsstring) : bool :=
  match o with
  | Some s => truthy_str s
  | None => false
  end.

(** What a card of the list shows. *)
Inductive Shown : Type :=
| Heading (s : jsstring)
| JobAtCompany (job_title company : jsstring)
| EmailRow (s : jsstring)
| PhoneRow (s : jsstring)
| CompanyRow (s : jsstring)
| WebsiteRow (s : jsstring)
| LocationRow (s : jsstring).

(** [cond && <row>] on an optional string. *)
Definition row_if (cond : bool) (field : option jsstring) (row : jsstring -> Shown)
  : list Shown :=
  match field with
  | Some s => if cond && truthy_str s then [row s] else []
  | None => []
  end.

Definition contactCard (contact : Contact) : list Shown :=
  [Heading (str_or (c_name contact) (str "Unnamed Contact"))] ++
  match c_job_title contact, c_company contact with
  | Some j, Some c => if truthy_str j && truthy_str c then [JobAtCompany j c] else []
  | _, _ => []
  end ++
  row_if true (c_email contact) EmailRow ++
  row_if true (c_phone contact) PhoneRow ++
  row_if (negb (truthy_opt (c_job_title contact))) (c_company contact) CompanyRow ++
  row_if true (c_website contact) WebsiteRow ++
  row_if true (c_location contact) LocationRow.

(** Whether a row shows this company, this job title. *)
Definition showsCompany (company : jsstring) (row : Shown) : bool :=
  match row with
  | JobAtCompany _ c | CompanyRow c => jseq c company
  | _ => false
  end.

Definition showsJobTitle (row : Shown) : bool :=
  match row with
  | JobAtCompany _ _ => true
  | _ => false
  end.

(** ** The contact form *)

(** The form's data: the keys of [ContactData], and the keys the objects
    handed in bring along ([source] and [confidence] from a scan, [user_id]
    and [created_at] from a row of the list). *)
Record ContactData : Type := {
  d_id : option jsstring;
  d_name : option jsstring;
  d_phone : option jsstring;
  d_email : option jsstring;
  d_company : option jsstring;
  d_job_title : option jsstring;
  d_website : option jsstring;
  d_location : option jsstring;
  d_raw_text : option jsstring;
  d_source : option Source;
  d_confidence : option float;
  d_user_id : option jsstring;
  d_created_at : option jsstring
}.

(** [keyof ContactData] *)
Inductive Field : Type :=
| F_id | F_name | F_phone | F_email | F_company | F_job_title
| F_website | F_location | F_raw_text.

Definition getField (field : Field) (d : ContactData) : option jsstring :=
  match field with
  | F_id => d_id d
  | F_name => d_name d
  | F_phone => d_phone d
  | F_email => d_email d
  | F_company => d_company d
  | F_job_title => d_job_title d
  | F_website => d_website d
  | F_location => d_location d
  | F_raw_text => d_raw_text d
  end.

(** [setFormData(prev => ({ ...prev, [field]: value }))] *)
Definition handleInputChange (field : Field) (value : jsstring) (prev : ContactData)
  : ContactData :=
  {| d_id := match field with F_id => Some value | _ => d_id prev end;
     d_name := match field with F_name => Some value | _ => d_name prev end;
     d_phone := match field with F_phone => Some value | _ => d_phone prev end;
     d_email := match field with F_email => Some value | _ => d_email prev end;
     d_company := match field with F_company => Some value | _ => d_company prev end;
     d_job_title := match field with F_job_title => Some value | _ => d_job_title prev end;
     d_website := match field with F_website => Some value | _ => d_website prev end;
     d_location := match field with F_location => Some value | _ => d_location prev end;
     d_raw_text := match field with F_raw_text => Some value | _ => d_raw_text prev end;
     d_source := d_source prev;
     d_confidence := d_confidence prev;
     d_user_id := d_user_id prev;
     d_created_at := d_created_at prev |}.

(** The inputs of the form: the fields the user can change. *)
Definition formInputs : list Field :=
  [F_name; F_email; F_phone; F_company; F_job_title; F_website; F_location].

Definition field_eqb (a b : Field) : bool :=
  match a, b with
  | F_id, F_id | F_name, F_name | F_phone, F_phone | F_email, F_email
  | F_company, F_company | F_job_title, F_job_title | F_website, F_website
  | F_location, F_location | F_raw_text, F_raw_text => true
  | _, _ => false
  end.

(** What the user typed, oldest first. *)
Definition typed (edits : list (Field * jsstring)) (formData : ContactData) : ContactData :=
  fold_left (fun d e => handleInputChange (fst e) (snd e) d) edits formData.

(** The last value typed into a field, if any. *)
Definition lastTyped (field : Field) (edits : list (Field * jsstring)) : option jsstring :=
  option_map snd (find (fun e => field_eqb (fst e) field) (rev edits)).

(** The object a scan hands to the form through the page. *)
Definition ofScanned (data : ScannedData) : ContactData :=
  {| d_id := None;
     d_name := name data;
     d_phone := phone data;
     d_email := email data;
     d_company := company data;
     d_job_title := job_title data;
     d_website := website data;
     d_location := location data;
     d_raw_text := Some (raw_text data);
     d_source := Some (source data);
     d_confidence := confidence data;
     d_user_id := None;
     d_created_at := None |}.

(** [{ ...formData, user_id: user.id }] *)
Definition withUser (userId : jsstring) (formData : ContactData) : ContactData :=
  {| d_id := d_id formData;
     d_name := d_name formData;
     d_phone := d_phone formData;
     d_email := d_email formData;
     d_company := d_company formData;
     d_job_title := d_job_title formData;
     d_website := d_website formData;
     d_location := d_location formData;
     d_raw_text := d_raw_text formData;
     d_source := d_source formData;
     d_confidence := d_confidence formData;
     d_user_id := Some userId;
     d_created_at := d_created_at formData |}.

Inductive FormEvent : Type :=
| SetSaving (b : bool)
| DbUpdate (id : jsstring) (row : ContactData)
| DbInsert (row : ContactData)
| ToastSaved (updated : bool)
| ToastSaveError
| OnSave.

(** [handleSave]: [user] is the id of the signed-in user, and [dbFailed] says
    that the call to the table gave an error or threw. *)
Definition handleSave (user : option jsstring) (formData : ContactData) (dbFailed : bool)
  : list FormEvent :=
  match user with
  | None => []
  | Some userId =>
    let contactData := withUser userId formData in
    [SetSaving true] ++
    [match d_id formData with
     | Some id => if truthy_str id then DbUpdate id contactData else DbInsert contactData
     | None => DbInsert contactData
     end] ++
    (if dbFailed then [ToastSaveError]
     else [ToastSaved (truthy_opt (d_id formData)); OnSave]) ++
    [SetSaving false]
  end.

Definition isDbCall (ev : FormEvent) : bool :=
  match ev with
  | DbUpdate _ _ | DbInsert _ => true
  | _ => false
  end.

Definition rowOf (ev : FormEvent) : option ContactData :=
  match ev with
  | DbUpdate _ row | DbInsert row => Some row
  | _ => None
  end.

(** ** The page *)

Record IndexState : Type := {
  showScanner : bool;
  showContactForm : bool;
  scannedData : option ScannedData;
  refreshTrigger : nat
}.

Definition indexStart : IndexState :=
  {| showScanner := false; showContactForm := false; scannedData := None;
     refreshTrigger := 0 |}.

(** The handlers of the page: the scan button, the scanner's [onClose] and
    [onScanComplete], the form's [onSave] and [onClose]. *)
Inductive IndexAction : Type :=
| ClickScan
| ScannerClosed
| ScanCompleted (data : ScannedData)
| ContactSaved
| FormClosed.

Definition indexStep (s : IndexState) (a : IndexAction) : IndexState :=
  match a with
  | ClickScan =>
    {| showScanner := true; showContactForm := showContactForm s;
       scannedData := scannedData s; refreshTrigger := refreshTrigger s |}
  | ScannerClosed =>
    {| showScanner := false; showContactForm := showContactForm s;
       scannedData := scannedData s; refreshTrigger := refreshTrigger s |}
  | ScanCompleted data =>
    {| showScanner := false; showContactForm := true;
       scannedData := Some data; refreshTrigger := refreshTrigger s |}
  | ContactSaved =>
    {| showScanner := showScanner s; showContactForm := false;
       scannedData := None; refreshTrigger := refreshTrigger s + 1 |}
  | FormClosed =>
    {| showScanner := showScanner s; showContactForm := false;
       scannedData := None; refreshTrigger := refreshTrigger s |}
  end.

Definition indexAfter (l : list IndexAction) : IndexState := fold_left indexStep l indexStart.

Definition isSaved (a : IndexAction) : bool :=
  match a with
  | ContactSaved => true
  | _ => false
  end.

(** The data of the last scan that was neither saved nor dismissed since. *)
Fixpoint pendingScan (l : list IndexAction) (acc : option ScannedData) : option ScannedData :=
  match l with
  | [] => acc
  | ScanCompleted data :: l' => pendingScan l' (Some data)
  | ContactSaved :: l' | FormClosed :: l' => pendingScan l' None
  | _ :: l' => pendingScan l' acc
  end.

(** ** The export *)

(** A row of the sheet. *)
Record ExportRow : Type := {
  x_name : jsstring;
  x_email : jsstring;
  x_phone : jsstring;
  x_company : jsstring;
  x_job_title : jsstring;
  x_website : jsstring;
  x_location : jsstring;
  x_date_added : jsstring
}.

(** The callback of [contacts.map]; [dateText] is
    [new Date(s).toLocaleDateString()], which depends on the locale. *)
Definition exportRow (dateText : jsstring -> jsstring) (contact : Contact) : ExportRow :=
  {| x_name := str_or (c_name contact) [];
     x_email := str_or (c_email contact) [];
     x_phone := str_or (c_phone contact) [];
     x_company := str_or (c_company contact) [];
     x_job_title := str_or (c_job_title contact) [];
     x_website := str_or (c_website contact) [];
     x_location := str_or (c_location contact) [];
     x_date_added := dateText (c_created_at contact) |}.

Inductive ExportEvent : Type :=
| SetExporting (b : bool)
| ToastNoData
| WriteFile (rows : list ExportRow) (filename : jsstring)
| ToastExported (n : nat) (filename : jsstring)
| ToastExportFailed.

(** [`BuzzCon-Contacts-${today}.xlsx`], where [today] is what stands before
    the first "T" of [new Date().toISOString()]. *)
Definition exportFilename (nowIso : jsstring) : jsstring :=
  str "BuzzCon-Contacts-" ++ before "T" nowIso ++ str ".xlsx".

(** [exportToExcel]: [fetched] is what the query gives ([Threw] when it gives
    an error or throws, [None] for null data), and [writeFails] says that the
    building or the writing of the workbook throws. *)
Definition exportToExcel (user : option jsstring)
           (fetched : outcome (option (list Contact)))
           (dateText : jsstring -> jsstring) (nowIso : jsstring) (writeFails : bool)
  : list ExportEvent :=
  match user with
  | None => []
  | Some _ =>
    [SetExporting true] ++
    match fetched with
    | Threw _ => [ToastExportFailed]
    | Returned None | Returned (Some []) => [ToastNoData]
    | Returned (Some contacts) =>
      if writeFails then [ToastExportFailed]
      else [WriteFile (map (exportRow dateText) contacts) (exportFilename nowIso);
            ToastExported (length contacts) (exportFilename nowIso)]
    end ++
    [SetExporting false]
  end.

(** The file an export writes, if it writes one. *)
Fixpoint written (l : list ExportEvent) : option (list ExportRow) :=
  match l with
  | [] => None
  | WriteFile rows _ :: _ => Some rows
  | _ :: l' => written l'
  end.

(** The form as a scan of the card with every field fills it. *)
Definition janeForm : ContactData :=
  ofScanned (extractContactInfo upload janeCard (Some 0.8%float)).

(** ** The normalized text *)

(** White space stands in [s] only as single blanks: every white-space
    character is a blank, and no two stand side by side ([prev] says that
    white space stands just before [s]). *)
Fixpoint spaced (prev : bool) (s : jsstring) : bool :=
  match s with
  | [] => true
  | c :: s' =>
    if is_space c then (c =? " ")%char && negb prev && spaced true s'
    else spaced false s'
  end.

(** ** The phone of a line *)

Definition phoneLine : jsstring := str "+1 (415) 555-0132".

(** An input that holds the line gives its number. *)
Definition phoneOfLine (text : jsstring) : Prop :=
  In phoneLine (linesOf text) ->
  phone (extractContactInfo camera text None) = Some (str "+14155550132").

(** No match of the phone pattern starts before index [d] of the normalized text. *)
Definition phoneFreeBefore (text : jsstring) (d : nat) : bool :=
  forallb (fun q =>
             match exec false phoneRegex q (skipn q (cleanText text)) with
             | Some _ => false
             | None => true
             end) (seq 0 d).

(** ** A remote success to compare a fallback with *)

(** The provider reads what the local engine of [envFailingRemote] reads,
    with the same confidence. *)
Definition envRemoteSucceeds : Env :=
  {| capturedImage := Some (str "data:image/jpeg;base64,AAAA");
     uploadSource := upload;
     invoke := fun _ =>
       Returned (Some {| success := true;
                         text := card ["Jane Doe"; "jane@acme.com"]%string;
                         v_confidence := Some (87 / 100)%float;
                         error := None |});
     recognize := fun _ _ => Threw OtherValue |}.

(** ** The classifier, with what can throw

    Two kinds of values can be missing in [extractContactInfo]: [match] gives
    [null] when nothing matches, and [find] gives [undefined] when no line
    answers.  A member access on a missing value throws a TypeError, and
    [?.] gives [undefined] in its place.  Here the function is written out
    once more, every access to a value that can be missing as the source has
    it, with throwing as an outcome. *)

Definition typeError : Thrown :=
  ErrorObj (str "Cannot read properties of null or undefined").

Definition andThen {A B} (m : outcome A) (f : A -> outcome B) : outcome B :=
  match m with
  | Returned a => f a
  | Threw e => Threw e
  end.

(** [o.m(...)]: it throws when [o] is missing. *)
Definition member {A B} (o : option A) (m : A -> outcome B) : outcome B :=
  match o with
  | Some a => m a
  | None => Threw typeError
  end.

(** [o?.m(...)]: [undefined] when [o] is missing. *)
Definition member_opt {A B} (o : option A) (m : A -> outcome B) : outcome (option B) :=
  match o with
  | Some a => andThen (m a) (fun b => Returned (Some b))
  | None => Returned None
  end.

(** Whether [undefined] or a boolean is truthy. *)
Definition truthy_bool (o : option bool) : bool :=
  match o with
  | Some b => b
  | None => false
  end.

(** [arr.some(cb)] and [arr.find(cb)] with a callback that may throw. *)
Fixpoint some_js {A} (cb : A -> outcome bool) (l : list A) : outcome bool :=
  match l with
  | [] => Returned false
  | x :: l' => andThen (cb x) (fun b => if b then Returned true else some_js cb l')
  end.

Fixpoint find_from_js {A} (cb : A -> nat -> outcome bool) (i : nat) (l : list A)
  : outcome (option A) :=
  match l with
  | [] => Returned None
  | x :: l' =>
    andThen (cb x i) (fun b => if b then Returned (Some x) else find_from_js cb (S i) l')
  end.

(** [arr?.[0]]: the first element, [undefined] for an empty or a missing array. *)
Definition first_js {A} (arr : option (list A)) : outcome (option A) :=
  andThen (member_opt arr (fun l => Returned (hd_error l)))
          (fun o => Returned (match o with Some x => x | None => None end)).

Section CandidatesThrowing.
Variables emails phones websites : option (list jsstring).

(** [emails?.some(email => lowered.includes(email.toLowerCase()))] *)
Definition someEmailIn (lowered : jsstring) : outcome (option bool) :=
  member_opt emails
    (some_js (fun email => Returned (includes lowered (toLowerCase email)))).

(** [phones?.some(phone => trimmed.includes(phone.replace(/\D/g, '')))] *)
Definition somePhoneIn (trimmed : jsstring) : outcome (option bool) :=
  member_opt phones
    (some_js (fun phone => Returned (includes trimmed (digitsOf phone)))).

(** [websites?.some(website => lowered.includes(website.toLowerCase()))] *)
Definition someWebsiteIn (lowered : jsstring) : outcome (option bool) :=
  member_opt websites
    (some_js (fun website => Returned (includes lowered (toLowerCase website)))).

Definition isNameLine_js (line : jsstring) (index : nat) : outcome bool :=
  let trimmed := trim line in
  if (3 <? index)%nat then Returned false
  else
    let isValidName := test false nameRegex trimmed in
    let hasNoNumbers := negb (test false anyDigit trimmed) in
    andThen (someEmailIn (toLowerCase trimmed)) (fun e =>
    let hasNoEmail := negb (truthy_bool e) in
    andThen (somePhoneIn trimmed) (fun p =>
    let hasNoPhone := negb (truthy_bool p) in
    andThen (someWebsiteIn (toLowerCase trimmed)) (fun w =>
    let hasNoWebsite := negb (truthy_bool w) in
    Returned (isValidName && hasNoNumbers && hasNoEmail && hasNoPhone && hasNoWebsite)))).

Definition isCompanyLine_js (nameCandidate : option jsstring)
           (line : jsstring) (index : nat) : outcome bool :=
  let trimmed := toLowerCase (trim line) in
  if isCandidate nameCandidate line then Returned false
  else
    andThen (someEmailIn trimmed) (fun e =>
    if truthy_bool e then Returned false
    else
      andThen (somePhoneIn trimmed) (fun p =>
      if truthy_bool p then Returned false
      else Returned (hasCompanyKeyword trimmed || (isProperCase line && (index <? 5)%nat)))).

Definition isAddressLine_js (line : jsstring) (index : nat) : outcome bool :=
  let trimmed := trim line in
  andThen (someEmailIn (toLowerCase trimmed)) (fun e =>
  if truthy_bool e then Returned false
  else
    andThen (somePhoneIn trimmed) (fun p =>
    if truthy_bool p then Returned false
    else Returned (looksLikeAddress trimmed))).
End CandidatesThrowing.

Definition extractContactInfo_js (uploadSource : Source)
           (text : jsstring) (confidence : option float) : outcome ScannedData :=
  let lines := linesOf text in
  let emails := emailsOf text in
  let phones := phonesOf text in
  let websites := websitesOf text in
  andThen (find_from_js (isNameLine_js emails phones websites) 0 lines)
    (fun nameCandidate =>
  andThen (find_from_js (isCompanyLine_js emails phones nameCandidate) 0 lines)
    (fun companyCandidate =>
  andThen (find_from_js
             (fun line index =>
                Returned (isJobTitleLine nameCandidate companyCandidate line index))
             0 lines)
    (fun jobTitleCandidate =>
  andThen (find_from_js (isAddressLine_js emails phones) 0 lines)
    (fun addressCandidate =>
  andThen (andThen (first_js phones)
             (fun p => member_opt p (fun s => Returned (replace_g false notDigitPlus [] s))))
    (fun cleanPhone =>
  andThen (member_opt nameCandidate (fun s => Returned (trim s))) (fun name_ =>
  andThen (andThen (first_js emails)
             (fun e => member_opt e (fun s => Returned (toLowerCase s))))
    (fun email_ =>
  andThen (andThen (first_js websites)
             (fun w => member_opt w (fun s => Returned (replace_first false schemePrefix [] s))))
    (fun website_ =>
  andThen (member_opt companyCandidate (fun s => Returned (trim s))) (fun company_ =>
  andThen (member_opt jobTitleCandidate (fun s => Returned (trim s))) (fun job_title_ =>
  andThen (member_opt addressCandidate (fun s => Returned (trim s))) (fun location_ =>
  Returned {| name := name_;
              email := email_;
              phone := cleanPhone;
              website := website_;
              company := company_;
              job_title := job_title_;
              location := location_;
              raw_text := text;
              source := uploadSource;
              confidence := confidence |}))))))))))).

(** ** The matcher against what a pattern describes *)

Lemma app_same_length {A} : forall (w w1 rest rest1 : list A),
  w ++ rest = w1 ++ rest1 -> length w = length w1 -> w = w1 /\ rest = rest1.
Proof.
  induction w as [|c w IH]; intros [|c1 w1] rest rest1 Heq Hlen;
    simpl in *; try discriminate; auto.
  injection Heq as <- Heq. injection Hlen as Hlen.
  destruct (IH _ _ _ Heq Hlen) as [-> ->]. auto.
Qed.

Section MatcherFacts.
Variable ic : bool.
Variable R : Type.
Implicit Types (k : cont R) (s w rest : jsstring).

Lemma rep_sound a : forall s lo hi i k x,
  rep ic a lo hi i s k = Some x ->
  exists w rest, s = w ++ rest /\
    Forall (fun c => atom_has ic a c = true) w /\
    lo <= length w /\ within hi (length w) /\
    k (i + length w) rest = Some x.
Proof.
  assert (Hstop : forall s lo hi i k x,
    match lo with 0 => k i s | S _ => None end = Some x ->
    within hi 0 ->
    exists w rest, s = w ++ rest /\
      Forall (fun c => atom_has ic a c = true) w /\
      lo <= length w /\ within hi (length w) /\
      k (i + length w) rest = Some x).
  { intros s lo hi i k x H Hw. destruct lo; [|discriminate].
    exists [], s. simpl. rewrite Nat.add_0_r. auto. }
  assert (Hw0 : forall hi, within hi 0) by (intros [h|]; simpl; lia).
  induction s as [|c s IH]; intros lo hi i k x H.
  - simpl in H. destruct hi as [[|h]|]; eauto.
  - simpl in H. destruct hi as [[|h]|]; eauto.
    + destruct (atom_has ic a c) eqn:Hc; eauto.
      destruct (rep ic a (pred lo) (dec_bound (Some (S h))) (S i) s k) eqn:E; eauto.
      injection H as <-. apply IH in E.
      destruct E as (w & rest & -> & Hall & Hlo & Hhi & Hk).
      exists (c :: w), rest. simpl in *. rewrite Nat.add_succ_r.
      repeat split; auto; lia.
    + destruct (atom_has ic a c) eqn:Hc; eauto.
      destruct (rep ic a (pred lo) (dec_bound None) (S i) s k) eqn:E; eauto.
      injection H as <-. apply IH in E.
      destruct E as (w & rest & -> & Hall & Hlo & Hhi & Hk).
      exists (c :: w), rest. simpl in *. rewrite Nat.add_succ_r.
      repeat split; auto; lia.
Qed.

Lemma rep_complete a : forall w rest lo hi i k x,
  Forall (fun c => atom_has ic a c = true) w ->
  lo <= length w -> within hi (length w) ->
  k (i + length w) rest = Some x ->
  exists y, rep ic a lo hi i (w ++ rest) k = Some y.
Proof.
  induction w as [|c w IH]; intros rest lo hi i k x Hall Hlo Hhi Hk.
  - simpl in *. rewrite Nat.add_0_r in Hk.
    assert (lo = 0) by lia. subst lo.
    destruct rest as [|c s]; simpl.
    + destruct hi as [[|h]|]; eauto.
    + destruct hi as [[|h]|]; eauto;
        destruct (atom_has ic a c); eauto;
        match goal with |- context [rep ?ic ?a ?l ?h ?i ?s ?k] =>
          destruct (rep ic a l h i s k) end; eauto.
  - inversion Hall as [|? ? Hc Hall']; subst.
    simpl in Hlo, Hhi, Hk. rewrite Nat.add_succ_r in Hk.
    assert (Hrec : exists y, rep ic a (pred lo) (dec_bound hi) (S i) (w ++ rest) k = Some y).
    { apply IH with (x := x); auto; try lia.
      destruct hi as [h|]; simpl in *; lia. }
    destruct Hrec as [y Hy].
    simpl. destruct hi as [[|h]|]; simpl in *; try lia;
      rewrite Hc, Hy; eauto.
Qed.

Lemma rep_none_blocks a w rest lo hi i k :
  rep ic a lo hi (S i) (w ++ rest) k = None ->
  Forall (fun c => atom_has ic a c = true) w ->
  lo <= length w -> within hi (length w) ->
  k (i + S (length w)) rest <> None -> False.
Proof.
  intros E Hall Hlo Hhi Hk.
  destruct (k (i + S (length w)) rest) as [r|] eqn:Ek; [|congruence].
  rewrite Nat.add_succ_r in Ek.
  destruct (@rep_complete a w rest lo hi (S i) k r) as [y Hy]; auto.
  congruence.
Qed.

(** The greedy quantifier takes the longest run that lets the rest go
    through: every longer run the bounds allow leads [k] nowhere. *)
Lemma rep_greedy a : forall s lo hi i k x,
  rep ic a lo hi i s k = Some x ->
  exists w rest, s = w ++ rest /\
    Forall (fun c => atom_has ic a c = true) w /\
    lo <= length w /\ within hi (length w) /\
    k (i + length w) rest = Some x /\
    forall w' rest', s = w' ++ rest' -> length w < length w' ->
      Forall (fun c => atom_has ic a c = true) w' -> within hi (length w') ->
      k (i + length w') rest' = None.
Proof.
  assert (Hstop : forall s lo hi i k x,
    match lo with 0 => k i s | S _ => None end = Some x ->
    (forall w' rest', s = w' ++ rest' -> 0 < length w' ->
       Forall (fun c => atom_has ic a c = true) w' -> within hi (length w') ->
       k (i + length w') rest' = None) ->
    exists w rest, s = w ++ rest /\
      Forall (fun c => atom_has ic a c = true) w /\
      lo <= length w /\ within hi (length w) /\
      k (i + length w) rest = Some x /\
      forall w' rest', s = w' ++ rest' -> length w < length w' ->
        Forall (fun c => atom_has ic a c = true) w' -> within hi (length w') ->
        k (i + length w') rest' = None).
  { intros s lo hi i k x H Hmax. destruct lo; [|discriminate].
    exists [], s. simpl. rewrite Nat.add_0_r.
    repeat split; auto. destruct hi; simpl; auto; lia. }
  induction s as [|c s IH]; intros lo hi i k x H.
  - apply Hstop.
    + simpl in H. destruct hi as [[|h]|]; exact H.
    + intros w' rest' Heq Hlen. symmetry in Heq. apply app_eq_nil in Heq.
      destruct Heq as [-> _]. simpl in Hlen. lia.
  - simpl in H. destruct hi as [[|h]|].
    + apply Hstop; auto. intros w' rest' _ Hlen _ Hw. simpl in Hw. lia.
    + destruct (atom_has ic a c) eqn:Hc.
      * destruct (rep ic a (pred lo) (dec_bound (Some (S h))) (S i) s k) eqn:E.
        -- injection H as <-. apply IH in E.
           destruct E as (w & rest & -> & Hall & Hlo & Hhi & Hk & Hmax).
           exists (c :: w), rest. simpl in *. rewrite Nat.add_succ_r.
           repeat split; auto; try lia.
           intros w' rest' Heq Hlen Hall' Hhi'.
           destruct w' as [|c' w']; simpl in *; [lia|].
           injection Heq as <- Heq. inversion Hall'; subst.
           rewrite Nat.add_succ_r. apply Hmax; auto; lia.
        -- apply Hstop; auto. intros w' rest' Heq Hlen Hall' Hhi'.
           destruct w' as [|c' w']; simpl in *; [lia|].
           injection Heq as <- Heq. inversion Hall'; subst.
           destruct (k (i + S (length w')) rest') eqn:Ek; auto.
           exfalso. eapply (@rep_none_blocks a w' rest' (pred lo) (Some h) i k); eauto.
           ++ destruct lo; [simpl; lia|discriminate].
           ++ simpl. lia.
           ++ rewrite Ek. discriminate.
      * apply Hstop; auto. intros w' rest' Heq Hlen Hall' _.
        destruct w' as [|c' w']; simpl in *; [lia|].
        injection Heq as <- Heq. inversion Hall'; subst. congruence.
    + destruct (atom_has ic a c) eqn:Hc.
      * destruct (rep ic a (pred lo) (dec_bound None) (S i) s k) eqn:E.
        -- injection H as <-. apply IH in E.
           destruct E as (w & rest & -> & Hall & Hlo & Hhi & Hk & Hmax).
           exists (c :: w), rest. simpl in *. rewrite Nat.add_succ_r.
           repeat split; auto; try lia.
           intros w' rest' Heq Hlen Hall' Hhi'.
           destruct w' as [|c' w']; simpl in *; [lia|].
           injection Heq as <- Heq. inversion Hall'; subst.
           rewrite Nat.add_succ_r. apply Hmax; auto; lia.
        -- apply Hstop; auto. intros w' rest' Heq Hlen Hall' Hhi'.
           destruct w' as [|c' w']; simpl in *; [lia|].
           injection Heq as <- Heq. inversion Hall'; subst.
           destruct (k (i + S (length w')) rest') eqn:Ek; auto.
           exfalso. eapply (@rep_none_blocks a w' rest' (pred lo) None i k); eauto.
           ++ destruct lo; [simpl; lia|discriminate].
           ++ rewrite Ek. discriminate.
      * apply Hstop; auto. intros w' rest' Heq Hlen Hall' _.
        destruct w' as [|c' w']; simpl in *; [lia|].
        injection Heq as <- Heq. inversion Hall'; subst. congruence.
Qed.

(** A run that lets the rest go through, when no longer one does, is the
    one the quantifier takes. *)
Lemma rep_first a w rest lo hi i k x :
  Forall (fun c => atom_has ic a c = true) w ->
  lo <= length w -> within hi (length w) ->
  k (i + length w) rest = Some x ->
  (forall w' rest', w ++ rest = w' ++ rest' -> length w < length w' ->
     Forall (fun c => atom_has ic a c = true) w' -> within hi (length w') ->
     k (i + length w') rest' = None) ->
  rep ic a lo hi i (w ++ rest) k = Some x.
Proof.
  intros Hall Hlo Hhi Hk Hmax.
  destruct (@rep_complete a w rest lo hi i k x Hall Hlo Hhi Hk) as [y Hy].
  rewrite Hy. f_equal.
  apply rep_greedy in Hy.
  destruct Hy as (w1 & rest1 & Heq & Hall1 & Hlo1 & Hhi1 & Hk1 & Hmax1).
  destruct (Nat.lt_trichotomy (length w) (length w1)) as [Hlt|[Heql|Hgt]].
  - rewrite (Hmax w1 rest1 Heq Hlt Hall1 Hhi1) in Hk1. discriminate.
  - destruct (app_same_length _ _ _ _ Heq Heql) as [<- <-]. congruence.
  - rewrite (Hmax1 w rest eq_refl Hgt Hall Hhi) in Hk. discriminate.
Qed.
End MatcherFacts.

Section RunFacts.
Variable ic : bool.

Lemma run_sound (R : Type) : forall r i s (k : cont R) x,
  run ic r i s k = Some x ->
  exists w rest, s = w ++ rest /\ matches ic r i w rest /\
    k (i + length w) rest = Some x.
Proof.
  induction r as [| | |a|a lo hi|r IH|r1 IH1 r2 IH2|r1 IH1 r2 IH2];
    intros i s k x H; simpl in H.
  - exists [], s. rewrite Nat.add_0_r. repeat split; auto. constructor.
  - destruct (Nat.eqb_spec i 0); [subst|discriminate].
    exists [], s. repeat split; auto. constructor.
  - destruct s; [|discriminate].
    exists [], []. rewrite Nat.add_0_r. repeat split; auto. constructor.
  - destruct s as [|c s]; [discriminate|].
    destruct (atom_has ic a c) eqn:Hc; [|discriminate].
    exists [c], s. simpl. rewrite Nat.add_1_r. repeat split; auto.
    constructor; auto.
  - apply rep_sound in H. destruct H as (w & rest & -> & Hall & Hlo & Hhi & Hk).
    exists w, rest. repeat split; auto. constructor; auto.
  - destruct (run ic r i s (fun j s' => if (j =? i)%nat then None else k j s')) eqn:E.
    + injection H as <-. apply IH in E.
      destruct E as (w & rest & -> & Hm & Hk).
      destruct (Nat.eqb_spec (i + length w) i); [discriminate|].
      exists w, rest. repeat split; auto. apply M_OptTake; auto.
    + exists [], s. rewrite Nat.add_0_r. repeat split; auto. apply M_OptSkip.
  - apply IH1 in H. destruct H as (w1 & rest1 & -> & Hm1 & H).
    apply IH2 in H. destruct H as (w2 & rest & -> & Hm2 & Hk).
    exists (w1 ++ w2), rest. rewrite <- app_assoc, length_app, Nat.add_assoc.
    repeat split; auto. constructor; auto.
  - destruct (run ic r1 i s k) eqn:E.
    + injection H as <-. apply IH1 in E.
      destruct E as (w & rest & -> & Hm & Hk).
      exists w, rest. repeat split; auto. apply M_AltL; auto.
    + apply IH2 in H. destruct H as (w & rest & -> & Hm & Hk).
      exists w, rest. repeat split; auto. apply M_AltR; auto.
Qed.

Lemma run_complete (R : Type) : forall r i w rest,
  matches ic r i w rest ->
  forall (k : cont R) x, k (i + length w) rest = Some x ->
  exists y, run ic r i (w ++ rest) k = Some y.
Proof.
  induction 1; intros k x Hk; simpl in *;
    try rewrite Nat.add_0_r in Hk; eauto.
  - rewrite H. rewrite Nat.add_1_r in Hk. eauto.
  - eapply rep_complete; eauto.
  - match goal with |- context [run ?a ?b ?c ?d ?e] => destruct (run a b c d e) end; eauto.
  - destruct w as [|c w].
    + simpl in *. rewrite Nat.add_0_r in Hk.
      match goal with |- context [run ?a ?b ?c ?d ?e] => destruct (run a b c d e) end; eauto.
    + destruct (IHmatches (fun j s' => if (j =? i)%nat then None else k j s') x) as [y Hy].
      { destruct (Nat.eqb_spec (i + length (c :: w)) i); auto. simpl in *; lia. }
      rewrite Hy. eauto.
  - rewrite length_app, Nat.add_assoc in Hk.
    destruct (IHmatches2 k x Hk) as [y Hy].
    rewrite <- app_assoc.
    eapply IHmatches1. simpl. exact Hy.
  - destruct (IHmatches k x Hk) as [y Hy]. rewrite Hy. eauto.
  - match goal with |- context [match run ?a ?b ?c ?d ?e with _ => _ end] =>
      destruct (run a b c d e) end; eauto.
Qed.
End RunFacts.

Section SearchFacts.
Variable ic : bool.
Variable r : regex.

Lemma exec_sound i s e :
  exec ic r i s = Some e ->
  exists w rest, s = w ++ rest /\ matches ic r i w rest /\ e = i + length w.
Proof.
  unfold exec. intros H. apply run_sound in H.
  destruct H as (w & rest & -> & Hm & Hk). injection Hk as <-. eauto.
Qed.

Lemma exec_complete i w rest :
  matches ic r i w rest -> exists e, exec ic r i (w ++ rest) = Some e.
Proof.
  intros H. unfold exec.
  eapply run_complete with (k := fun j _ => Some j) in H; eauto.
Qed.

Lemma search_found : forall s i b e,
  search ic r i s = Some (b, e) ->
  exists pre rest, s = pre ++ rest /\ b = i + length pre /\
    exec ic r b rest = Some e /\
    forall pre' rest', s = pre' ++ rest' -> length pre' < length pre ->
      exec ic r (i + length pre') rest' = None.
Proof.
  induction s as [|c s IH]; intros i b e H; simpl in H.
  - destruct (exec ic r i []) eqn:E; [|discriminate].
    injection H as <- <-. exists [], []. simpl. rewrite Nat.add_0_r.
    repeat split; auto. intros; lia.
  - destruct (exec ic r i (c :: s)) eqn:E.
    + injection H as <- <-. exists [], (c :: s). simpl. rewrite Nat.add_0_r.
      repeat split; auto. intros; lia.
    + apply IH in H. destruct H as (pre & rest & -> & -> & Hx & Hmin).
      exists (c :: pre), rest. simpl. rewrite Nat.add_succ_r.
      repeat split; auto.
      intros pre' rest' Heq Hlt. destruct pre' as [|c' pre'].
      * simpl in *. subst rest'. rewrite Nat.add_0_r. exact E.
      * simpl in *. injection Heq as <- Heq. rewrite Nat.add_succ_r.
        apply (Hmin pre' rest' Heq). lia.
Qed.

Lemma search_none : forall s i,
  search ic r i s = None ->
  forall pre rest, s = pre ++ rest -> exec ic r (i + length pre) rest = None.
Proof.
  induction s as [|c s IH]; intros i H pre rest Heq; simpl in H.
  - destruct (exec ic r i []) eqn:E; [discriminate|].
    symmetry in Heq. apply app_eq_nil in Heq. destruct Heq as [-> ->].
    simpl. rewrite Nat.add_0_r. exact E.
  - destruct (exec ic r i (c :: s)) eqn:E; [discriminate|].
    destruct pre as [|c' pre]; simpl in *.
    + subst rest. rewrite Nat.add_0_r. exact E.
    + injection Heq as <- Heq. rewrite Nat.add_succ_r.
      exact (IH (S i) H pre rest Heq).
Qed.

Lemma firstMatch_found s m :
  firstMatch ic r s = Some m ->
  exists pre post, matchAt ic r s pre m post /\
    forall pre' m' post', matchAt ic r s pre' m' post' -> length pre <= length pre'.
Proof.
  unfold firstMatch. destruct (search ic r 0 s) as [[b e]|] eqn:E; [|discriminate].
  intros H. injection H as <-.
  apply search_found in E. destruct E as (pre & rest & -> & -> & Hx & Hmin).
  apply exec_sound in Hx. destruct Hx as (w & post & -> & Hm & ->).
  simpl in *. exists pre, post.
  rewrite skipn_app, skipn_all, Nat.sub_diag. simpl.
  replace (length pre + length w - length pre) with (length w) by lia.
  rewrite firstn_app, firstn_all, Nat.sub_diag. simpl. rewrite app_nil_r.
  split; [split; auto|].
  intros pre' m' post' [Heq Hm'].
  destruct (Nat.le_gt_cases (length pre) (length pre')) as [|Hlt]; auto.
  specialize (Hmin pre' (m' ++ post') Heq Hlt).
  apply exec_complete in Hm'. destruct Hm' as [e' He']. simpl in Hmin. congruence.
Qed.

Lemma firstMatch_none s :
  firstMatch ic r s = None ->
  forall pre m post, ~ matchAt ic r s pre m post.
Proof.
  unfold firstMatch. destruct (search ic r 0 s) as [[b e]|] eqn:E; [discriminate|].
  intros _ pre m post [Heq Hm].
  eapply search_none in E; eauto.
  apply exec_complete in Hm. destruct Hm as [e' He']. simpl in E. congruence.
Qed.

Lemma search_ge : forall s i b e, search ic r i s = Some (b, e) -> i <= b.
Proof.
  intros s i b e H. apply search_found in H.
  destruct H as (pre & rest & _ & -> & _). lia.
Qed.

Lemma match_from_head : forall s i,
  hd_error (match_from ic r i s 0) =
  match search ic r i s with
  | Some (b, e) => Some (firstn (e - b) (skipn (b - i) s))
  | None => None
  end.
Proof.
  induction s as [|c s IH]; intros i; simpl.
  - destruct (exec ic r i []); simpl; rewrite ?skipn_nil; auto.
  - destruct (exec ic r i (c :: s)) eqn:E; simpl.
    + rewrite Nat.sub_diag. reflexivity.
    + rewrite IH. destruct (search ic r (S i) s) as [[b e]|] eqn:Es; auto.
      apply search_ge in Es.
      replace (b - i) with (S (b - S i)) by lia. reflexivity.
Qed.

Lemma match_g_first s : opt_first (match_g ic r s) = firstMatch ic r s.
Proof.
  unfold match_g, firstMatch.
  pose proof (match_from_head s 0) as H.
  destruct (match_from ic r 0 s 0) as [|m l]; simpl in *;
    destruct (search ic r 0 s) as [[b e]|]; try discriminate; auto.
  rewrite Nat.sub_0_r in H. exact H.
Qed.

Lemma match_g_none s : match_g ic r s = None <-> firstMatch ic r s = None.
Proof.
  rewrite <- match_g_first. unfold match_g.
  destruct (match_from ic r 0 s 0); simpl; split; auto; discriminate.
Qed.

Lemma test_firstMatch s :
  test ic r s = true <-> exists m, firstMatch ic r s = Some m.
Proof.
  unfold test, firstMatch. destruct (search ic r 0 s) as [[b e]|]; split; eauto.
  - intros; discriminate.
  - intros [m H]; discriminate.
Qed.

Lemma test_true s :
  test ic r s = true -> exists pre m post, matchAt ic r s pre m post.
Proof.
  intros H. apply test_firstMatch in H. destruct H as [m H].
  apply firstMatch_found in H. destruct H as (pre & post & H & _). eauto.
Qed.

Lemma test_false s :
  test ic r s = false -> forall pre m post, ~ matchAt ic r s pre m post.
Proof.
  intros H. apply firstMatch_none.
  destruct (firstMatch ic r s) eqn:E; auto.
  assert (test ic r s = true) by (apply test_firstMatch; eauto). congruence.
Qed.
End SearchFacts.

(** ** Characters and the string built-ins *)

(** A fact about one code unit, settled on each of the 256. *)
Ltac by_ascii c :=
  destruct c as [[] [] [] [] [] [] [] []]; vm_compute; intros;
  first [reflexivity | discriminate | congruence].

Lemma lower_char_not_upper c : is_upper (lower_char c) = false.
Proof. by_ascii c. Qed.

Lemma digit_atom ic c : atom_has ic digit c = is_digit c.
Proof. destruct ic; by_ascii c. Qed.

Lemma in_all_ascii c : In c all_ascii.
Proof.
  unfold all_ascii. rewrite <- (ascii_nat_embedding c).
  apply in_map, in_seq. pose proof (nat_ascii_bounded c). lia.
Qed.

Lemma only_spec P ic a c :
  only P ic a = true -> atom_has ic a c = true -> P c = true.
Proof.
  unfold only. rewrite forallb_forall. intros H Hc.
  specialize (H c (in_all_ascii c)). rewrite Hc in H. exact H.
Qed.

Lemma jseq_refl s : jseq s s = true.
Proof. induction s; simpl; auto. rewrite Ascii.eqb_refl. auto. Qed.

Lemma jseq_eq a : forall b, jseq a b = true -> a = b.
Proof.
  induction a as [|x a IH]; intros [|y b] H; simpl in H; try discriminate; auto.
  apply andb_true_iff in H. destruct H as [Hx H].
  apply Ascii.eqb_eq in Hx. subst. f_equal. auto.
Qed.

Lemma drop_space_keeps (P : ascii -> Prop) s :
  Forall P s -> Forall P (drop_space s).
Proof.
  induction 1 as [|c s Hc Hs IH]; simpl; auto.
  destruct (is_space c); auto.
Qed.

Lemma trim_keeps (P : ascii -> Prop) s : Forall P s -> Forall P (trim s).
Proof.
  intros H. unfold trim.
  apply Forall_rev, drop_space_keeps, Forall_rev, drop_space_keeps, H.
Qed.

Section ReplaceFacts.
Variable ic : bool.

Lemma replace_from_keeps (P : ascii -> Prop) r by_ :
  Forall P by_ ->
  forall s i skip, Forall P s -> Forall P (replace_from ic r by_ i s skip).
Proof.
  intros Hby. induction s as [|c s IH]; intros i skip Hs.
  - destruct skip; simpl; auto.
    destruct (exec ic r i []); auto. rewrite app_nil_r. auto.
  - inversion Hs; subst. destruct skip; simpl; auto.
    destruct (exec ic r i (c :: s)); auto.
    apply Forall_app. split; auto.
    destruct (n =? i)%nat; auto.
Qed.

Lemma replace_g_keeps (P : ascii -> Prop) r by_ s :
  Forall P by_ -> Forall P s -> Forall P (replace_g ic r by_ s).
Proof. intros. apply replace_from_keeps; auto. Qed.

Lemma exec_one a i s :
  exec ic (One a) i s =
  match s with
  | c :: _ => if atom_has ic a c then Some (S i) else None
  | [] => None
  end.
Proof. destruct s; reflexivity. Qed.

(** Replacing one-character matches works character by character. *)
Lemma replace_one a by_ : forall s i,
  replace_from ic (One a) by_ i s 0 =
  flat_map (fun c => if atom_has ic a c then by_ else [c]) s.
Proof.
  induction s as [|c s IH]; intros i.
  - reflexivity.
  - cbn [replace_from flat_map]. rewrite exec_one.
    destruct (atom_has ic a c).
    + replace (S i =? i)%nat with false by (symmetry; apply Nat.eqb_neq; lia).
      replace (S i - i - 1) with 0 by lia. rewrite IH. reflexivity.
    + rewrite IH. reflexivity.
Qed.

Lemma replace_g_one a by_ s :
  replace_g ic (One a) by_ s =
  flat_map (fun c => if atom_has ic a c then by_ else [c]) s.
Proof. apply replace_one. Qed.

End ReplaceFacts.

(** Removing a one-character class with [replace] is a filter. *)
Lemma replace_g_filter ic a s :
  replace_g ic (One a) [] s = filter (fun c => negb (atom_has ic a c)) s.
Proof.
  rewrite replace_g_one. induction s as [|c s IH]; simpl; auto.
  destruct (atom_has ic a c); simpl; rewrite IH; reflexivity.
Qed.

Lemma cleanText_kept text : Forall kept (cleanText text).
Proof.
  unfold cleanText. apply trim_keeps, replace_g_keeps.
  - repeat constructor.
  - rewrite replace_g_one. apply Forall_flat_map, Forall_forall. intros c _.
    destruct (atom_has true (NotIn keptChars) c) eqn:E.
    + repeat constructor.
    + constructor; auto. unfold kept. cbn [atom_has] in E.
      apply negb_false_iff in E. exact E.
Qed.

Lemma test_anyDigit s : test false anyDigit s = existsb is_digit s.
Proof.
  unfold test, anyDigit. generalize 0.
  induction s as [|c s IH]; intros i; simpl.
  - reflexivity.
  - rewrite exec_one, digit_atom. destruct (is_digit c); simpl; auto.
Qed.

(** ** What the matches of a pattern are made of *)

Lemma matches_may_hold ic r i w rest :
  matches ic r i w rest -> Forall (fun c => may_hold ic r c = true) w.
Proof.
  induction 1 as [ | | |a c i rest Hc|a lo hi i w rest Hall Hlo Hhi| |r i w rest Hm IH
                 |r1 r2 i w1 w2 rest Hm1 IH1 Hm2 IH2|r1 r2 i w rest Hm IH|r1 r2 i w rest Hm IH];
    simpl; auto.
  - apply Forall_app. split; eapply Forall_impl; try eassumption;
      simpl; intros c Hc; rewrite Hc; auto using orb_true_r.
  - eapply Forall_impl; [|eassumption]. simpl. intros c Hc. rewrite Hc. auto.
  - eapply Forall_impl; [|eassumption]. simpl. intros c Hc. rewrite Hc.
    auto using orb_true_r.
Qed.

Lemma matches_must_hold P ic r i w rest :
  must_hold P ic r = true ->
  matches ic r i w rest -> Exists (fun c => P c = true) w.
Proof.
  intros Hd Hm. induction Hm; simpl in Hd; try discriminate.
  - constructor. eapply only_spec; eauto.
  - apply andb_true_iff in Hd. destruct Hd as [Hlo Hd].
    destruct lo; [discriminate|]. destruct w as [|c w]; simpl in *; [lia|].
    constructor. inversion H; subst. eapply only_spec; eauto.
  - apply Exists_app. apply orb_true_iff in Hd. tauto.
  - apply andb_true_iff in Hd. tauto.
  - apply andb_true_iff in Hd. tauto.
Qed.

Lemma test_must_hold P ic r s :
  must_hold P ic r = true -> test ic r s = true -> existsb P s = true.
Proof.
  intros Hd Ht. apply test_true in Ht.
  destruct Ht as (pre & m & post & -> & Hm).
  eapply matches_must_hold in Hm; eauto.
  apply existsb_exists. apply Exists_exists in Hm. destruct Hm as (c & Hin & Hc).
  exists c. split; auto. apply in_or_app. right. apply in_or_app. auto.
Qed.

(** ** [find] and the index it stops at *)

Section FindFacts.
Variable A : Type.
Variable f : A -> nat -> bool.

Lemma findIndex_from_found : forall l i j,
  findIndex_from f i l = Some j ->
  exists x, i <= j /\ nth_error l (j - i) = Some x /\ f x j = true /\
    find_from f i l = Some x /\
    forall j' x', i <= j' -> j' < j -> nth_error l (j' - i) = Some x' -> f x' j' = false.
Proof.
  induction l as [|x l IH]; intros i j H; simpl in H; [discriminate|].
  simpl. destruct (f x i) eqn:Hx.
  - injection H as <-. exists x. rewrite Nat.sub_diag. simpl.
    repeat split; auto. intros; lia.
  - apply IH in H. destruct H as (y & Hle & Hn & Hy & Hf & Hmin).
    exists y. replace (j - i) with (S (j - S i)) by lia. simpl.
    repeat split; auto; try lia.
    intros j' x' Hle' Hlt Hn'.
    destruct (Nat.eq_dec j' i) as [->|Hne].
    + rewrite Nat.sub_diag in Hn'. simpl in Hn'. congruence.
    + replace (j' - i) with (S (j' - S i)) in Hn' by lia. simpl in Hn'.
      apply Hmin in Hn'; auto; lia.
Qed.

Lemma findIndex_from_none : forall l i,
  findIndex_from f i l = None ->
  find_from f i l = None /\
  forall j x, nth_error l j = Some x -> f x (i + j) = false.
Proof.
  induction l as [|x l IH]; intros i H; simpl in *.
  - split; auto. intros [|j]; discriminate.
  - destruct (f x i) eqn:Hx; [discriminate|].
    apply IH in H. destruct H as [Hf Hall]. split; auto.
    intros [|j] y Hn; simpl in Hn.
    + injection Hn as <-. rewrite Nat.add_0_r. exact Hx.
    + rewrite Nat.add_succ_r. apply (Hall j y Hn).
Qed.

Lemma findIndex_found l j :
  Array_findIndex f l = Some j ->
  exists x, nth_error l j = Some x /\ f x j = true /\ Array_find f l = Some x /\
    forall j' x', j' < j -> nth_error l j' = Some x' -> f x' j' = false.
Proof.
  intros H. apply findIndex_from_found in H.
  destruct H as (x & _ & Hn & Hx & Hf & Hmin).
  rewrite Nat.sub_0_r in Hn. exists x. repeat split; auto.
  intros j' x' Hlt Hn'. apply Hmin; auto; try lia. rewrite Nat.sub_0_r. exact Hn'.
Qed.

Lemma findIndex_none l :
  Array_findIndex f l = None ->
  Array_find f l = None /\ forall j x, nth_error l j = Some x -> f x j = false.
Proof. intros H. apply findIndex_from_none in H. exact H. Qed.

(** [find] gives the element at the index where it stops. *)
Lemma find_at_index l :
  Array_find f l =
  match Array_findIndex f l with
  | Some j => nth_error l j
  | None => None
  end.
Proof.
  destruct (Array_findIndex f l) as [j|] eqn:E.
  - apply findIndex_found in E. destruct E as (x & Hn & _ & Hf & _). congruence.
  - apply findIndex_none in E. tauto.
Qed.

Lemma find_all_false l :
  (forall x i, In x l -> f x i = false) -> Array_find f l = None.
Proof.
  unfold Array_find. generalize 0.
  induction l as [|x l IH]; intros i H; simpl; auto.
  rewrite H by (left; auto). apply IH. intros; apply H; right; auto.
Qed.

End FindFacts.

Lemma lines_long text j line :
  nth_error (linesOf text) j = Some line -> 1 < length line.
Proof.
  intros H. apply nth_error_In in H. unfold linesOf in H.
  apply filter_In in H. destruct H as [_ H]. apply Nat.ltb_lt in H. exact H.
Qed.

Lemma isCandidate_self line : 1 < length line -> isCandidate (Some line) line = true.
Proof.
  intros H. unfold isCandidate. rewrite jseq_refl.
  destruct line; simpl in *; auto; lia.
Qed.

Lemma companyLine_not_name emails phones cand line i :
  isCompanyLine emails phones cand line i = true -> isCandidate cand line = false.
Proof. unfold isCompanyLine. destruct (isCandidate cand line); auto. Qed.

Lemma jobTitleLine_not_name n c line i :
  isJobTitleLine n c line i = true -> isCandidate n line = false.
Proof. unfold isJobTitleLine. destruct (isCandidate n line); auto. Qed.

Lemma jobTitleLine_not_company n c line i :
  isJobTitleLine n c line i = true -> isCandidate c line = false.
Proof.
  unfold isJobTitleLine. destruct (isCandidate n line); [discriminate|].
  destruct (isCandidate c line); auto.
Qed.

Lemma nameLine_no_digit emails phones websites line i :
  isNameLine emails phones websites line i = true ->
  existsb is_digit (trim line) = false.
Proof.
  unfold isNameLine. destruct (3 <? i)%nat; [discriminate|].
  rewrite test_anyDigit. intros H.
  repeat rewrite andb_true_iff in H. destruct H as ((((_ & H) & _) & _) & _).
  apply negb_true_iff in H. exact H.
Qed.

Lemma looksLikeAddress_digit s :
  looksLikeAddress s = true -> existsb is_digit s = true.
Proof.
  unfold looksLikeAddress. intros H.
  repeat (apply orb_true_iff in H; destruct H as [H|H]);
    eapply test_must_hold; try exact H; vm_compute; reflexivity.
Qed.

Lemma addressLine_digit emails phones line i :
  isAddressLine emails phones line i = true -> existsb is_digit (trim line) = true.
Proof.
  unfold isAddressLine.
  destruct (hasEmailIn emails (toLowerCase (trim line))); [discriminate|].
  destruct (hasPhoneIn phones (trim line)); [discriminate|].
  apply looksLikeAddress_digit.
Qed.

Lemma nameCandidate_at text i :
  nameIndexOf text = Some i ->
  exists line, nth_error (linesOf text) i = Some line /\
    nameCandidateOf text = Some line /\
    isNameLine (emailsOf text) (phonesOf text) (websitesOf text) line i = true.
Proof.
  intros H. apply findIndex_found in H. destruct H as (x & Hn & Hx & Hf & _). eauto.
Qed.

Lemma companyCandidate_at text i :
  companyIndexOf text = Some i ->
  exists line, nth_error (linesOf text) i = Some line /\
    companyCandidateOf text = Some line /\
    isCompanyLine (emailsOf text) (phonesOf text) (nameCandidateOf text) line i = true.
Proof.
  intros H. apply findIndex_found in H. destruct H as (x & Hn & Hx & Hf & _). eauto.
Qed.

Lemma jobTitleCandidate_at text i :
  jobTitleIndexOf text = Some i ->
  exists line, nth_error (linesOf text) i = Some line /\
    jobTitleCandidateOf text = Some line /\
    isJobTitleLine (nameCandidateOf text) (companyCandidateOf text) line i = true.
Proof.
  intros H. apply findIndex_found in H. destruct H as (x & Hn & Hx & Hf & _). eauto.
Qed.

Lemma addressCandidate_at text i :
  addressIndexOf text = Some i ->
  exists line, nth_error (linesOf text) i = Some line /\
    addressCandidateOf text = Some line /\
    isAddressLine (emailsOf text) (phonesOf text) line i = true.
Proof.
  intros H. apply findIndex_found in H. destruct H as (x & Hn & Hx & Hf & _). eauto.
Qed.

Lemma field_at_index (f : jsstring -> nat -> bool) text :
  option_map trim (Array_find f (linesOf text)) =
  lineAt text (Array_findIndex f (linesOf text)).
Proof. rewrite find_at_index. destruct (Array_findIndex f (linesOf text)); auto. Qed.

(** C1 (amended): the four line-level fields are the lines at the indices
    where the four searches stop; the indices of name, company and job title
    are pairwise distinct, and so are those of name and location.  (Location
    may share its line with company or job title.) *)
Theorem line_fields_exclusive (src : Source) (text : jsstring) (conf : option float) :
  let r := extractContactInfo src text conf in
  (name r = lineAt text (nameIndexOf text) /\
   company r = lineAt text (companyIndexOf text) /\
   job_title r = lineAt text (jobTitleIndexOf text) /\
   location r = lineAt text (addressIndexOf text)) /\
  distinctWhenSet (nameIndexOf text) (companyIndexOf text) /\
  distinctWhenSet (nameIndexOf text) (jobTitleIndexOf text) /\
  distinctWhenSet (companyIndexOf text) (jobTitleIndexOf text) /\
  distinctWhenSet (nameIndexOf text) (addressIndexOf text).
Proof.
  cbv zeta. split; [|repeat split].
  - repeat split; apply field_at_index.
  - intros i j Hi Hj ->.
    apply nameCandidate_at in Hi. destruct Hi as (l1 & Hn1 & Hc1 & _).
    apply companyCandidate_at in Hj. destruct Hj as (l2 & Hn2 & _ & Hl2).
    assert (l2 = l1) by congruence. subst l2.
    apply companyLine_not_name in Hl2. rewrite Hc1 in Hl2.
    rewrite isCandidate_self in Hl2; [discriminate|]. eapply lines_long; eauto.
  - intros i j Hi Hj ->.
    apply nameCandidate_at in Hi. destruct Hi as (l1 & Hn1 & Hc1 & _).
    apply jobTitleCandidate_at in Hj. destruct Hj as (l2 & Hn2 & _ & Hl2).
    assert (l2 = l1) by congruence. subst l2.
    apply jobTitleLine_not_name in Hl2. rewrite Hc1 in Hl2.
    rewrite isCandidate_self in Hl2; [discriminate|]. eapply lines_long; eauto.
  - intros i j Hi Hj ->.
    apply companyCandidate_at in Hi. destruct Hi as (l1 & Hn1 & Hc1 & _).
    apply jobTitleCandidate_at in Hj. destruct Hj as (l2 & Hn2 & _ & Hl2).
    assert (l2 = l1) by congruence. subst l2.
    apply jobTitleLine_not_company in Hl2. rewrite Hc1 in Hl2.
    rewrite isCandidate_self in Hl2; [discriminate|]. eapply lines_long; eauto.
  - intros i j Hi Hj ->.
    apply nameCandidate_at in Hi. destruct Hi as (l1 & Hn1 & _ & Hl1).
    apply addressCandidate_at in Hj. destruct Hj as (l2 & Hn2 & _ & Hl2).
    assert (l2 = l1) by congruence. subst l2.
    apply nameLine_no_digit in Hl1. apply addressLine_digit in Hl2. congruence.
Qed.

(** C1 as stated fails: on the one-line card "Acme Solutions, 5 Main Street"
    company and location both come from line 0. *)
Lemma line_exclusive_fails : ~ lineExclusive (card ["Acme Solutions, 5 Main Street"%string]).
Proof.
  intros (_ & _ & _ & _ & H & _).
  apply (H 0 0); vm_compute; reflexivity.
Qed.

(** C2: the record holds the input text as it came, whatever the text. *)
Theorem raw_text_verbatim (src : Source) (text : jsstring) (conf : option float) :
  raw_text (extractContactInfo src text conf) = text.
Proof. reflexivity. Qed.

(** ** Company: keyword and position *)





(** ** The fields of the record *)

Section Fields.
Variables (src : Source) (text : jsstring) (conf : option float).

Lemma email_field :
  email (extractContactInfo src text conf) =
  option_map toLowerCase (firstMatch true emailRegex (cleanText text)).
Proof.
  unfold extractContactInfo. cbn [email]. unfold emailsOf.
  rewrite match_g_first. reflexivity.
Qed.

Lemma phone_field :
  phone (extractContactInfo src text conf) =
  option_map (replace_g false notDigitPlus [])
             (firstMatch false phoneRegex (cleanText text)).
Proof.
  unfold extractContactInfo. cbn [phone]. unfold phonesOf.
  rewrite match_g_first. reflexivity.
Qed.

Lemma website_field :
  website (extractContactInfo src text conf) =
  option_map (replace_first false schemePrefix [])
             (firstMatch true websiteRegex (cleanText text)).
Proof.
  unfold extractContactInfo. cbn [website]. unfold websitesOf.
  rewrite match_g_first. reflexivity.
Qed.

Lemma name_field :
  name (extractContactInfo src text conf) = option_map trim (nameCandidateOf text).
Proof. reflexivity. Qed.

Lemma company_field :
  company (extractContactInfo src text conf) = option_map trim (companyCandidateOf text).
Proof. reflexivity. Qed.

Lemma job_title_field :
  job_title (extractContactInfo src text conf) = option_map trim (jobTitleCandidateOf text).
Proof. reflexivity. Qed.

Lemma location_field :
  location (extractContactInfo src text conf) = option_map trim (addressCandidateOf text).
Proof. reflexivity. Qed.
End Fields.

(** ** Nothing found *)

Lemma nothing_found_unset src text conf :
  nothingFound text -> allUnset (extractContactInfo src text conf).
Proof.
  intros (He & Hp & Hw & Hl). rewrite Forall_forall in Hl.
  unfold allUnset.
  rewrite email_field, phone_field, website_field, name_field, company_field,
    job_title_field, location_field, He, Hp, Hw.
  unfold nameCandidateOf, companyCandidateOf, jobTitleCandidateOf, addressCandidateOf.
  rewrite !find_all_false; [repeat split; reflexivity| | | |]; intros x i Hin;
    destruct (Hl x Hin) as (Hn & Hk & Hpc & Ht & Ha).
  - unfold isAddressLine. rewrite Ha.
    repeat match goal with |- context [if ?b then _ else _] => destruct b end; reflexivity.
  - unfold isJobTitleLine. rewrite Ht.
    repeat match goal with |- context [if ?b then _ else _] => destruct b end; reflexivity.
  - unfold isCompanyLine. rewrite Hk, Hpc.
    repeat match goal with |- context [if ?b then _ else _] => destruct b end; reflexivity.
  - unfold isNameLine. rewrite Hn. destruct (3 <? i)%nat; reflexivity.
Qed.

Lemma nothing_in_empty : nothingFound [].
Proof.
  unfold nothingFound.
  split; [vm_compute; reflexivity|].
  split; [vm_compute; reflexivity|].
  split; [vm_compute; reflexivity|].
  constructor.
Qed.

(** ** The classifier never throws *)

Lemma some_js_returns {A} (f : A -> bool) (l : list A) :
  some_js (fun x => Returned (f x)) l = Returned (existsb f l).
Proof.
  induction l as [|x l IH]; [reflexivity|].
  cbn [some_js andThen existsb]. destruct (f x); [reflexivity|exact IH].
Qed.

(** A guarded [some] gives [undefined] or a boolean, and is truthy exactly
    when the array is there and holds an element that answers. *)
Lemma guarded_some_returns {A} (arr : option (list A)) (f : A -> bool) :
  exists o, member_opt arr (some_js (fun x => Returned (f x))) = Returned o /\
    truthy_bool o = opt_some arr f.
Proof.
  destruct arr as [l|]; cbn [member_opt].
  - rewrite some_js_returns. cbn. eauto.
  - eauto.
Qed.

(** The same access without its guard throws when the array is missing. *)
Lemma unguarded_some_throws {A} (f : A -> bool) :
  member (@None (list A)) (some_js (fun x => Returned (f x))) = Threw typeError.
Proof. reflexivity. Qed.

Lemma find_from_js_returns {A} (cb : A -> nat -> outcome bool) (f : A -> nat -> bool) :
  (forall x i, cb x i = Returned (f x i)) ->
  forall l i, find_from_js cb i l = Returned (find_from f i l).
Proof.
  intros H. induction l as [|x l IH]; intros i; [reflexivity|].
  cbn [find_from_js find_from]. rewrite H. cbn [andThen].
  destruct (f x i); [reflexivity|apply IH].
Qed.

Lemma first_js_returns {A} (arr : option (list A)) :
  first_js arr = Returned (opt_first arr).
Proof. destruct arr as [[|x l]|]; reflexivity. Qed.

Lemma guarded_call_returns {A B} (o : option A) (f : A -> B) :
  member_opt o (fun a => Returned (f a)) = Returned (option_map f o).
Proof. destruct o; reflexivity. Qed.

Section CallbacksReturn.
Variables emails phones websites : option (list jsstring).

Lemma isNameLine_js_returns line index :
  isNameLine_js emails phones websites line index =
  Returned (isNameLine emails phones websites line index).
Proof.
  unfold isNameLine_js, isNameLine, someEmailIn, somePhoneIn, someWebsiteIn.
  destruct (3 <? index)%nat; [reflexivity|].
  destruct (guarded_some_returns emails
              (fun email => includes (toLowerCase (trim line)) (toLowerCase email)))
    as (e & -> & <-).
  destruct (guarded_some_returns phones
              (fun phone => includes (trim line) (digitsOf phone)))
    as (p & -> & <-).
  destruct (guarded_some_returns websites
              (fun website => includes (toLowerCase (trim line)) (toLowerCase website)))
    as (w & -> & <-).
  reflexivity.
Qed.

Lemma isCompanyLine_js_returns cand line index :
  isCompanyLine_js emails phones cand line index =
  Returned (isCompanyLine emails phones cand line index).
Proof.
  unfold isCompanyLine_js, isCompanyLine, someEmailIn, somePhoneIn, hasEmailIn, hasPhoneIn.
  destruct (isCandidate cand line); [reflexivity|].
  destruct (guarded_some_returns emails
              (fun email => includes (toLowerCase (trim line)) (toLowerCase email)))
    as (e & -> & <-).
  cbn [andThen]. destruct (truthy_bool e); [reflexivity|].
  destruct (guarded_some_returns phones
              (fun phone => includes (toLowerCase (trim line)) (digitsOf phone)))
    as (p & -> & <-).
  cbn [andThen]. destruct (truthy_bool p); reflexivity.
Qed.

Lemma isAddressLine_js_returns line index :
  isAddressLine_js emails phones line index =
  Returned (isAddressLine emails phones line index).
Proof.
  unfold isAddressLine_js, isAddressLine, someEmailIn, somePhoneIn, hasEmailIn, hasPhoneIn.
  destruct (guarded_some_returns emails
              (fun email => includes (toLowerCase (trim line)) (toLowerCase email)))
    as (e & -> & <-).
  cbn [andThen]. destruct (truthy_bool e); [reflexivity|].
  destruct (guarded_some_returns phones
              (fun phone => includes (trim line) (digitsOf phone)))
    as (p & -> & <-).
  cbn [andThen]. destruct (truthy_bool p); reflexivity.
Qed.
End CallbacksReturn.

(** Every access to a value that can be missing is guarded: the run with
    throwing as an outcome returns, and what it returns is the record. *)
Lemma extractContactInfo_js_returns src text conf :
  extractContactInfo_js src text conf = Returned (extractContactInfo src text conf).
Proof.
  unfold extractContactInfo_js.
  rewrite (find_from_js_returns _ _ (isNameLine_js_returns _ _ _)).
  cbn [andThen]. fold (Array_find (isNameLine (emailsOf text) (phonesOf text) (websitesOf text))
                                  (linesOf text)).
  fold (nameCandidateOf text).
  rewrite (find_from_js_returns _ _ (isCompanyLine_js_returns _ _ _)).
  cbn [andThen].
  fold (Array_find (isCompanyLine (emailsOf text) (phonesOf text) (nameCandidateOf text))
                   (linesOf text)).
  fold (companyCandidateOf text).
  rewrite (find_from_js_returns _ (isJobTitleLine (nameCandidateOf text)
                                                  (companyCandidateOf text)))
    by reflexivity.
  cbn [andThen].
  fold (Array_find (isJobTitleLine (nameCandidateOf text) (companyCandidateOf text))
                   (linesOf text)).
  fold (jobTitleCandidateOf text).
  rewrite (find_from_js_returns _ _ (isAddressLine_js_returns _ _)).
  cbn [andThen].
  fold (Array_find (isAddressLine (emailsOf text) (phonesOf text)) (linesOf text)).
  fold (addressCandidateOf text).
  rewrite !first_js_returns. cbn [andThen].
  rewrite !guarded_call_returns. cbn [andThen].
  reflexivity.
Qed.

(** C8: the classifier never throws.  Run with throwing as an outcome, where
    an access to a missing [match] or [find] result throws unless it is
    guarded, it returns a record for every text; the record holds the text,
    the source and the confidence as given; and when no pattern and no line
    rule answers (the empty text is such a text) every extracted field is
    unset. *)
Theorem classify_never_fails (src : Source) (text : jsstring) (conf : option float) :
  exists r, extractContactInfo_js src text conf = Returned r /\
    raw_text r = text /\ source r = src /\ confidence r = conf /\
    (nothingFound text -> allUnset r) /\
    (text = [] -> nothingFound text /\ allUnset r).
Proof.
  exists (extractContactInfo src text conf).
  split; [apply extractContactInfo_js_returns|].
  split; [reflexivity|]. split; [reflexivity|]. split; [reflexivity|]. split.
  - apply nothing_found_unset.
  - intros ->. split; [apply nothing_in_empty|].
    apply nothing_found_unset, nothing_in_empty.
Qed.

(** The theorem at work on a line of symbols. *)
Lemma classify_never_fails_witness :
  nothingFound (str "#$%^") /\
  exists r, extractContactInfo_js camera (str "#$%^") None = Returned r /\ allUnset r.
Proof.
  assert (H : nothingFound (str "#$%^")).
  { unfold nothingFound.
    split; [vm_compute; reflexivity|].
    split; [vm_compute; reflexivity|].
    split; [vm_compute; reflexivity|].
    replace (linesOf (str "#$%^")) with [str "#$%^"] by (vm_compute; reflexivity).
    constructor; [|constructor].
    split; [vm_compute; reflexivity|].
    split; [vm_compute; reflexivity|].
    split; [vm_compute; reflexivity|].
    split; vm_compute; reflexivity. }
  split; [exact H|].
  destruct (classify_never_fails camera (str "#$%^") None) as (r & Hr & _ & _ & _ & Hu & _).
  exists r. split; [exact Hr|exact (Hu H)].
Defined.

(** ** Email *)

Lemma toLowerCase_lower s : Forall (fun c => is_upper c = false) (toLowerCase s).
Proof.
  unfold toLowerCase. apply Forall_forall. intros c Hin.
  apply in_map_iff in Hin. destruct Hin as (x & <- & _). apply lower_char_not_upper.
Qed.

(** C5: when the email field is set it is the earliest match of the email
    pattern in the normalized text (no email-shaped substring starts before
    it), converted to lower case; "Contact: JOHN@Example.COM for info" gives
    "john@example.com". *)
Theorem email_lowercased :
  (forall (src : Source) (text : jsstring) (conf : option float) (e : jsstring),
     email (extractContactInfo src text conf) = Some e ->
     exists pre m post,
       opt_first (emailsOf text) = Some m /\
       matchAt true emailRegex (cleanText text) pre m post /\
       (forall pre' m' post',
          matchAt true emailRegex (cleanText text) pre' m' post' ->
          length pre <= length pre') /\
       e = toLowerCase m /\
       Forall (fun c => is_upper c = false) e) /\
  email (extractContactInfo camera (str "Contact: JOHN@Example.COM for info") None)
  = Some (str "john@example.com") /\
  email (extractContactInfo camera
           (card ["Jane Doe"; "Acme Solutions Inc";
                  "Contact: JOHN@Example.COM for info"]%string) None)
  = Some (str "john@example.com").
Proof.
  split; [|split; vm_compute; reflexivity].
  intros src text conf e H. rewrite email_field in H.
  destruct (firstMatch true emailRegex (cleanText text)) as [m|] eqn:E; [|discriminate].
  injection H as <-.
  assert (Hfirst : opt_first (emailsOf text) = Some m).
  { unfold emailsOf. rewrite match_g_first. exact E. }
  apply firstMatch_found in E. destruct E as (pre & post & Hm & Hmin).
  exists pre, m, post.
  split; [exact Hfirst|]. split; [exact Hm|]. split; [exact Hmin|].
  split; [reflexivity|apply toLowerCase_lower].
Qed.

(** The theorem at work on the card of the specification. *)
Lemma email_lowercased_witness :
  exists pre m post,
    opt_first (emailsOf (card ["Jane Doe"; "Acme Solutions Inc"; "jane@acme.com"]%string))
    = Some m /\
    matchAt true emailRegex
      (cleanText (card ["Jane Doe"; "Acme Solutions Inc"; "jane@acme.com"]%string)) pre m post /\
    (forall pre' m' post',
       matchAt true emailRegex
         (cleanText (card ["Jane Doe"; "Acme Solutions Inc"; "jane@acme.com"]%string))
         pre' m' post' ->
       length pre <= length pre') /\
    str "jane@acme.com" = toLowerCase m /\
    Forall (fun c => is_upper c = false) (str "jane@acme.com").
Proof.
  apply (proj1 email_lowercased camera
           (card ["Jane Doe"; "Acme Solutions Inc"; "jane@acme.com"]%string) None).
  vm_compute. reflexivity.
Defined.

(** ** Phone *)

Lemma quest_plus_shape ic i w rest :
  matches ic (quest (In_ [Ch "+"])) i w rest -> w = [] \/ w = ["+"%char].
Proof.
  intros H. inversion H as [| | | |a lo hi i' w' rest' Hall Hlo Hhi| | | | |]; subst.
  destruct w as [|c [|c' w]]; auto; simpl in Hhi; [|lia].
  right. inversion Hall as [|? ? Hc _]; subst. f_equal.
  revert Hc. destruct ic; by_ascii c.
Qed.

Lemma phone_shape i m post :
  matches false phoneRegex i m post ->
  exists sign body, m = sign ++ body /\ (sign = [] \/ sign = ["+"%char]) /\
    Forall (fun c => c <> "+"%char) body.
Proof.
  assert (Hbody : forall r j w rest',
            may_hold false r "+" = false -> matches false r j w rest' ->
            Forall (fun c => c <> "+"%char) w).
  { intros r j w rest' Hno Hm. apply matches_may_hold in Hm.
    eapply Forall_impl; [|exact Hm]. simpl. intros c Hc ->. congruence. }
  intros H. unfold phoneRegex in H.
  inversion H as [| | | | | | | |? ? ? ? ? H1|? ? ? ? ? H1]; subst; clear H.
  - unfold phoneIndia in H1.
    inversion H1 as [| | | | | | |? ? ? w1 w2 ? Hs Hb| |]; subst.
    exists w1, w2. repeat split; [eapply quest_plus_shape; eauto|].
    eapply Hbody; [|exact Hb]. vm_compute. reflexivity.
  - inversion H1 as [| | | | | | | |? ? ? ? ? H2|? ? ? ? ? H2]; subst; clear H1.
    + unfold phoneUS in H2.
      inversion H2 as [| | | | | | |? ? ? w1 w2 ? Hs Hb| |]; subst.
      exists w1, w2. repeat split; [eapply quest_plus_shape; eauto|].
      eapply Hbody; [|exact Hb]. vm_compute. reflexivity.
    + unfold phoneGeneric in H2.
      inversion H2 as [| | | | | | |? ? ? w1 w2 ? Hs Hb| |]; subst.
      exists w1, w2. repeat split; [eapply quest_plus_shape; eauto|].
      eapply Hbody; [|exact Hb]. vm_compute. reflexivity.
Qed.

Lemma digit_or_plus c : digitOrPlus c = true -> c <> "+"%char -> is_digit c = true.
Proof. by_ascii c. Qed.

Lemma notDigitPlus_keeps c :
  negb (atom_has false (NotIn [Dig; Ch "+"]) c) = digitOrPlus c.
Proof. by_ascii c. Qed.

(** [phone.replace(/[^\d+]/g, '')] keeps the digits and the plus signs. *)
Lemma cleanPhone_filter m :
  replace_g false notDigitPlus [] m = filter digitOrPlus m.
Proof.
  unfold notDigitPlus. rewrite replace_g_filter.
  apply filter_ext. intros c. apply notDigitPlus_keeps.
Qed.

(** ** Website *)

Lemma kept_no_colon c : kept c -> c <> ":"%char /\ c <> "/"%char.
Proof. unfold kept. split; intros ->; vm_compute in H; discriminate. Qed.

Lemma lower_colon c : lower_char c = ":"%char -> c = ":"%char.
Proof. by_ascii c. Qed.

Lemma starts_with_app p : forall s, starts_with p s = true -> exists rest, s = p ++ rest.
Proof.
  induction p as [|x p IH]; intros s H; simpl in *; eauto.
  destruct s as [|y s]; [discriminate|].
  apply andb_true_iff in H. destruct H as [Hx H].
  apply Ascii.eqb_eq in Hx. subst y.
  apply IH in H. destruct H as [rest ->]. eauto.
Qed.

(** A string without a colon does not start with a scheme, in any case. *)
Lemma no_colon_no_scheme p w :
  In ":"%char p -> Forall (fun c => c <> ":"%char) w ->
  starts_with p (toLowerCase w) = false.
Proof.
  intros Hp Hw. destruct (starts_with p (toLowerCase w)) eqn:E; auto.
  apply starts_with_app in E. destruct E as [rest E].
  assert (Hin : In ":"%char (toLowerCase w)) by (rewrite E; apply in_or_app; auto).
  apply in_map_iff in Hin. destruct Hin as (c & Hc & Hin).
  apply lower_colon in Hc. subst c.
  rewrite Forall_forall in Hw. exfalso. exact (Hw _ Hin eq_refl).
Qed.

(** The scheme pattern needs a colon, so on a string without one the
    replacement of [schemePrefix] removes nothing. *)
Lemma scheme_needs_colon (R : Type) ic s i (k : cont R) :
  Forall (fun c => c <> ":"%char) s -> run ic scheme i s k = None.
Proof.
  intros Hs. destruct (run ic scheme i s k) eqn:E; auto.
  apply run_sound in E. destruct E as (w & rest & -> & Hm & _).
  apply (@matches_must_hold is_colon) in Hm; [|destruct ic; vm_compute; reflexivity].
  apply Exists_exists in Hm. destruct Hm as (c & Hin & Hc).
  apply Ascii.eqb_eq in Hc. subst c.
  rewrite Forall_forall in Hs. exfalso. apply (Hs ":"%char); auto.
  apply in_or_app. auto.
Qed.

Lemma strip_scheme_id w :
  Forall (fun c => c <> ":"%char) w -> replace_first false schemePrefix [] w = w.
Proof.
  intros Hw. unfold replace_first.
  assert (E : exec false schemePrefix 0 w = Some 0).
  { unfold exec, schemePrefix. cbn [run]. simpl (0 =? 0)%nat. cbv iota.
    rewrite scheme_needs_colon; auto. }
  replace (search false schemePrefix 0 w) with (Some (0, 0)); [reflexivity|].
  destruct w; cbn [search]; rewrite E; reflexivity.
Qed.

Lemma firstMatch_kept ic r text m :
  firstMatch ic r (cleanText text) = Some m -> Forall kept m.
Proof.
  intros H. apply firstMatch_found in H. destruct H as (pre & post & [Heq _] & _).
  pose proof (cleanText_kept text) as Hk. rewrite Heq in Hk.
  apply Forall_app in Hk. destruct Hk as [_ Hk].
  apply Forall_app in Hk. tauto.
Qed.

(** The replacement of the scheme finds nothing to remove: the website is the
    first match as it stands. *)
Lemma website_is_first_match src text conf :
  website (extractContactInfo src text conf)
  = firstMatch true websiteRegex (cleanText text).
Proof.
  rewrite website_field.
  destruct (firstMatch true websiteRegex (cleanText text)) as [m|] eqn:E; auto.
  simpl. rewrite strip_scheme_id; auto.
  apply firstMatch_kept in E. eapply Forall_impl; [|exact E].
  intros c Hc. apply kept_no_colon, Hc.
Qed.

(** C3 (code bug): the code does not take "www." off.  The pattern leaves the
    scheme and "www." outside its group and the replace takes a scheme off,
    but [match] with the [g] flag gives whole matches, so the website field
    is the earliest match of the pattern in the normalized text as matched.
    It never begins with a scheme (it holds no colon and no slash), yet at
    the claim's own input "www.example.com", and at
    "https://www.example.com", it is "www.example.com" where the claim says
    "example.com". *)
Theorem website_keeps_www (src : Source) (text : jsstring) (conf : option float) :
  website (extractContactInfo src text conf)
  = firstMatch true websiteRegex (cleanText text) /\
  website (extractContactInfo src text conf) = opt_first (websitesOf text) /\
  (forall w, website (extractContactInfo src text conf) = Some w ->
     Forall (fun c => c <> ":"%char /\ c <> "/"%char) w /\
     starts_with (str "http://") (toLowerCase w) = false /\
     starts_with (str "https://") (toLowerCase w) = false) /\
  website (extractContactInfo src (str "www.example.com") conf)
  = Some (str "www.example.com") /\
  website (extractContactInfo src (str "https://www.example.com") conf)
  = Some (str "www.example.com").
Proof.
  pose proof (website_is_first_match src text conf) as Hw.
  split; [exact Hw|].
  split; [rewrite Hw; unfold websitesOf; rewrite match_g_first; reflexivity|].
  split; [|split; vm_compute; reflexivity].
  intros w H. rewrite Hw in H. apply firstMatch_kept in H.
  assert (Hc : Forall (fun c => c <> ":"%char) w).
  { eapply Forall_impl; [|exact H]. intros c Hc. apply kept_no_colon, Hc. }
  split; [|split].
  - eapply Forall_impl; [|exact H]. intros c. apply kept_no_colon.
  - apply no_colon_no_scheme; auto. vm_compute. tauto.
  - apply no_colon_no_scheme; auto. vm_compute. tauto.
Qed.

(** C3 fails on the code: "www.example.com" keeps its "www.". *)
Lemma website_bare_fails : ~ websiteBare (str "www.example.com").
Proof.
  intros H. specialize (H (str "www.example.com")).
  vm_compute in H. destruct (H eq_refl) as (_ & _ & H3). discriminate H3.
Qed.

(** ** The orchestration *)

Lemma long_text_kept t : 3 <= length (trim t) -> tooShort t = false.
Proof.
  intros H. unfold tooShort. apply orb_false_iff. split.
  - destruct t; simpl in *; auto. lia.
  - apply Nat.ltb_ge. exact H.
Qed.

Lemma short_text_dropped t : length (trim t) < 3 -> tooShort t = true.
Proof.
  intros H. unfold tooShort. apply orb_true_iff. right. apply Nat.ltb_lt. exact H.
Qed.

(** A remote attempt that fails logs the call and throws. *)
Lemma remoteAttempt_failed env image :
  remoteFailed (invoke env image) = true ->
  exists e, remoteAttempt env image = ([InvokeVision image], Threw e).
Proof.
  unfold remoteFailed, remoteAttempt, callVision, bind.
  destruct (invoke env image) as [[d|]|e]; simpl; eauto.
  intros H. apply negb_true_iff in H. rewrite H. simpl. eauto.
Qed.

Lemma remoteAttempt_succeeded env image d :
  invoke env image = Returned (Some d) -> success d = true ->
  remoteAttempt env image
  = ([InvokeVision image], Returned (text d, num_or (v_confidence d) 0.8%float)).
Proof.
  intros H Hs. unfold remoteAttempt, callVision, bind. rewrite H, Hs. reflexivity.
Qed.

(** What the edge function answers when the provider names no text or the
    key is missing is a remote failure for the component, and what it answers
    to a first annotation is a success that carries its description. *)
Lemma handler_failure_is_remote_failure key ann :
  fst (visionHandler key ann) <> 200 ->
  remoteFailed (Returned (invokeData (visionHandler key ann))) = true.
Proof.
  unfold visionHandler.
  destruct key as [k|]; [destruct (truthy_str k); [destruct ann as [[a|]|[m|]]|]|];
    simpl; intros H; auto; congruence.
Qed.

Lemma handler_success key a :
  truthy_str key = true ->
  exists d, invokeData (visionHandler (Some key) (Returned (Some a))) = Some d /\
    success d = true /\ text d = description a.
Proof. intros H. unfold visionHandler. rewrite H. simpl. eauto. Qed.

(** What the caller sees of a run whose text and confidence are there,
    whichever engine gave them. *)
Lemma callerView_after (src : Source) (t : jsstring) (c : float) (calls : list Event) :
  forallb isEngineCall calls = true ->
  callerView (SetScanning true :: calls ++ afterRecognition src t c ++ [SetScanning false])
  = SetScanning true :: afterRecognition src t c ++ [SetScanning false].
Proof.
  intros H. unfold callerView. cbn [filter isEngineCall negb]. f_equal.
  rewrite filter_app.
  assert (E : filter (fun ev => negb (isEngineCall ev)) calls = []).
  { induction calls as [|ev calls IH]; [reflexivity|].
    cbn [forallb] in H. apply andb_prop in H. destruct H as [H1 H2].
    cbn [filter]. rewrite H1. cbn [negb]. apply IH, H2. }
  rewrite E. cbn [app]. unfold afterRecognition.
  destruct (tooShort t); reflexivity.
Qed.

(** C7: when the remote call fails (it throws, gives no data, or gives data
    without success) the local engine is called on the same image, and the
    run goes on with its text and its confidence divided by 100.  A text of
    at least 3 characters after trimming gives a record whose raw text is the
    local text and whose confidence is the local confidence divided by 100,
    and the caller sees that record and the success toast, and no failure.
    What the caller sees is the same function of text and confidence that it
    sees of a run whose remote call succeeded. *)
Theorem remote_failure_falls_back (env : Env) (image : jsstring) (r : TesseractData) :
  capturedImage env = Some image -> truthy_str image = true ->
  remoteFailed (invoke env image) = true ->
  recognize env image (str "eng") = Returned r ->
  trace env =
    SetScanning true :: InvokeVision image :: TesseractRecognize image (str "eng") ::
    afterRecognition (uploadSource env) (t_text r) (t_confidence r / 100)%float ++
    [SetScanning false] /\
  (3 <= length (trim (t_text r)) ->
   exists data,
     scanned (trace env) = Some data /\
     data = extractContactInfo (uploadSource env) (t_text r)
                               (Some (t_confidence r / 100)%float) /\
     raw_text data = t_text r /\
     confidence data = Some (t_confidence r / 100)%float /\
     callerView (trace env) =
       [SetScanning true; OnScanComplete data;
        ToastScanComplete (t_confidence r / 100)%float; SetScanning false]) /\
  callerView (trace env) =
    SetScanning true ::
    afterRecognition (uploadSource env) (t_text r) (t_confidence r / 100)%float ++
    [SetScanning false] /\
  forall env' d,
    capturedImage env' = Some image ->
    invoke env' image = Returned (Some d) -> success d = true ->
    callerView (trace env') =
      SetScanning true ::
      afterRecognition (uploadSource env') (text d) (num_or (v_confidence d) 0.8%float) ++
      [SetScanning false].
Proof.
  intros Himg Htr Hfail Hloc.
  destruct (remoteAttempt_failed env image Hfail) as [e He].
  assert (Htrace : trace env =
    SetScanning true :: InvokeVision image :: TesseractRecognize image (str "eng") ::
    afterRecognition (uploadSource env) (t_text r) (t_confidence r / 100)%float ++
    [SetScanning false]).
  { unfold trace, processImage. rewrite Himg, Htr.
    unfold scanBody, recognizeText, localFallback, callTesseract, afterRecognition.
    rewrite He, Hloc. cbn [try_catch bind ret emit app].
    cbn [t_text t_confidence]. destruct (tooShort (t_text r)); reflexivity. }
  assert (Hview : callerView (trace env) =
    SetScanning true ::
    afterRecognition (uploadSource env) (t_text r) (t_confidence r / 100)%float ++
    [SetScanning false]).
  { rewrite Htrace.
    apply (callerView_after (uploadSource env) (t_text r) (t_confidence r / 100)%float
             [InvokeVision image; TesseractRecognize image (str "eng")]).
    reflexivity. }
  split; [exact Htrace|]. split; [|split; [exact Hview|]].
  - intros Hlen.
    exists (extractContactInfo (uploadSource env) (t_text r)
                               (Some (t_confidence r / 100)%float)).
    split; [|split; [reflexivity|split; [reflexivity|split; [reflexivity|]]]].
    + rewrite Htrace. unfold afterRecognition.
      rewrite (long_text_kept _ Hlen). reflexivity.
    + rewrite Hview. unfold afterRecognition.
      rewrite (long_text_kept _ Hlen). reflexivity.
  - intros env' d Himg' Hinv Hsucc.
    assert (Htrace' : trace env' =
      SetScanning true :: [InvokeVision image] ++
      afterRecognition (uploadSource env') (text d) (num_or (v_confidence d) 0.8%float) ++
      [SetScanning false]).
    { unfold trace, processImage. rewrite Himg', Htr.
      unfold scanBody, recognizeText, afterRecognition.
      rewrite (remoteAttempt_succeeded _ _ Hinv Hsucc).
      cbn [try_catch bind ret emit app].
      destruct (tooShort (text d)); reflexivity. }
    rewrite Htrace'. apply callerView_after. reflexivity.
Qed.

(** The theorem at work: the remote call throws and the local engine reads
    two lines with confidence 87.  The record holds them, and the caller
    sees what it sees when the provider reads the same with the same
    confidence. *)
Lemma remote_failure_falls_back_witness :
  (exists data,
     scanned (trace envFailingRemote) = Some data /\
     raw_text data = card ["Jane Doe"; "jane@acme.com"]%string /\
     confidence data = Some (87 / 100)%float) /\
  callerView (trace envRemoteSucceeds) = callerView (trace envFailingRemote).
Proof.
  destruct (@remote_failure_falls_back envFailingRemote
              (str "data:image/jpeg;base64,AAAA")
              {| t_text := card ["Jane Doe"; "jane@acme.com"]%string;
                 t_confidence := 87%float |}
              eq_refl eq_refl eq_refl eq_refl)
    as (_ & Hrec & Hview & Hremote).
  split.
  - destruct Hrec as (data & Hs & _ & Hraw & Hconf & _); [vm_compute; lia|].
    exists data. repeat split; assumption.
  - rewrite Hview.
    rewrite (Hremote envRemoteSucceeds
               {| success := true; text := card ["Jane Doe"; "jane@acme.com"]%string;
                  v_confidence := Some (87 / 100)%float; error := None |}
               eq_refl eq_refl eq_refl).
    reflexivity.
Defined.

(** C9: when the remote call succeeds with a text shorter than 3 characters
    after trimming, the run ends with the no-text failure right after the
    remote call: the local engine is not called and no record is handed on. *)
Theorem short_remote_text_no_fallback (env : Env) (image : jsstring) (d : VisionData) :
  capturedImage env = Some image -> truthy_str image = true ->
  invoke env image = Returned (Some d) -> success d = true ->
  length (trim (text d)) < 3 ->
  trace env =
    [SetScanning true; InvokeVision image; ToastScanFailed noTextMessage;
     SetScanning false] /\
  existsb isTesseractCall (trace env) = false /\
  scanned (trace env) = None.
Proof.
  intros Himg Htr Hinv Hsucc Hlen.
  pose proof (short_text_dropped _ Hlen) as Hshort.
  assert (Htrace : trace env =
    [SetScanning true; InvokeVision image; ToastScanFailed noTextMessage;
     SetScanning false]).
  { unfold trace, processImage. rewrite Himg, Htr.
    unfold scanBody, recognizeText.
    rewrite (remoteAttempt_succeeded _ _ Hinv Hsucc).
    cbn [try_catch bind ret emit app]. rewrite Hshort. reflexivity. }
  rewrite Htrace. repeat split; reflexivity.
Qed.

(** The theorem at work: the provider reads " ab ", the local engine would
    have read two lines. *)
Lemma short_remote_text_no_fallback_witness :
  trace envShortRemote =
    [SetScanning true; InvokeVision (str "data:image/jpeg;base64,AAAA");
     ToastScanFailed noTextMessage; SetScanning false] /\
  existsb isTesseractCall (trace envShortRemote) = false /\
  scanned (trace envShortRemote) = None.
Proof.
  refine (@short_remote_text_no_fallback envShortRemote
            (str "data:image/jpeg;base64,AAAA")
            {| success := true; text := str " ab ";
               v_confidence := Some 0.8%float; error := None |} _ _ _ _ _);
    try reflexivity.
  vm_compute. lia.
Defined.

(** ** The website inside the email *)

Lemma lit_at c : atom_has true (In_ [Ch "@"]) c = true -> c = "@"%char.
Proof. by_ascii c. Qed.

Lemma lit_dot c : atom_has true (In_ [Ch "."]) c = true -> c = "."%char.
Proof. by_ascii c. Qed.

Lemma local_not_at c : atom_has true emailLocal c = true -> c <> "@"%char.
Proof. by_ascii c. Qed.

Lemma hyphenated_not_dot c : atom_has true alnumHyphen c = true -> c <> "."%char.
Proof. by_ascii c. Qed.

Lemma hyphenated_in_domain c :
  atom_has true alnumHyphen c = true -> atom_has true emailDomain c = true.
Proof. by_ascii c. Qed.

Lemma alnum_in_domain c :
  atom_has true alnum c = true -> atom_has true emailDomain c = true.
Proof. by_ascii c. Qed.

Lemma domain_without_dot c :
  atom_has true emailDomain c = true -> c <> "."%char ->
  atom_has true alnumHyphen c = true.
Proof. by_ascii c. Qed.

Lemma lower_is_at c : ((lower_char c =? "@") = (c =? "@"))%char.
Proof. by_ascii c. Qed.

Lemma lower_is_dot c : ((lower_char c =? ".") = (c =? "."))%char.
Proof. by_ascii c. Qed.

Lemma lower_alnum c : atom_has true alnum (lower_char c) = atom_has true alnum c.
Proof. by_ascii c. Qed.

Lemma after_lower x s :
  (forall c, ((lower_char c =? x) = (c =? x))%char) ->
  after x (toLowerCase s) = toLowerCase (after x s).
Proof.
  intros Hx. induction s as [|c s IH]; simpl; auto.
  rewrite Hx. destruct (c =? x)%char; auto.
Qed.

Lemma before_lower x s :
  (forall c, ((lower_char c =? x) = (c =? x))%char) ->
  before x (toLowerCase s) = toLowerCase (before x s).
Proof.
  intros Hx. induction s as [|c s IH]; simpl; auto.
  rewrite Hx. destruct (c =? x)%char; simpl; auto. rewrite IH. reflexivity.
Qed.

Lemma before_app x u v :
  Forall (fun c => c <> x) u -> before x (u ++ x :: v) = u.
Proof.
  induction 1 as [|c u Hc Hu IH]; simpl.
  - rewrite Ascii.eqb_refl. reflexivity.
  - destruct (Ascii.eqb_spec c x); [congruence|]. rewrite IH. reflexivity.
Qed.

Lemma after_app x u v :
  Forall (fun c => c <> x) u -> after x (u ++ x :: v) = v.
Proof.
  induction 1 as [|c u Hc Hu IH]; simpl.
  - rewrite Ascii.eqb_refl. reflexivity.
  - destruct (Ascii.eqb_spec c x); [congruence|]. exact IH.
Qed.

(** When the first [x] of [u ++ x :: v] lies in [u], what follows it holds an [x]. *)
Lemma after_inside x u v :
  In x u -> existsb (fun c => (c =? x)%char) (after x (u ++ x :: v)) = true.
Proof.
  induction u as [|c u IH]; simpl; [tauto|].
  intros [->|Hin].
  - rewrite Ascii.eqb_refl. apply existsb_exists. exists x.
    split; [apply in_or_app; right; left; reflexivity|apply Ascii.eqb_refl].
  - destruct (c =? x)%char; auto.
    apply existsb_exists. exists x.
    split; [apply in_or_app; right; left; reflexivity|apply Ascii.eqb_refl].
Qed.

Lemma app_longer {A} : forall (w1 r1 w2 r2 : list A),
  w1 ++ r1 = w2 ++ r2 -> length w1 < length w2 ->
  exists x u, w2 = w1 ++ x :: u /\ r1 = x :: u ++ r2.
Proof.
  induction w1 as [|c w1 IH]; intros r1 [|c2 w2] r2 Heq Hlen; simpl in *; try lia.
  - subst r1. eauto.
  - injection Heq as <- Heq. apply IH in Heq; [|lia].
    destruct Heq as (x & u & -> & ->). eauto.
Qed.

Lemma firstn_exact {A} (w rest : list A) : firstn (length w) (w ++ rest) = w.
Proof.
  rewrite firstn_app, Nat.sub_diag, firstn_all. simpl. apply app_nil_r.
Qed.

Lemma skipn_exact {A} (w rest : list A) : skipn (length w) (w ++ rest) = rest.
Proof.
  rewrite skipn_app, Nat.sub_diag, skipn_all. reflexivity.
Qed.

Lemma search_at ic r : forall p s i e,
  p <= length s ->
  (forall q, q < p -> exec ic r (i + q) (skipn q s) = None) ->
  exec ic r (i + p) (skipn p s) = Some e ->
  search ic r i s = Some (i + p, e).
Proof.
  induction p as [|p IH]; intros s i e Hp Hfree Hex.
  - rewrite Nat.add_0_r in *. simpl in Hex. destruct s; simpl; rewrite Hex; reflexivity.
  - destruct s as [|c s]; simpl in Hp; [lia|].
    simpl. pose proof (Hfree 0 ltac:(lia)) as H0. rewrite Nat.add_0_r in H0. simpl in H0.
    rewrite H0. rewrite Nat.add_succ_r.
    apply (IH s (S i) e); [lia| |].
    + intros q Hq. specialize (Hfree (S q) ltac:(lia)).
      rewrite Nat.add_succ_r in Hfree. exact Hfree.
    + rewrite Nat.add_succ_r in Hex. exact Hex.
Qed.

Lemma websiteFreeBefore_spec text d q :
  websiteFreeBefore text d = true -> q < d ->
  exec true websiteRegex q (skipn q (cleanText text)) = None.
Proof.
  unfold websiteFreeBefore. rewrite forallb_forall. intros H Hq.
  specialize (H q). rewrite in_seq in H. specialize (H ltac:(lia)).
  destruct (exec true websiteRegex q (skipn q (cleanText text))); auto. discriminate.
Qed.

(** What the email pattern takes at index [b]: the local part, the domain
    before its last dot (the longest the rest allows), and the letters after
    that dot (as many as there are). *)
Lemma email_exec_shape b s ee :
  exec true emailRegex b s = Some ee ->
  exists loc D T post,
    s = loc ++ "@"%char :: D ++ "."%char :: T ++ post /\
    ee = S (S (b + length loc) + length D) + length T /\
    Forall (fun c => atom_has true emailLocal c = true) loc /\
    Forall (fun c => atom_has true emailDomain c = true) D /\
    Forall (fun c => atom_has true letters c = true) T /\
    2 <= length T /\
    (forall T' post', T ++ post = T' ++ post' -> length T < length T' ->
       ~ Forall (fun c => atom_has true letters c = true) T') /\
    (forall D' rest', D ++ "."%char :: T ++ post = D' ++ rest' ->
       length D < length D' ->
       Forall (fun c => atom_has true emailDomain c = true) D' ->
       run true (lit "." >> Rep letters 2 None) (S (b + length loc) + length D') rest' accept
       = None).
Proof.
  unfold exec, emailRegex, plus. cbn [run]. intros H.
  apply rep_greedy in H.
  destruct H as (loc & rest1 & -> & Hloc & _ & _ & Hk1 & _).
  cbn beta in Hk1. unfold lit at 1 in Hk1. cbn [run] in Hk1.
  destruct rest1 as [|c1 rest1]; [discriminate|].
  destruct (atom_has true (In_ [Ch "@"]) c1) eqn:Hat; [|discriminate].
  apply lit_at in Hat. subst c1.
  apply rep_greedy in Hk1.
  destruct Hk1 as (D & rest2 & -> & HD & _ & _ & Hk2 & HmaxD).
  cbn beta in Hk2. unfold lit at 1 in Hk2. cbn [run] in Hk2.
  destruct rest2 as [|c2 rest2]; [discriminate|].
  destruct (atom_has true (In_ [Ch "."]) c2) eqn:Hdot; [|discriminate].
  apply lit_dot in Hdot. subst c2.
  apply rep_greedy in Hk2.
  destruct Hk2 as (T & post & -> & HT & HloT & _ & Hk3 & HmaxT).
  injection Hk3 as <-.
  exists loc, D, T, post. repeat split; auto.
  - intros T' post' Heq Hlen HT'.
    specialize (HmaxT T' post' Heq Hlen HT' I). discriminate.
  - intros D' rest' Heq Hlen HD'. apply (HmaxD D' rest' Heq Hlen HD' I).
Qed.

Lemma domainShape_shape i w rest :
  matches true domainShape i w rest ->
  exists a mid z T,
    w = a :: mid ++ z :: "."%char :: T /\
    atom_has true alnum a = true /\
    Forall (fun c => atom_has true alnumHyphen c = true) mid /\
    atom_has true alnum z = true /\
    Forall (fun c => atom_has true letters c = true) T /\ 2 <= length T.
Proof.
  unfold domainShape, lit. intros H.
  inversion H as [| | | | | | |? ? ? w1 w2 ? Ma1 Mb1| |]; subst; clear H.
  inversion Ma1; subst; clear Ma1.
  inversion Mb1 as [| | | | | | |? ? ? w3 w4 ? Ma2 Mb2| |]; subst; clear Mb1.
  inversion Ma2; subst; clear Ma2.
  inversion Mb2 as [| | | | | | |? ? ? w5 w6 ? Ma3 Mb3| |]; subst; clear Mb2.
  inversion Ma3; subst; clear Ma3.
  inversion Mb3 as [| | | | | | |? ? ? w7 w8 ? Ma4 Mb4| |]; subst; clear Mb3.
  inversion Ma4; subst; clear Ma4.
  inversion Mb4; subst; clear Mb4.
  match goal with Hd : atom_has true (In_ [Ch "."]) ?c = true |- _ =>
    apply lit_dot in Hd; subst c end.
  simpl. eauto 12.
Qed.

Lemma www_dot_shape i w rest :
  matches true (word "www" >> lit ".") i w rest ->
  exists c1 c2 c3, w = [c1; c2; c3; "."%char] /\
    c1 <> "."%char /\ c2 <> "."%char /\ c3 <> "."%char.
Proof.
  assert (Hw : forall c, atom_has true (In_ [Ch "w"]) c = true -> c <> "."%char)
    by (intros c; by_ascii c).
  unfold lit. cbn [word]. unfold lit. intros H.
  inversion H as [| | | | | | |? ? ? w1 w2 ? Ma1 Mb1| |]; subst; clear H.
  inversion Mb1; subst; clear Mb1.
  inversion Ma1 as [| | | | | | |? ? ? u1 u2 ? Ga1 Gb1| |]; subst; clear Ma1.
  inversion Ga1; subst; clear Ga1.
  inversion Gb1 as [| | | | | | |? ? ? u3 u4 ? Ga2 Gb2| |]; subst; clear Gb1.
  inversion Ga2; subst; clear Ga2.
  inversion Gb2 as [| | | | | | |? ? ? u5 u6 ? Ga3 Gb3| |]; subst; clear Gb2.
  inversion Ga3; subst; clear Ga3.
  inversion Gb3; subst; clear Gb3.
  match goal with Hd : atom_has true (In_ [Ch "."]) ?c = true |- _ =>
    apply lit_dot in Hd; subst c end.
  simpl. eauto 10.
Qed.

Lemma tld_runs j T rest :
  Forall (fun c => atom_has true letters c = true) T -> 2 <= length T ->
  exists y, run true (lit "." >> Rep letters 2 None) j ("."%char :: T ++ rest) accept = Some y.
Proof.
  intros HT Hlen.
  assert (Hm : matches true (lit "." >> Rep letters 2 None) j (["."%char] ++ T) rest).
  { constructor.
    - constructor. reflexivity.
    - constructor; simpl; auto. }
  eapply run_complete with (k := accept) in Hm; [|reflexivity].
  exact Hm.
Qed.

(** After a first label "www" the pattern cannot go on to a second domain:
    the email pattern would have taken that longer domain. *)
Lemma www_path_blocked j0 d D T post :
  Forall (fun c => atom_has true alnumHyphen c = true) D -> 3 <= length D ->
  (forall D' rest', D ++ "."%char :: T ++ post = D' ++ rest' ->
     length D < length D' ->
     Forall (fun c => atom_has true emailDomain c = true) D' ->
     run true (lit "." >> Rep letters 2 None) (j0 + length D') rest' accept = None) ->
  run true (word "www" >> lit ".") d (D ++ "."%char :: T ++ post)
      (fun j s' => if (j =? d)%nat then None else run true domainShape j s' accept)
  = None.
Proof.
  intros HD Hlen Hmax.
  match goal with |- ?t = None => destruct t eqn:E end; auto. exfalso.
  apply run_sound in E. destruct E as (w & rest & Hs & Hm & Hk).
  apply www_dot_shape in Hm. destruct Hm as (c1 & c2 & c3 & -> & _ & _ & _).
  simpl length in Hk. destruct (Nat.eqb_spec (d + 4) d); [lia|].
  apply run_sound in Hk. destruct Hk as (w2 & rest2 & -> & Hm2 & _).
  apply domainShape_shape in Hm2.
  destruct Hm2 as (a & mid & z & T' & -> & Ha & Hmid & Hz & HT' & HlenT').
  destruct D as [|x1 [|x2 [|x3 [|x4 D]]]]; simpl in Hlen; try lia.
  - simpl in Hs. injection Hs as -> -> -> Hs.
    inversion HD as [|? ? Hx1 HD1]; subst. inversion HD1 as [|? ? Hx2 HD2]; subst.
    inversion HD2 as [|? ? Hx3 _]; subst.
    destruct (@tld_runs (j0 + length ([c1; c2; c3] ++ "."%char :: a :: mid ++ [z])) T' rest2
                HT' HlenT') as [y Hy].
    rewrite (Hmax ([c1; c2; c3] ++ "."%char :: a :: mid ++ [z])
                  ("."%char :: T' ++ rest2)) in Hy; [discriminate| | |].
    + simpl. rewrite Hs. simpl. rewrite <- !app_assoc. reflexivity.
    + simpl. lia.
    + apply Forall_app. split.
      * eapply Forall_impl; [|exact HD]. apply hyphenated_in_domain.
      * constructor; [reflexivity|]. constructor; [apply alnum_in_domain, Ha|].
        apply Forall_app. split.
        -- eapply Forall_impl; [|exact Hmid]. apply hyphenated_in_domain.
        -- constructor; [apply alnum_in_domain, Hz|constructor].
  - simpl in Hs. injection Hs as _ _ _ Hx4 _.
    inversion HD as [|? ? _ HD1]; subst. inversion HD1 as [|? ? _ HD2]; subst.
    inversion HD2 as [|? ? _ HD3]; subst. inversion HD3 as [|? ? Hx _]; subst.
    apply hyphenated_not_dot in Hx. congruence.
Qed.

(** What the website pattern takes at the start of a two-label domain. *)
Lemma website_exec_domain d a mid z T post :
  Forall (fun c => c <> ":"%char) (a :: mid ++ z :: "."%char :: T ++ post) ->
  atom_has true alnum a = true -> atom_has true alnum z = true ->
  Forall (fun c => atom_has true alnumHyphen c = true) mid ->
  1 <= length mid -> length mid <= 61 ->
  Forall (fun c => atom_has true letters c = true) T -> 2 <= length T ->
  (forall T' post', T ++ post = T' ++ post' -> length T < length T' ->
     ~ Forall (fun c => atom_has true letters c = true) T') ->
  run true (word "www" >> lit ".") d (a :: mid ++ z :: "."%char :: T ++ post)
      (fun j s' => if (j =? d)%nat then None else run true domainShape j s' accept)
  = None ->
  exec true websiteRegex d (a :: mid ++ z :: "."%char :: T ++ post)
  = Some (S (S (S d + length mid)) + length T).
Proof.
  intros Hcolon Ha Hz Hmid Hlo Hhi HT HlenT HmaxT Hwww.
  unfold exec, websiteRegex. cbn [run].
  rewrite scheme_needs_colon by exact Hcolon.
  cbn [run] in Hwww. rewrite Hwww.
  unfold domainShape. cbn [run]. rewrite Ha.
  apply rep_first; auto.
  - cbn beta. cbn [run]. rewrite Hz. unfold lit. cbn [run].
    replace (atom_has true (In_ [Ch "."]) ".") with true by reflexivity.
    apply rep_first; auto.
    + simpl. auto.
    + intros T' post' Heq Hlen HT' _. exfalso. exact (HmaxT T' post' Heq Hlen HT').
  - intros w' rest' Heq Hlen Hw' _.
    apply app_longer in Heq; auto. destruct Heq as (x & u & -> & Heq).
    injection Heq as <- Heq.
    destruct u as [|y u].
    + simpl in Heq. subst rest'. cbn beta. cbn [run]. reflexivity.
    + simpl in Heq. injection Heq as <- Heq.
      apply Forall_app in Hw'. destruct Hw' as [_ Hw'].
      inversion Hw' as [|? ? _ Hw'']; subst. inversion Hw'' as [|? ? Hdot _]; subst.
      apply hyphenated_not_dot in Hdot. congruence.
Qed.

Lemma existsb_dot_lower s :
  existsb (fun c => (c =? ".")%char) (toLowerCase s) = existsb (fun c => (c =? ".")%char) s.
Proof.
  induction s as [|c s IH]; simpl; auto. rewrite lower_is_dot, IH. reflexivity.
Qed.

Lemma twoLabels_lower d : twoLabels (toLowerCase d) = twoLabels d.
Proof.
  unfold twoLabels. rewrite (@after_lower _ _ lower_is_dot), existsb_dot_lower. reflexivity.
Qed.

Lemma rev_ends {A} (a z : A) mid : rev (a :: mid ++ [z]) = z :: rev mid ++ [a].
Proof. simpl. rewrite rev_app_distr. reflexivity. Qed.

Lemma labelShaped_ends a mid z :
  labelShaped (a :: mid ++ [z]) =
  (3 <=? length (a :: mid ++ [z]))%nat && (length (a :: mid ++ [z]) <=? 63)%nat &&
  (atom_has true alnum a && atom_has true alnum z).
Proof. unfold labelShaped. rewrite rev_ends. reflexivity. Qed.

Lemma labelShaped_lower l : labelShaped (toLowerCase l) = labelShaped l.
Proof.
  destruct l as [|a l]; [reflexivity|].
  destruct l as [|b l]; [reflexivity|].
  destruct (exists_last (l := b :: l)) as (mid & z & Heq); [discriminate|].
  rewrite Heq. unfold toLowerCase. simpl map. rewrite map_app. simpl map.
  rewrite !labelShaped_ends. simpl length. rewrite !length_app, length_map.
  rewrite !lower_alnum. reflexivity.
Qed.

Lemma labelShaped_parts l :
  labelShaped l = true ->
  exists a mid z, l = a :: mid ++ [z] /\
    atom_has true alnum a = true /\ atom_has true alnum z = true /\
    1 <= length mid /\ length mid <= 61.
Proof.
  intros H.
  destruct l as [|a l]; [discriminate|].
  destruct l as [|b l]; [discriminate|].
  destruct (exists_last (l := b :: l)) as (mid & z & Heq); [discriminate|].
  rewrite Heq in *. rewrite labelShaped_ends in H.
  apply andb_true_iff in H. destruct H as [H Hends].
  apply andb_true_iff in H. destruct H as [Hlo Hhi].
  apply andb_true_iff in Hends. destruct Hends as [Ha Hz].
  apply Nat.leb_le in Hlo. apply Nat.leb_le in Hhi.
  simpl in Hlo, Hhi. rewrite length_app in Hlo, Hhi. simpl in Hlo, Hhi.
  exists a, mid, z. repeat split; auto; lia.
Qed.

Lemma no_dot_forall D :
  ~ In "."%char D -> Forall (fun c => c <> "."%char) D.
Proof.
  intros H. apply Forall_forall. intros c Hin ->. exact (H Hin).
Qed.

(** C10 (amended): when the email is set, its domain has exactly two labels,
    the first label has 3 to 63 characters with a letter or a digit at both
    ends, and no match of the website pattern starts before the domain in
    the normalized text, then the website is set too: it is the domain of the
    matched address as the text spells it, and lower-cased it is the domain
    of the email field. *)
Theorem website_from_email_domain (src : Source) (text : jsstring)
        (conf : option float) (e : jsstring) (d : nat) :
  email (extractContactInfo src text conf) = Some e ->
  domainStartOf text = Some d ->
  labelShaped (firstLabelOf (domainOf e)) = true ->
  twoLabels (domainOf e) = true ->
  websiteFreeBefore text d = true ->
  exists m w,
    firstMatch true emailRegex (cleanText text) = Some m /\
    w = domainOf m /\
    website (extractContactInfo src text conf) = Some w /\
    toLowerCase w = domainOf e.
Proof.
  intros He Hd Hlab Htwo Hfree.
  rewrite email_field in He.
  destruct (firstMatch true emailRegex (cleanText text)) as [m|] eqn:Em; [|discriminate].
  injection He as <-.
  unfold firstMatch in Em. unfold domainStartOf in Hd.
  destruct (search true emailRegex 0 (cleanText text)) as [[b ee]|] eqn:Es; [|discriminate].
  injection Em as Em. rewrite Em in Hd. injection Hd as Hd.
  apply search_found in Es. destruct Es as (pre & s & Hc & Hb & Hex & _).
  simpl in Hb. subst b.
  apply email_exec_shape in Hex.
  destruct Hex as (loc & D & T & post & -> & -> & Hloc & HD & HT & HlenT & HmaxT & HmaxD).
  (* the matched address *)
  assert (Hm : m = loc ++ "@"%char :: D ++ "."%char :: T).
  { rewrite <- Em, Hc, skipn_exact.
    replace (loc ++ "@"%char :: D ++ "."%char :: T ++ post)
      with ((loc ++ "@"%char :: D ++ "."%char :: T) ++ post)
      by (rewrite <- app_assoc; simpl; rewrite <- app_assoc; reflexivity).
    replace (S (S (length pre + length loc) + length D) + length T - length pre)
      with (length (loc ++ "@"%char :: D ++ "."%char :: T))
      by (rewrite !length_app; cbn [length]; rewrite !length_app; cbn [length]; lia).
    apply firstn_exact. }
  clear Em. subst m.
  assert (Hnoat : Forall (fun c => c <> "@"%char) loc).
  { eapply Forall_impl; [|exact Hloc]. apply local_not_at. }
  rewrite (@before_app _ _ _ Hnoat) in Hd.
  assert (Hdom : domainOf (loc ++ "@"%char :: D ++ "."%char :: T) = D ++ "."%char :: T).
  { unfold domainOf. apply (@after_app _ _ _ Hnoat). }
  unfold domainOf in Hlab, Htwo.
  rewrite (@after_lower _ _ lower_is_at) in Hlab, Htwo.
  fold (domainOf (loc ++ "@"%char :: D ++ "."%char :: T)) in Hlab, Htwo.
  rewrite Hdom in Hlab, Htwo.
  (* the first label is [D] *)
  rewrite twoLabels_lower in Htwo.
  assert (Hnodot : Forall (fun c => c <> "."%char) D).
  { apply no_dot_forall. intros Hin.
    unfold twoLabels in Htwo. rewrite (@after_inside _ _ _ Hin) in Htwo. discriminate. }
  unfold firstLabelOf in Hlab. rewrite (@before_lower _ _ lower_is_dot) in Hlab.
  rewrite (@before_app _ _ _ Hnodot), labelShaped_lower in Hlab.
  assert (HDh : Forall (fun c => atom_has true alnumHyphen c = true) D).
  { apply Forall_forall. intros c Hin. rewrite Forall_forall in HD, Hnodot.
    apply domain_without_dot; auto. }
  destruct (@labelShaped_parts _ Hlab) as (a & mid & z & HDeq & Ha & Hz & Hlo & Hhi).
  assert (Hmid : Forall (fun c => atom_has true alnumHyphen c = true) mid).
  { rewrite HDeq in HDh. inversion HDh as [|? ? _ H']; subst.
    apply Forall_app in H'. tauto. }
  (* the text from the domain on *)
  assert (Hsplit : cleanText text
                   = (pre ++ loc ++ ["@"%char]) ++ D ++ "."%char :: T ++ post).
  { rewrite Hc, <- !app_assoc. reflexivity. }
  assert (Hlenpre : length (pre ++ loc ++ ["@"%char]) = d).
  { rewrite !length_app. simpl. lia. }
  assert (Hskip : skipn d (cleanText text) = D ++ "."%char :: T ++ post).
  { rewrite Hsplit, <- Hlenpre. apply skipn_exact. }
  assert (Hcolon : Forall (fun c => c <> ":"%char) (D ++ "."%char :: T ++ post)).
  { pose proof (cleanText_kept text) as Hk. rewrite Hsplit in Hk.
    apply Forall_app in Hk. destruct Hk as [_ Hk].
    eapply Forall_impl; [|exact Hk]. intros c Hkc. apply kept_no_colon, Hkc. }
  assert (Hlen3 : 3 <= length D).
  { rewrite HDeq. simpl. rewrite length_app. simpl. lia. }
  pose proof (@www_path_blocked (S (length pre + length loc)) d D T post HDh Hlen3 HmaxD)
    as Hwww.
  assert (HDs : D ++ "."%char :: T ++ post = a :: mid ++ z :: "."%char :: T ++ post).
  { rewrite HDeq. simpl. rewrite <- app_assoc. reflexivity. }
  rewrite HDs in Hcolon, Hwww.
  pose proof (@website_exec_domain d a mid z T post Hcolon Ha Hz Hmid Hlo Hhi HT HlenT
                HmaxT Hwww) as Hexw.
  rewrite <- HDs, <- Hskip in Hexw.
  assert (Hsw : search true websiteRegex 0 (cleanText text)
                = Some (0 + d, S (S (S d + length mid)) + length T)).
  { apply search_at.
    - rewrite Hsplit, length_app. lia.
    - intros q Hq. simpl. apply (@websiteFreeBefore_spec _ _ _ Hfree Hq).
    - exact Hexw. }
  change (0 + d) with d in Hsw.
  exists (loc ++ "@"%char :: D ++ "."%char :: T), (D ++ "."%char :: T).
  split; [|split; [|split]].
  - reflexivity.
  - symmetry. exact Hdom.
  - rewrite website_is_first_match.
    unfold firstMatch. rewrite Hsw, Hskip.
    replace (S (S (S d + length mid)) + length T - d)
      with (length (D ++ ["."%char] ++ T))
      by (rewrite HDeq; cbn [length app]; rewrite !length_app; cbn [length]; lia).
    replace (D ++ "."%char :: T ++ post) with ((D ++ ["."%char] ++ T) ++ post)
      by (rewrite <- !app_assoc; reflexivity).
    rewrite firstn_exact. reflexivity.
  - unfold domainOf. rewrite (@after_lower _ _ lower_is_at).
    fold (domainOf (loc ++ "@"%char :: D ++ "."%char :: T)). rewrite Hdom. reflexivity.
Qed.

(** The theorem at work on the card of the specification: the email is
    "jane@acme.com" and the website is "acme.com". *)
Lemma website_from_email_domain_witness :
  exists m w,
    firstMatch true emailRegex
      (cleanText (card ["Jane Doe"; "Acme Solutions Inc"; "Senior Engineer"; "jane@acme.com"]%string))
    = Some m /\
    w = domainOf m /\
    website (extractContactInfo camera
               (card ["Jane Doe"; "Acme Solutions Inc"; "Senior Engineer"; "jane@acme.com"]%string)
               None) = Some w /\
    toLowerCase w = domainOf (str "jane@acme.com").
Proof.
  apply (@website_from_email_domain camera
           (card ["Jane Doe"; "Acme Solutions Inc"; "Senior Engineer"; "jane@acme.com"]%string)
           None (str "jane@acme.com") 49);
    vm_compute; reflexivity.
Defined.

(** C10 as stated fails: on "a@mail.example.com" the email is set, the first
    label "mail" has 4 characters and nothing domain-shaped stands before the
    domain, yet the website is "mail.example", not "mail.example.com". *)
Lemma website_is_email_domain_fails : ~ websiteIsEmailDomain (str "a@mail.example.com").
Proof.
  intros H. specialize (H (str "a@mail.example.com") 2).
  vm_compute in H.
  specialize (H eq_refl eq_refl).
  assert (H3 : 3 <= 4) by lia.
  specialize (H H3 eq_refl). discriminate H.
Qed.

(** ** The phone of a line *)

Lemma phoneFreeBefore_spec text d q :
  phoneFreeBefore text d = true -> q < d ->
  exec false phoneRegex q (skipn q (cleanText text)) = None.
Proof.
  unfold phoneFreeBefore. rewrite forallb_forall. intros H Hq.
  specialize (H q). rewrite in_seq in H. specialize (H ltac:(lia)).
  destruct (exec false phoneRegex q (skipn q (cleanText text))); auto. discriminate.
Qed.

(** Where the line stands the pattern takes it whole, whatever follows. *)
Lemma phoneLine_exec n post :
  exec false phoneRegex n (phoneLine ++ post) = Some (n + length phoneLine).
Proof.
  replace (n + length phoneLine) with (17 + n) by (cbn; lia).
  destruct post; vm_compute; reflexivity.
Qed.

(** C6 (amended): when the normalized text holds "+1 (415) 555-0132" and no
    match of the phone pattern starts before it, the phone is
    "+14155550132", as on the line alone and on a card that holds it; and
    whenever the phone field is set it is the earliest match of the phone
    pattern in the normalized text with every character other than a digit or
    a plus sign removed, which leaves digits after at most one leading plus
    sign. *)
Theorem phone_digits_and_plus :
  (forall (src : Source) (text : jsstring) (conf : option float) (pre post : jsstring),
     cleanText text = pre ++ phoneLine ++ post ->
     phoneFreeBefore text (length pre) = true ->
     phone (extractContactInfo src text conf) = Some (str "+14155550132")) /\
  phone (extractContactInfo camera (str "+1 (415) 555-0132") None)
  = Some (str "+14155550132") /\
  phone (extractContactInfo camera
           (card ["Jane Doe"; "Acme Solutions Inc"; "+1 (415) 555-0132";
                  "jane@acme.com"]%string) None)
  = Some (str "+14155550132") /\
  forall (src : Source) (text : jsstring) (conf : option float) (p : jsstring),
    phone (extractContactInfo src text conf) = Some p ->
    plusThenDigits p /\
    exists pre m post,
      opt_first (phonesOf text) = Some m /\
      matchAt false phoneRegex (cleanText text) pre m post /\
      (forall pre' m' post',
         matchAt false phoneRegex (cleanText text) pre' m' post' ->
         length pre <= length pre') /\
      p = filter digitOrPlus m.
Proof.
  split; [|split; [vm_compute; reflexivity|split; [vm_compute; reflexivity|]]].
  - intros src text conf pre post Hclean Hfree.
    rewrite phone_field. unfold firstMatch.
    assert (Hs : search false phoneRegex 0 (cleanText text)
                 = Some (0 + length pre, length pre + length phoneLine)).
    { apply search_at.
      - rewrite Hclean, length_app. lia.
      - intros q Hq. apply phoneFreeBefore_spec with (d := length pre); assumption.
      - rewrite Hclean, skipn_exact. apply phoneLine_exec. }
    rewrite Hs, Hclean. cbn [Nat.add].
    replace (length pre + length phoneLine - length pre) with (length phoneLine) by lia.
    rewrite skipn_exact, firstn_exact. vm_compute. reflexivity.
  - intros src text conf p H. rewrite phone_field in H.
    destruct (firstMatch false phoneRegex (cleanText text)) as [m|] eqn:E; [|discriminate].
    injection H as <-. rewrite cleanPhone_filter.
    pose proof E as E'. apply firstMatch_found in E'.
    destruct E' as (pre & post & Hat & Hmin).
    split.
    + destruct Hat as [_ Hm].
      apply phone_shape in Hm. destruct Hm as (sign & body & -> & Hsign & Hbody).
      rewrite filter_app. exists (filter digitOrPlus body). split.
      * destruct Hsign as [->| ->]; [left|right]; reflexivity.
      * apply Forall_forall. intros c Hin. apply filter_In in Hin. destruct Hin as [Hin Hc].
        rewrite Forall_forall in Hbody. apply digit_or_plus; auto.
    + exists pre, m, post. split; [|split; [exact Hat|split; [exact Hmin|reflexivity]]].
      unfold phonesOf. rewrite match_g_first. exact E.
Qed.

(** The theorem at work: on a two-line card the name stands before the line,
    and holds no phone. *)
Lemma phone_digits_and_plus_witness :
  phone (extractContactInfo upload (card ["Jane Doe"; "+1 (415) 555-0132"]%string) None)
  = Some (str "+14155550132").
Proof.
  apply (proj1 phone_digits_and_plus upload
           (card ["Jane Doe"; "+1 (415) 555-0132"]%string) None (str "Jane Doe ") []).
  - vm_compute. reflexivity.
  - vm_compute. reflexivity.
Defined.

(** C6 as stated fails: on "Suite 400 / +1 (415) 555-0132" the input holds the
    line, and the phone is "400". *)
Lemma phone_of_line_fails : ~ phoneOfLine (card ["Suite 400"; "+1 (415) 555-0132"]%string).
Proof.
  intros H. unfold phoneOfLine in H.
  assert (Hin : In phoneLine (linesOf (card ["Suite 400"; "+1 (415) 555-0132"]%string)))
    by (vm_compute; auto).
  specialize (H Hin). vm_compute in H. discriminate H.
Qed.

(** ** Every run of [processImage] *)

(** What [scanBody] logs and gives after the text is there. *)
Lemma scanBody_after env image log t c :
  recognizeText env image = (log, Returned (t, c)) ->
  try_catch (scanBody env image) (failureToast) =
  (log ++ afterRecognition (uploadSource env) t c, Returned tt).
Proof.
  intros H. unfold scanBody, afterRecognition. rewrite H.
  cbn [bind]. destruct (tooShort t); cbn [throw emit bind try_catch failureToast app];
    rewrite ?app_nil_r; reflexivity.
Qed.

Lemma scanBody_threw env image log e :
  recognizeText env image = (log, Threw e) ->
  try_catch (scanBody env image) (failureToast) =
  (log ++ [ToastScanFailed (failureText e)], Returned tt).
Proof.
  intros H. unfold scanBody. rewrite H. cbn [bind try_catch failureToast emit].
  destruct e; reflexivity.
Qed.

Lemma processImage_with_image env image body :
  capturedImage env = Some image -> truthy_str image = true ->
  try_catch (scanBody env image) failureToast = (body, Returned tt) ->
  trace env = SetScanning true :: body ++ [SetScanning false].
Proof.
  intros Himg Htr Hb. unfold trace, processImage. rewrite Himg, Htr, Hb. reflexivity.
Qed.

(** What the two attempts log and give, by what the engines answer. *)
Lemma recognizeText_remote env image d :
  invoke env image = Returned (Some d) -> success d = true ->
  recognizeText env image =
  ([InvokeVision image], Returned (text d, num_or (v_confidence d) 0.8%float)).
Proof.
  intros H Hs. unfold recognizeText. rewrite (remoteAttempt_succeeded _ _ H Hs). reflexivity.
Qed.

Lemma recognizeText_local env image :
  remoteFailed (invoke env image) = true ->
  recognizeText env image =
  ([InvokeVision image; TesseractRecognize image (str "eng")],
   match recognize env image (str "eng") with
   | Returned r => Returned (t_text r, (t_confidence r / 100)%float)
   | Threw e => Threw e
   end).
Proof.
  intros H. unfold recognizeText.
  destruct (remoteAttempt_failed env image H) as [e He]. rewrite He.
  unfold localFallback, callTesseract. cbn [try_catch bind].
  destruct (recognize env image (str "eng")); reflexivity.
Qed.

Lemma remote_cases env image :
  remoteFailed (invoke env image) = true \/
  exists d, invoke env image = Returned (Some d) /\ success d = true.
Proof.
  unfold remoteFailed. destruct (invoke env image) as [[d|]|e]; auto.
  destruct (success d) eqn:E; eauto.
Qed.

Lemma afterRecognition_end src t c : RunEnd (afterRecognition src t c).
Proof.
  unfold afterRecognition. destruct (tooShort t); constructor. reflexivity.
Qed.

(** X1: every run is one of a few shapes.  Without an image nothing happens.
    With one, [scanning] is set, the remote engine is called, then the local
    one or not, then comes either a failure toast or a record followed by the
    success toast that shows the record's confidence, and [scanning] is
    reset: whatever the engines answer. *)
Theorem run_shape (env : Env) :
  match capturedImage env with
  | Some image =>
    if truthy_str image then
      exists calls fin,
        trace env = SetScanning true :: calls ++ fin ++ [SetScanning false] /\
        EngineCalls image calls /\ RunEnd fin
    else trace env = []
  | None => trace env = []
  end.
Proof.
  destruct (capturedImage env) as [image|] eqn:Himg;
    [|unfold trace, processImage; rewrite Himg; reflexivity].
  destruct (truthy_str image) eqn:Htr;
    [|unfold trace, processImage; rewrite Himg, Htr; reflexivity].
  destruct (remote_cases env image) as [Hf|(d & Hd & Hs)].
  - pose proof (recognizeText_local env image Hf) as Hr.
    destruct (recognize env image (str "eng")) as [r|e].
    + exists [InvokeVision image; TesseractRecognize image (str "eng")],
        (afterRecognition (uploadSource env) (t_text r) (t_confidence r / 100)%float).
      split; [|split; [constructor|apply afterRecognition_end]].
      rewrite (processImage_with_image env Himg Htr (scanBody_after env image Hr)).
      rewrite <- app_assoc. reflexivity.
    + exists [InvokeVision image; TesseractRecognize image (str "eng")],
        [ToastScanFailed (failureText e)].
      split; [|split; constructor].
      rewrite (processImage_with_image env Himg Htr (scanBody_threw env image Hr)).
      rewrite <- app_assoc. reflexivity.
  - pose proof (recognizeText_remote env image Hd Hs) as Hr.
    exists [InvokeVision image],
      (afterRecognition (uploadSource env) (text d) (num_or (v_confidence d) 0.8%float)).
    split; [|split; [constructor|apply afterRecognition_end]].
    rewrite (processImage_with_image env Himg Htr (scanBody_after env image Hr)).
    rewrite <- app_assoc. reflexivity.
Qed.

(** X2: the local engine is called exactly when the remote attempt failed. *)
Theorem local_called_iff_remote_failed (env : Env) (image : jsstring) :
  capturedImage env = Some image -> truthy_str image = true ->
  existsb isTesseractCall (trace env) = remoteFailed (invoke env image).
Proof.
  intros Himg Htr.
  destruct (remote_cases env image) as [Hf|(d & Hd & Hs)].
  - rewrite Hf. pose proof (recognizeText_local env image Hf) as Hr.
    destruct (recognize env image (str "eng")) as [r|e].
    + rewrite (processImage_with_image env Himg Htr (scanBody_after env image Hr)).
      reflexivity.
    + rewrite (processImage_with_image env Himg Htr (scanBody_threw env image Hr)).
      reflexivity.
  - pose proof (recognizeText_remote env image Hd Hs) as Hr.
    rewrite (processImage_with_image env Himg Htr (scanBody_after env image Hr)).
    unfold remoteFailed. rewrite Hd, Hs. unfold afterRecognition.
    destruct (tooShort (text d)); reflexivity.
Qed.

Lemma local_called_iff_remote_failed_witness :
  existsb isTesseractCall (trace envRemoteReads)
  = remoteFailed (invoke envRemoteReads (str "data:image/jpeg;base64,AAAA")).
Proof.
  apply (@local_called_iff_remote_failed envRemoteReads
           (str "data:image/jpeg;base64,AAAA")); reflexivity.
Defined.

(** X3: when both engines fail the run hands on no record and shows one
    failure toast; its text is the message of what the local engine threw
    (the fixed text when that is no Error), never that of the remote failure. *)
Theorem both_engines_fail (env : Env) (image : jsstring) (e : Thrown) :
  capturedImage env = Some image -> truthy_str image = true ->
  remoteFailed (invoke env image) = true ->
  recognize env image (str "eng") = Threw e ->
  trace env =
    [SetScanning true; InvokeVision image; TesseractRecognize image (str "eng");
     ToastScanFailed (failureText e); SetScanning false] /\
  scanned (trace env) = None.
Proof.
  intros Himg Htr Hf He.
  pose proof (recognizeText_local env image Hf) as Hr. rewrite He in Hr.
  rewrite (processImage_with_image env Himg Htr (scanBody_threw env image Hr)).
  split; reflexivity.
Qed.

Lemma both_engines_fail_witness :
  trace envBothFail =
    [SetScanning true; InvokeVision (str "data:image/jpeg;base64,AAAA");
     TesseractRecognize (str "data:image/jpeg;base64,AAAA") (str "eng");
     ToastScanFailed (str "worker failed"); SetScanning false] /\
  scanned (trace envBothFail) = None.
Proof.
  apply (@both_engines_fail envBothFail (str "data:image/jpeg;base64,AAAA")
           (ErrorObj (str "worker failed"))); reflexivity.
Defined.




(** ** The edge function *)






(** ** The image content the provider is asked about *)

Lemma lit_self c : atom_has false (In_ [Ch c]) c = true.
Proof. cbn. rewrite Ascii.eqb_refl. reflexivity. Qed.

(** A literal word matches where it stands, and only there. *)
Lemma run_word (R : Type) : forall w i rest (k : cont R),
  run false (word w) i (str w ++ rest) k = k (i + length (str w)) rest.
Proof.
  induction w as [|c w IH]; intros i rest k.
  - cbn. rewrite Nat.add_0_r. reflexivity.
  - cbn [word str list_ascii_of_string app run lit].
    rewrite lit_self. fold (str w). rewrite IH. cbn [length].
    rewrite Nat.add_succ_r. reflexivity.
Qed.

Lemma run_word_fails (R : Type) : forall w i s (k : cont R),
  starts_with (str w) s = false -> run false (word w) i s k = None.
Proof.
  induction w as [|c w IH]; intros i s k H; [discriminate|].
  cbn [word run lit]. cbn [str list_ascii_of_string starts_with] in H. fold (str w) in H.
  destruct s as [|x s]; [reflexivity|].
  cbn [atom_has set_has existsb item_has andb]. rewrite !orb_false_r.
  destruct (Ascii.eqb c x); [|reflexivity].
  apply IH. exact H.
Qed.

Lemma lower_az c : atom_has false (In_ [az]) c = is_lower c.
Proof. unfold is_lower, az. cbn [atom_has set_has existsb item_has andb]. rewrite !orb_false_r. reflexivity. Qed.

Lemma search_anchored r : forall s i,
  0 < i -> search false (Seq Bol r) i s = None.
Proof.
  induction s as [|c s IH]; intros i Hi; cbn [search exec run];
    destruct (Nat.eqb_spec i 0); try lia; auto.
Qed.

(** The prefix of a data URL is taken off. *)
Lemma base64Of_dataUrl subtype payload :
  subtype <> [] -> Forall (fun c => is_lower c = true) subtype ->
  base64Of (dataUrl subtype payload) = payload.
Proof.
  intros Hne Hlow.
  assert (E : exec false dataUrlPrefix 0 (dataUrl subtype payload)
              = Some (length (str "data:image/") + length subtype + length (str ";base64,"))).
  { unfold exec, dataUrlPrefix, dataUrl.
    cbn [run Nat.eqb]. rewrite run_word. unfold plus. cbn [run].
    apply rep_first.
    - apply Forall_forall. intros c Hc. rewrite lower_az.
      rewrite Forall_forall in Hlow. auto.
    - destruct subtype; [congruence|cbn; lia].
    - exact I.
    - rewrite run_word. reflexivity.
    - intros w' rest' Heq Hlen Hall _. exfalso.
      assert (Hin : In ";"%char w').
      { assert (Hw : w' = firstn (length w') (subtype ++ str ";base64," ++ payload)).
        { rewrite Heq. rewrite firstn_app, Nat.sub_diag, firstn_all. cbn. rewrite app_nil_r.
          reflexivity. }
        rewrite firstn_app in Hw. rewrite firstn_all2 in Hw by lia.
        destruct (length w' - length subtype) as [|n] eqn:En; [lia|].
        rewrite Hw. apply in_or_app. right. cbn. auto. }
      rewrite Forall_forall in Hall. specialize (Hall _ Hin). discriminate Hall. }
  unfold base64Of, replace_first.
  assert (S : search false dataUrlPrefix 0 (dataUrl subtype payload)
              = Some (0, length (str "data:image/") + length subtype + length (str ";base64,"))).
  { unfold dataUrl in *. destruct (str "data:image/" ++ subtype ++ str ";base64," ++ payload);
      cbn [search]; rewrite E; reflexivity. }
  rewrite S. cbn [firstn app]. unfold dataUrl.
  rewrite <- Nat.add_assoc, <- length_app.
  rewrite skipn_app. rewrite skipn_all2 by lia.
  replace (length (str "data:image/") + length (subtype ++ str ";base64,")
           - length (str "data:image/")) with (length (subtype ++ str ";base64,")) by lia.
  rewrite app_assoc. rewrite skipn_app, skipn_all, Nat.sub_diag. reflexivity.
Qed.

(** A text that does not begin like a data URL of an image is left as it is. *)
Lemma base64Of_other s :
  starts_with (str "data:image/") s = false -> base64Of s = s.
Proof.
  intros H. unfold base64Of, replace_first.
  assert (E : forall k : cont nat, run false dataUrlPrefix 0 s k = None).
  { intros k. unfold dataUrlPrefix. cbn [run Nat.eqb]. apply run_word_fails. exact H. }
  assert (S : search false dataUrlPrefix 0 s = None).
  { destruct s as [|c s]; cbn [search]; unfold exec; rewrite E; [reflexivity|].
    apply search_anchored. lia. }
  rewrite S. reflexivity.
Qed.

Lemma split_at_first {A} (c : A) : forall a b x y,
  a ++ c :: x = b ++ c :: y -> ~ In c a -> ~ In c b -> a = b.
Proof.
  induction a as [|u a IH]; intros [|v b] x y H Ha Hb; cbn in *.
  - reflexivity.
  - injection H as -> _. tauto.
  - injection H as -> _. tauto.
  - injection H as -> H. f_equal. apply (IH b x y H); tauto.
Qed.

(** A subtype that holds a character outside [a-z] keeps its prefix. *)
Lemma base64Of_subtype subtype payload :
  ~ In ";"%char subtype -> forallb is_lower subtype = false ->
  base64Of (dataUrl subtype payload) = dataUrl subtype payload.
Proof.
  intros Hsemi Hnot. unfold base64Of, replace_first.
  assert (E : exec false dataUrlPrefix 0 (dataUrl subtype payload) = None).
  { unfold exec, dataUrlPrefix, dataUrl.
    cbn [run Nat.eqb]. rewrite run_word. unfold plus. cbn [run].
    match goal with |- ?g = None => destruct g as [x|] eqn:Er; [exfalso|reflexivity] end.
    apply rep_sound in Er. destruct Er as (w & rest & Heq & Hall & _ & _ & Hk).
    destruct (starts_with (str ";base64,") rest) eqn:Est;
      [|rewrite run_word_fails in Hk by exact Est; discriminate].
    destruct rest as [|c rest]; [discriminate|].
    cbn [str list_ascii_of_string starts_with] in Est.
    apply andb_prop in Est. destruct Est as [Ec _].
    apply Ascii.eqb_eq in Ec. subst c.
    assert (Hw : ~ In ";"%char w).
    { intros Hin. rewrite Forall_forall in Hall. specialize (Hall _ Hin). discriminate Hall. }
    change (str ";base64," ++ payload) with (";"%char :: str "base64," ++ payload) in Heq.
    apply split_at_first in Heq; auto. subst w.
    assert (Hl : forallb is_lower subtype = true).
    { apply forallb_forall. intros c Hc. rewrite Forall_forall in Hall.
      rewrite <- lower_az. auto. }
    congruence. }
  assert (S : search false dataUrlPrefix 0 (dataUrl subtype payload) = None).
  { destruct (dataUrl subtype payload) as [|c s]; cbn [search]; rewrite E; [reflexivity|].
    apply search_anchored. lia. }
  rewrite S. reflexivity.
Qed.

(** X7: when the request carries a data URL whose subtype is made of the
    letters a to z ("jpeg", "png"), the provider is asked about the content
    after the prefix, and the answer is the handler's answer for it. *)
Theorem provider_gets_payload (typeError : jsstring) (apiKey : option jsstring)
        (provider : jsstring -> outcome (option Annotation))
        (method subtype payload : jsstring) :
  jseq method (str "OPTIONS") = false ->
  subtype <> [] -> Forall (fun c => is_lower c = true) subtype ->
  serve typeError apiKey provider
        {| q_method := method; q_json := Returned (Some (dataUrl subtype payload)) |} =
  {| r_status := fst (visionHandler apiKey (provider payload));
     r_cors := true;
     r_body := Json (snd (visionHandler apiKey (provider payload))) |}.
Proof.
  intros Hm Hne Hlow. unfold serve. cbn [q_method q_json]. rewrite Hm.
  rewrite base64Of_dataUrl by assumption. reflexivity.
Qed.

Lemma provider_gets_payload_witness :
  r_body (serve (str "imageData is undefined") (Some (str "key"))
                (fun content => if jseq content (str "BBBB")
                                then Returned (Some janeAnnotation) else Returned None)
                {| q_method := str "POST";
                   q_json := Returned (Some (dataUrl (str "jpeg") (str "BBBB"))) |}) =
  Json {| success := true; text := description janeAnnotation;
          v_confidence := Some 0.8%float; error := None |}.
Proof.
  rewrite provider_gets_payload.
  - reflexivity.
  - reflexivity.
  - discriminate.
  - repeat constructor.
Defined.

(** X8: an image content that does not begin with "data:image/", or whose
    subtype holds a character outside a to z and no semicolon ("svg+xml"),
    goes to the provider whole, prefix included. *)
Theorem odd_content_sent_whole (typeError : jsstring) (apiKey : option jsstring)
        (provider : jsstring -> outcome (option Annotation))
        (method content : jsstring) :
  jseq method (str "OPTIONS") = false ->
  starts_with (str "data:image/") content = false \/
  (exists subtype payload,
     content = dataUrl subtype payload /\
     ~ In ";"%char subtype /\ forallb is_lower subtype = false) ->
  base64Of content = content /\
  serve typeError apiKey provider
        {| q_method := method; q_json := Returned (Some content) |} =
  {| r_status := fst (visionHandler apiKey (provider content));
     r_cors := true;
     r_body := Json (snd (visionHandler apiKey (provider content))) |}.
Proof.
  intros Hm H.
  assert (E : base64Of content = content).
  { destruct H as [H|(subtype & payload & -> & Hs & Hl)].
    - apply base64Of_other. exact H.
    - apply base64Of_subtype; assumption. }
  split; [exact E|].
  unfold serve. cbn [q_method q_json]. rewrite Hm, E. reflexivity.
Qed.

Lemma odd_content_sent_whole_witness :
  base64Of (dataUrl (str "svg+xml") (str "PHN2Zz4=")) = str "data:image/svg+xml;base64,PHN2Zz4=".
Proof.
  apply (@odd_content_sent_whole (str "imageData is undefined") None
           (fun _ => Returned None) (str "POST")
           (dataUrl (str "svg+xml") (str "PHN2Zz4="))).
  - reflexivity.
  - right. exists (str "svg+xml"), (str "PHN2Zz4="). split; [reflexivity|].
    split; [|reflexivity].
    cbn. intros H. repeat (destruct H as [H|H]; [discriminate H|]). exact H.
Defined.

(** ** Where the scanned image came from *)

Lemma scannerStep_origin s a : sourceMarksOrigin s -> sourceMarksOrigin (scannerStep s a).
Proof.
  unfold sourceMarksOrigin. intros H o d.
  destruct a as [video| |refs width height context frame|file|result|]; cbn [scannerStep].
  - destruct video; cbn; eauto.
  - cbn. eauto.
  - destruct (refs && s_cameraActive s); eauto.
    destruct ((width =? 0) || (height =? 0))%nat; eauto.
    destruct context; eauto. cbn. congruence.
  - eauto.
  - cbn. congruence.
  - cbn. discriminate.
Qed.

Lemma scanner_origin : forall l s,
  sourceMarksOrigin s -> sourceMarksOrigin (fold_left scannerStep l s).
Proof.
  induction l as [|a l IH]; intros s H; cbn [fold_left]; auto.
  apply IH, scannerStep_origin, H.
Qed.

(** The record of a run is built with the source of the environment. *)
Lemma scanned_classified env data :
  scanned (trace env) = Some data ->
  exists image t c, capturedImage env = Some image /\
    data = extractContactInfo (uploadSource env) t (Some c).
Proof.
  intros H.
  destruct (capturedImage env) as [image|] eqn:Himg;
    [|unfold trace, processImage in H; rewrite Himg in H; discriminate].
  destruct (truthy_str image) eqn:Htr;
    [|unfold trace, processImage in H; rewrite Himg, Htr in H; discriminate].
  assert (Hafter : forall log t c,
    forallb (fun ev => match ev with OnScanComplete _ => false | _ => true end) log = true ->
    scanned (SetScanning true :: (log ++ afterRecognition (uploadSource env) t c)
                          ++ [SetScanning false]) = Some data ->
    exists t c, data = extractContactInfo (uploadSource env) t (Some c)).
  { intros log t c Hlog. cbn [scanned app]. induction log as [|ev log IH].
    - cbn [app]. unfold afterRecognition. destruct (tooShort t); cbn; [discriminate|].
      intros E. injection E as <-. eauto.
    - cbn [forallb] in Hlog. apply andb_prop in Hlog. destruct Hlog as [Hev Hlog].
      destruct ev; try discriminate Hev; cbn [app scanned]; auto. }
  exists image.
  destruct (remote_cases env image) as [Hf|(d & Hd & Hs)].
  - pose proof (recognizeText_local env image Hf) as Hr.
    destruct (recognize env image (str "eng")) as [r|e].
    + rewrite (processImage_with_image env Himg Htr (scanBody_after env image Hr)) in H.
      apply Hafter in H; [|reflexivity]. destruct H as (t & c & ->). eauto.
    + rewrite (processImage_with_image env Himg Htr (scanBody_threw env image Hr)) in H.
      discriminate H.
  - pose proof (recognizeText_remote env image Hd Hs) as Hr.
    rewrite (processImage_with_image env Himg Htr (scanBody_after env image Hr)) in H.
    apply Hafter in H; [|reflexivity]. destruct H as (t & c & ->). eauto.
Qed.

(** X9: whatever the user did before the scan (camera started or not,
    captures, uploads, retakes, in any order), the record a scan hands on
    names as its source the handler that set the image scanned: camera for a
    captured frame, upload for a file. *)
Theorem scan_source_is_origin (l : list Action)
        (remote : jsstring -> outcome (option VisionData))
        (lcl : jsstring -> jsstring -> outcome TesseractData) (data : ScannedData) :
  scanned (trace (envOf (scannerAfter l) remote lcl)) = Some data ->
  exists image, s_image (scannerAfter l) = Some (source data, image).
Proof.
  intros H. apply scanned_classified in H.
  destruct H as (image & t & c & Himg & ->). cbn [source envOf uploadSource].
  cbn [envOf capturedImage] in Himg.
  destruct (s_image (scannerAfter l)) as [[o d]|] eqn:E; [|discriminate].
  exists d. f_equal. f_equal. symmetry.
  assert (Hinv : sourceMarksOrigin (scannerAfter l)).
  { apply scanner_origin. intros o' d' H'. discriminate H'. }
  exact (Hinv o d E).
Qed.

Lemma scan_source_is_origin_witness :
  exists image, s_image (scannerAfter uploadSession) = Some (upload, image).
Proof.
  apply (@scan_source_is_origin uploadSession
           (fun _ => Returned (invokeData (visionHandler (Some (str "key"))
                                                         (Returned (Some janeAnnotation)))))
           (fun _ _ => Threw OtherValue)
           (extractContactInfo upload (description janeAnnotation) (Some 0.8%float))).
  vm_compute. reflexivity.
Defined.

(** ** Which files reach the scan *)

Lemma handleFileUpload_reading file result :
  handleFileUpload file = Reading result ->
  exists f, file = Some f /\ result = f_result f /\
    starts_with (str "image/") (f_type f) = true /\ (f_size f <= 10485760)%N.
Proof.
  unfold handleFileUpload. destruct file as [f|]; [|discriminate].
  destruct (starts_with (str "image/") (f_type f)) eqn:Et; cbn [negb]; [|discriminate].
  destruct (N.ltb_spec (10 * 1024 * 1024) (f_size f)) as [Hs|Hs]; [discriminate|].
  intros E. injection E as <-. exists f. repeat split; auto.
Qed.

Lemma uploads_checked l0 : forall l s pending,
  incl l l0 ->
  (forall r, In r pending -> checkedFileOf l0 r) ->
  (forall d, s_image s = Some (upload, d) -> checkedFileOf l0 d) ->
  wellFormed pending l = true ->
  forall d, s_image (fold_left scannerStep l s) = Some (upload, d) -> checkedFileOf l0 d.
Proof.
  induction l as [|a l IH]; intros s pending Hincl Hp Hs Hwf d; cbn [fold_left]; auto.
  assert (Hl : incl l l0) by (intros x Hx; apply Hincl; right; exact Hx).
  assert (Ha : In a l0) by (apply Hincl; left; reflexivity).
  destruct a as [video| |refs width height context frame|file|result|];
    cbn [wellFormed] in Hwf.
  - apply (IH _ pending); auto. destruct video; cbn; auto.
  - apply (IH _ pending); auto.
  - apply (IH _ pending); auto. cbn [scannerStep].
    destruct (refs && s_cameraActive s); auto.
    destruct ((width =? 0) || (height =? 0))%nat; auto.
    destruct context; auto. cbn. discriminate.
  - destruct (handleFileUpload file) as [| | |result] eqn:Eh;
      try (apply (IH _ pending); auto; fail).
    apply (IH _ (result :: pending)); auto.
    intros r [<-|Hr]; auto.
    apply handleFileUpload_reading in Eh. destruct Eh as (f & -> & -> & Ht & Hz).
    exists f. auto.
  - apply andb_prop in Hwf. destruct Hwf as [Hex Hwf].
    apply (IH _ pending); auto. cbn. intros d' E. injection E as <-.
    apply existsb_exists in Hex. destruct Hex as (r & Hr & Hj).
    apply jseq_eq in Hj. subst r. auto.
  - apply (IH _ pending); auto. cbn. discriminate.
Qed.

(** X10: when the reader's load events come only for files that went through
    [handleFileUpload], an uploaded image that is in the state is the content
    of a file offered in this session whose type begins with "image/" and
    whose size is at most 10485760 bytes. *)
Theorem uploaded_image_was_checked (l : list Action) (d : jsstring) :
  wellFormed [] l = true ->
  s_image (scannerAfter l) = Some (upload, d) ->
  exists f, In (UploadFile (Some f)) l /\ d = f_result f /\
    starts_with (str "image/") (f_type f) = true /\ (f_size f <= 10485760)%N.
Proof.
  intros Hwf H.
  apply (@uploads_checked l l scannerStart []); auto.
  - apply incl_refl.
  - intros r [].
  - cbn. discriminate.
Qed.

Lemma uploaded_image_was_checked_witness :
  exists f, In (UploadFile (Some f)) uploadSession /\
    dataUrl (str "png") (str "AAAA") = f_result f /\
    starts_with (str "image/") (f_type f) = true /\ (f_size f <= 10485760)%N.
Proof.
  apply uploaded_image_was_checked; reflexivity.
Defined.

(** ** Counting the characters of a match *)

Lemma count_app P a b : count P (a ++ b) = count P a + count P b.
Proof. unfold count. rewrite filter_app, length_app. reflexivity. Qed.

Lemma count_all P w : Forall (fun c => P c = true) w -> count P w = length w.
Proof.
  unfold count. induction 1 as [|c w Hc _ IH]; cbn; auto. rewrite Hc. cbn. auto.
Qed.

Lemma count_zero P w : Forall (fun c => P c = false) w -> count P w = 0.
Proof.
  unfold count. induction 1 as [|c w Hc _ IH]; cbn; auto. rewrite Hc. auto.
Qed.

Lemma count_le P w : count P w <= length w.
Proof. unfold count. apply filter_length_le. Qed.

Lemma within_zero hi : within hi 0.
Proof. destruct hi; cbn; auto with arith. Qed.

Lemma within_le hi n m : within hi n -> m <= n -> within hi m.
Proof. destruct hi; cbn; auto. lia. Qed.

(** The bounds of the analysis hold of every match. *)
Lemma count_bounds P ic r i w rest :
  matches ic r i w rest ->
  count_min P ic r <= count P w /\ within (count_max P ic r) (count P w).
Proof.
  induction 1 as [ | | |a c i rest Hc|a lo hi i w rest Hall Hlo Hhi| |r i w rest Hm IH
                 |r1 r2 i w1 w2 rest Hm1 IH1 Hm2 IH2|r1 r2 i w rest Hm IH|r1 r2 i w rest Hm IH];
    cbn [count_min count_max].
  - split; cbn; lia.
  - split; cbn; lia.
  - split; cbn; lia.
  - split.
    + destruct (only P ic a) eqn:E; [|lia].
      rewrite count_all; [cbn; lia|]. constructor; [|constructor].
      eapply only_spec; eauto.
    + destruct (never P ic a) eqn:E; cbn [within]; [|apply (count_le P [c])].
      rewrite count_zero; [lia|]. constructor; [|constructor].
      apply (only_spec _ _ _ c E) in Hc. apply negb_true_iff in Hc. exact Hc.
  - split.
    + destruct (only P ic a) eqn:E; [|lia].
      rewrite count_all; [exact Hlo|].
      eapply Forall_impl; [|exact Hall]. intros c Hc. eapply only_spec; eauto.
    + destruct (never P ic a) eqn:E.
      * rewrite count_zero; [cbn; lia|].
        eapply Forall_impl; [|exact Hall]. intros c Hc.
        apply (only_spec _ _ _ c E) in Hc. apply negb_true_iff in Hc. exact Hc.
      * eapply within_le; [exact Hhi|apply count_le].
  - split; [cbn; lia|apply within_zero].
  - split; [lia|tauto].
  - rewrite count_app. destruct IH1 as [L1 U1], IH2 as [L2 U2]. split; [lia|].
    destruct (count_max P ic r1), (count_max P ic r2); cbn in *; auto. lia.
  - destruct IH as [L U]. split; [lia|].
    destruct (count_max P ic r1), (count_max P ic r2); cbn in *; auto. lia.
  - destruct IH as [L U]. split; [lia|].
    destruct (count_max P ic r1), (count_max P ic r2); cbn in *; auto. lia.
Qed.

Lemma matches_starts_bol ic r i w rest :
  matches ic r i w rest -> starts_bol r = true -> i = 0.
Proof. induction 1; cbn; intros E; try discriminate; auto. Qed.

Lemma matches_ends_eol ic r i w rest :
  matches ic r i w rest -> ends_eol r = true -> rest = [].
Proof. induction 1; cbn; intros E; try discriminate; auto. Qed.

Lemma matches_anchor ic r i w rest :
  matches ic r i w rest -> is_anchor r = true -> w = [].
Proof. induction 1; cbn; intros E; try discriminate; auto. Qed.

Lemma matches_first_only P ic r i w rest :
  matches ic r i w rest -> first_only P ic r = true ->
  exists c w', w = c :: w' /\ P c = true.
Proof.
  induction 1 as [ | | |a c i rest Hc|a lo hi i w rest Hall Hlo Hhi| |r i w rest Hm IH
                 |r1 r2 i w1 w2 rest Hm1 IH1 Hm2 IH2|r1 r2 i w rest Hm IH|r1 r2 i w rest Hm IH];
    cbn [first_only]; intros E; try discriminate.
  - exists c, []. split; auto. eapply only_spec; eauto.
  - apply andb_prop in E. destruct E as [E1 E2]. apply Nat.leb_le in E1.
    destruct Hall as [|c w Hc Hw]; [cbn in Hlo; lia|].
    exists c, w. split; auto. eapply only_spec; eauto.
  - apply orb_prop in E. destruct E as [E|E].
    + destruct (IH1 E) as (c & w' & -> & Hc). exists c, (w' ++ w2). auto.
    + apply andb_prop in E. destruct E as [Ea E2].
      apply (matches_anchor Hm1) in Ea. subst w1. cbn. auto.
  - apply andb_prop in E. destruct E as [E1 E2]. auto.
  - apply andb_prop in E. destruct E as [E1 E2]. auto.
Qed.

(** ** [trim] *)

Lemma drop_space_id s :
  match s with [] => True | c :: _ => is_space c = false end -> drop_space s = s.
Proof. destruct s as [|c s]; cbn; auto. intros ->. reflexivity. Qed.

Lemma drop_space_head s :
  match drop_space s with [] => True | c :: _ => is_space c = false end.
Proof.
  induction s as [|c s IH]; cbn; auto.
  destruct (is_space c) eqn:E; auto.
Qed.

Lemma drop_space_suffix s : exists pre, s = pre ++ drop_space s.
Proof.
  induction s as [|c s [pre IH]]; [exists []; reflexivity|].
  cbn. destruct (is_space c).
  - exists (c :: pre). cbn. f_equal. exact IH.
  - exists []. reflexivity.
Qed.

Lemma drop_space_last s c :
  is_space c = false -> drop_space (s ++ [c]) = drop_space s ++ [c].
Proof.
  intros Hc. induction s as [|x s IH]; cbn; [rewrite Hc; reflexivity|].
  destruct (is_space x); auto.
Qed.

Lemma trim_fixed s :
  match s with [] => True | c :: _ => is_space c = false end ->
  drop_space (rev s) = rev s -> trim s = s.
Proof.
  intros H1 H2. unfold trim. rewrite (drop_space_id s H1), H2. apply rev_involutive.
Qed.

Lemma trim_trim s : trim (trim s) = trim s.
Proof.
  unfold trim at 2 3.
  pose proof (drop_space_head s) as Ht.
  destruct (drop_space s) as [|c t].
  - reflexivity.
  - cbn [rev]. rewrite (@drop_space_last _ _ Ht). rewrite rev_app_distr. cbn [rev app].
    apply trim_fixed; [exact Ht|].
    cbn [rev]. rewrite rev_involutive. rewrite (@drop_space_last _ _ Ht).
    rewrite (drop_space_id _ (drop_space_head _)). reflexivity.
Qed.

Lemma substring_refl s : substring s s.
Proof. exists [], []. rewrite app_nil_r. reflexivity. Qed.

Lemma substring_trans a b c : substring a b -> substring b c -> substring a c.
Proof.
  intros (p1 & q1 & ->) (p2 & q2 & ->).
  exists (p2 ++ p1), (q1 ++ q2). rewrite <- !app_assoc. reflexivity.
Qed.

Lemma trim_substring s : substring (trim s) s.
Proof.
  unfold trim.
  destruct (drop_space_suffix s) as [pre Hs].
  destruct (drop_space_suffix (rev (drop_space s))) as [pre' Hr].
  exists pre, (rev pre').
  rewrite <- rev_app_distr, <- Hr, rev_involutive. exact Hs.
Qed.

(** ** The pieces of [split] on a run of separators *)

Lemma exec_plus_none ic a i c s :
  exec ic (plus a) i (c :: s) = None -> atom_has ic a c = false.
Proof.
  intros H. destruct (atom_has ic a c) eqn:E; auto. exfalso.
  destruct (@rep_complete ic nat a [c] s 1 None i accept (i + 1)) as [y Hy]; cbn; auto.
  unfold exec, plus in H. cbn [run] in H. cbn [app] in Hy. congruence.
Qed.

Lemma exec_plus_progress ic a i s e : exec ic (plus a) i s = Some e -> i < e.
Proof.
  intros H. apply exec_sound in H. destruct H as (w & rest & _ & Hm & ->).
  inversion Hm as [| | | |a' lo hi i' w' rest' Hall Hlo Hhi| | | | |]; subst. lia.
Qed.

Lemma split_from_pieces ic a : forall s i skip cur,
  Forall (fun c => atom_has ic a c = false) cur ->
  skip = 0 \/ cur = [] ->
  Forall (fun p => Forall (fun c => atom_has ic a c = false) p /\
                   substring p (rev cur ++ s))
         (split_from ic (plus a) i s skip cur).
Proof.
  induction s as [|c s IH]; intros i skip cur Hcur Hskip; cbn [split_from].
  - constructor; [|constructor]. split.
    + apply Forall_rev. exact Hcur.
    + rewrite app_nil_r. apply substring_refl.
  - assert (Hmono : forall l x,
              Forall (fun p => Forall (fun c => atom_has ic a c = false) p /\
                               substring p x) l ->
              substring x (rev cur ++ c :: s) ->
              Forall (fun p => Forall (fun c => atom_has ic a c = false) p /\
                               substring p (rev cur ++ c :: s)) l).
    { intros l x Hl Hx. eapply Forall_impl; [|exact Hl].
      intros p [Hp Hs]. split; auto. eapply substring_trans; eauto. }
    assert (Htail : substring s (rev cur ++ c :: s)).
    { exists (rev cur ++ [c]), []. rewrite app_nil_r, <- app_assoc. reflexivity. }
    assert (Hcs : substring (c :: s) (rev cur ++ c :: s)).
    { exists (rev cur), []. rewrite app_nil_r. reflexivity. }
    assert (Hhead : Forall (fun c => atom_has ic a c = false) (rev cur) /\
                    substring (rev cur) (rev cur ++ c :: s)).
    { split; [apply Forall_rev; exact Hcur|]. exists [], (c :: s). reflexivity. }
    destruct skip as [|n].
    + destruct (exec ic (plus a) i (c :: s)) as [e|] eqn:E.
      * pose proof (exec_plus_progress _ _ _ _ E) as Hlt.
        destruct (Nat.eqb_spec e i) as [->|_]; [lia|].
        constructor; [exact Hhead|].
        apply (Hmono _ ([] ++ s)); [|exact Htail].
        apply (IH (S i) (e - i - 1) []); auto.
      * apply exec_plus_none in E.
        specialize (IH (S i) 0 (c :: cur)).
        cbn [rev] in IH. rewrite <- app_assoc in IH. apply IH; auto.
    + destruct Hskip as [Hskip| ->]; [discriminate|].
      apply (Hmono _ ([] ++ s)); [|exact Htail].
      apply (IH (S i) n []); auto.
Qed.

Lemma split_pieces ic a s :
  Forall (fun p => Forall (fun c => atom_has ic a c = false) p /\ substring p s)
         (split ic (plus a) s).
Proof.
  unfold split. destruct s as [|c s].
  - destruct (exec ic (plus a) 0 []); constructor; [|constructor].
    split; [constructor|apply substring_refl].
  - apply (@split_from_pieces ic a (c :: s) 0 0 []); auto.
Qed.

Lemma not_line_break c :
  atom_has false (In_ [Ch LF; Ch CR]) c = false -> is_line_terminator c = false.
Proof. by_ascii c. Qed.

Lemma trim_no_break s :
  Forall (fun c => is_line_terminator c = false) s ->
  Forall (fun c => is_line_terminator c = false) (trim s).
Proof. apply trim_keeps. Qed.

(** What every line of the classifier is like. *)
Lemma lines_are_lines text l : In l (linesOf text) -> lineOf text l.
Proof.
  intros Hin. split; [exact Hin|].
  unfold linesOf in Hin. apply filter_In in Hin. destruct Hin as [Hin Hlen].
  apply Nat.ltb_lt in Hlen. apply in_map_iff in Hin. destruct Hin as (p & <- & Hp).
  pose proof (split_pieces false (In_ [Ch LF; Ch CR]) text) as Hall.
  rewrite Forall_forall in Hall. destruct (Hall p Hp) as [Hq Hs].
  split; [|split; [|split]].
  - eapply substring_trans; [apply trim_substring|exact Hs].
  - lia.
  - apply trim_trim.
  - apply trim_no_break. eapply Forall_impl; [|exact Hq].
    intros c. apply not_line_break.
Qed.

Lemma line_trimmed text l : In l (linesOf text) -> trim l = l.
Proof. intros H. apply lines_are_lines in H. apply H. Qed.

Lemma find_in {A} (f : A -> nat -> bool) l x : Array_find f l = Some x -> In x l.
Proof.
  rewrite find_at_index. destruct (Array_findIndex f l) as [j|]; [|discriminate].
  apply nth_error_In.
Qed.

Lemma find_holds {A} (f : A -> nat -> bool) l x :
  Array_find f l = Some x -> exists i, nth_error l i = Some x /\ f x i = true.
Proof.
  intros H. destruct (Array_findIndex f l) as [j|] eqn:E.
  - apply findIndex_found in E. destruct E as (y & Hn & Hy & Hf & _).
    assert (y = x) by congruence. subst y. eauto.
  - apply findIndex_none in E. destruct E as [E _]. congruence.
Qed.

(** X11: each of name, company, job title and location, when set, is a line
    of the text as the classifier cuts it: it stands in the raw text as it
    is, has at least two characters, holds no line break, and has no white
    space at either end. *)
Theorem line_fields_are_lines (src : Source) (text : jsstring) (conf : option float)
        (l : jsstring) :
  In (Some l) (lineFields (extractContactInfo src text conf)) -> lineOf text l.
Proof.
  assert (H : forall f, option_map trim (Array_find f (linesOf text)) = Some l ->
                        lineOf text l).
  { intros f E. destruct (Array_find f (linesOf text)) as [x|] eqn:Ef; [|discriminate].
    injection E as <-. apply find_in in Ef.
    rewrite (line_trimmed _ _ Ef). apply lines_are_lines. exact Ef. }
  unfold lineFields, extractContactInfo. cbn [name company job_title location In].
  intros [E|[E|[E|[E|[]]]]]; eapply H; exact E.
Qed.

Lemma line_fields_are_lines_witness : lineOf janeCard (str "5 Main Street, Springfield").
Proof.
  apply (@line_fields_are_lines camera janeCard None).
  vm_compute. tauto.
Defined.

Lemma candidate_differs cand line x :
  isCandidate cand line = false -> cand = Some x -> 1 < length x -> line <> x.
Proof.
  intros H -> Hlen ->. rewrite isCandidate_self in H by exact Hlen. discriminate.
Qed.

(** X12: name, company and job title, when set, are three different
    strings: the company is never the name again, and the job title is
    neither. *)
Theorem line_fields_differ (src : Source) (text : jsstring) (conf : option float)
        (a b : jsstring) :
  let r := extractContactInfo src text conf in
  (name r = Some a /\ company r = Some b) \/
  (name r = Some a /\ job_title r = Some b) \/
  (company r = Some a /\ job_title r = Some b) ->
  a <> b.
Proof.
  cbv zeta. unfold extractContactInfo. cbn [name company job_title].
  assert (Hfield : forall f x,
            option_map trim (Array_find f (linesOf text)) = Some x ->
            Array_find f (linesOf text) = Some x /\ 1 < length x /\
            exists i, f x i = true).
  { intros f x E. destruct (Array_find f (linesOf text)) as [y|] eqn:Ef; [|discriminate].
    injection E as <-. pose proof (find_in _ _ Ef) as Hin.
    rewrite (line_trimmed _ _ Hin). split; [reflexivity|]. split.
    - apply lines_are_lines in Hin. destruct Hin as (_ & _ & Hlen & _). lia.
    - apply find_holds in Ef. destruct Ef as (i & _ & Hi). eauto. }
  intros [[Ha Hb]|[[Ha Hb]|[Ha Hb]]];
    apply Hfield in Ha; apply Hfield in Hb;
    destruct Ha as (Ea & La & _), Hb as (Eb & _ & i & Hi);
    intros Heq; symmetry in Heq; revert Heq.
  - apply companyLine_not_name in Hi. eapply candidate_differs; eauto.
  - apply jobTitleLine_not_name in Hi. eapply candidate_differs; eauto.
  - apply jobTitleLine_not_company in Hi. eapply candidate_differs; eauto.
Qed.

Lemma line_fields_differ_witness : str "Acme Solutions Inc" <> str "Senior Engineer".
Proof.
  apply (@line_fields_differ camera janeCard None).
  right. right. vm_compute. split; reflexivity.
Defined.

Lemma name_chars c : may_hold false nameRegex c = true -> nameChar c = true.
Proof. by_ascii c. Qed.

Lemma count_any w : count anyChar w = length w.
Proof. apply count_all. apply Forall_forall. reflexivity. Qed.

(** X13: the name, when set, is one of the first four lines; on it stand
    only letters and white space, at least five characters of them, a capital
    letter first and white space somewhere. *)
Theorem name_shape (src : Source) (text : jsstring) (conf : option float) (n : jsstring) :
  name (extractContactInfo src text conf) = Some n ->
  (exists i, i <= 3 /\ nth_error (linesOf text) i = Some n) /\
  5 <= length n /\
  Forall (fun c => nameChar c = true) n /\
  1 <= count is_space n /\
  exists c rest, n = c :: rest /\ is_upper c = true.
Proof.
  unfold extractContactInfo. cbn [name]. intros E.
  destruct (nameCandidateOf text) as [x|] eqn:Ef; [|discriminate].
  injection E as <-. unfold nameCandidateOf in Ef.
  pose proof (find_in _ _ Ef) as Hin. pose proof (line_trimmed _ _ Hin) as Ht.
  apply find_holds in Ef. destruct Ef as (i & Hn & Hi).
  unfold isNameLine in Hi. rewrite Ht in *.
  destruct (Nat.ltb_spec 3 i) as [|Hle]; [discriminate|].
  repeat (apply andb_prop in Hi; destruct Hi as [Hi ?]).
  apply test_true in Hi. destruct Hi as (pre & m & post & Heq & Hm).
  assert (Hpre : pre = []).
  { apply matches_starts_bol in Hm; [|reflexivity]. destruct pre; [auto|discriminate]. }
  assert (Hpost : post = []) by (apply (matches_ends_eol Hm); reflexivity).
  subst pre post. cbn [app] in Heq. rewrite app_nil_r in Heq. subst m.
  split; [exists i; split; [lia|exact Hn]|].
  split.
  { pose proof (count_bounds anyChar Hm) as [L _]. rewrite count_any in L. exact L. }
  split.
  { apply matches_may_hold in Hm. eapply Forall_impl; [|exact Hm]. apply name_chars. }
  split.
  { pose proof (count_bounds is_space Hm) as [L _]. exact L. }
  apply (matches_first_only is_upper Hm). reflexivity.
Qed.

Lemma name_shape_witness :
  (exists i, i <= 3 /\ nth_error (linesOf janeCard) i = Some (str "Jane Doe")) /\
  5 <= length (str "Jane Doe") /\
  Forall (fun c => nameChar c = true) (str "Jane Doe") /\
  1 <= count is_space (str "Jane Doe") /\
  exists c rest, str "Jane Doe" = c :: rest /\ is_upper c = true.
Proof.
  apply (@name_shape camera janeCard None). vm_compute. reflexivity.
Defined.

Lemma filter_digits m : filter is_digit (filter digitOrPlus m) = filter is_digit m.
Proof.
  induction m as [|c m IH]; cbn; auto. unfold digitOrPlus at 1.
  destruct (is_digit c) eqn:E; cbn; [rewrite E, IH; reflexivity|].
  destruct (c =? "+")%char; cbn; [rewrite E|]; exact IH.
Qed.

(** X14: the phone, when set, holds 2 to 15 digits and at most 16
    characters. *)
Theorem phone_length_bounds (src : Source) (text : jsstring) (conf : option float)
        (p : jsstring) :
  phone (extractContactInfo src text conf) = Some p ->
  2 <= count is_digit p <= 15 /\ length p <= 16.
Proof.
  intros H. rewrite phone_field in H.
  destruct (firstMatch false phoneRegex (cleanText text)) as [m|] eqn:E; [|discriminate].
  injection H as <-. rewrite cleanPhone_filter.
  apply firstMatch_found in E. destruct E as (pre & post & [_ Hm] & _).
  pose proof (count_bounds is_digit Hm) as [L U].
  pose proof (count_bounds digitOrPlus Hm) as [_ U'].
  unfold count at 1 2. rewrite filter_digits. fold (count is_digit m).
  split; [split|].
  - exact L.
  - exact U.
  - exact U'.
Qed.

Lemma phone_length_bounds_witness :
  2 <= count is_digit (str "+14155550132") <= 15 /\ length (str "+14155550132") <= 16.
Proof.
  apply (@phone_length_bounds camera janeCard None). vm_compute. reflexivity.
Defined.

(** ** The shape of the email and of the website *)

Lemma email_match_shape i m post :
  matches true emailRegex i m post ->
  exists loc D T,
    m = loc ++ "@"%char :: D ++ "."%char :: T /\
    1 <= length loc /\ 1 <= length D /\ 2 <= length T /\
    Forall (fun c => atom_has true letters c = true) T.
Proof.
  unfold emailRegex, plus, lit. intros H.
  inversion H as [| | | | | | |? ? ? w1 w2 ? Ma1 Mb1| |]; subst; clear H.
  inversion Ma1; subst; clear Ma1.
  inversion Mb1 as [| | | | | | |? ? ? w3 w4 ? Ma2 Mb2| |]; subst; clear Mb1.
  inversion Ma2; subst; clear Ma2.
  inversion Mb2 as [| | | | | | |? ? ? w5 w6 ? Ma3 Mb3| |]; subst; clear Mb2.
  inversion Ma3; subst; clear Ma3.
  inversion Mb3 as [| | | | | | |? ? ? w7 w8 ? Ma4 Mb4| |]; subst; clear Mb3.
  inversion Ma4; subst; clear Ma4.
  inversion Mb4; subst; clear Mb4.
  repeat match goal with
  | Hd : atom_has true (In_ [Ch "."]) ?c = true |- _ => apply lit_dot in Hd; subst c
  | Hd : atom_has true (In_ [Ch "@"]) ?c = true |- _ => apply lit_at in Hd; subst c
  end.
  exists w1, w5, w8. cbn [app]. repeat split; auto.
Qed.

Lemma email_chars c : may_hold true emailRegex c = true -> emailChar (lower_char c) = true.
Proof. by_ascii c. Qed.

Lemma letters_lower c : atom_has true letters c = true -> is_lower (lower_char c) = true.
Proof. by_ascii c. Qed.

Lemma count_at_lower m : count is_at (toLowerCase m) = count is_at m.
Proof.
  unfold count, toLowerCase, is_at. induction m as [|c m IH]; cbn; auto.
  rewrite lower_is_at. destruct (c =? "@")%char; cbn; auto.
Qed.

(** X15: the email, when set, reads local part, "@", domain, ".", ending:
    the local part and the domain are not empty, the ending has at least two
    letters, all lower-case; there is exactly one "@", and every character is
    a lower-case letter, a digit or one of . _ % + - @. *)
Theorem email_shape (src : Source) (text : jsstring) (conf : option float) (e : jsstring) :
  email (extractContactInfo src text conf) = Some e ->
  (exists loc dom tld,
     e = loc ++ "@"%char :: dom ++ "."%char :: tld /\
     1 <= length loc /\ 1 <= length dom /\ 2 <= length tld /\
     Forall (fun c => is_lower c = true) tld) /\
  count is_at e = 1 /\
  Forall (fun c => emailChar c = true) e.
Proof.
  intros H. rewrite email_field in H.
  destruct (firstMatch true emailRegex (cleanText text)) as [m|] eqn:E; [|discriminate].
  injection H as <-.
  apply firstMatch_found in E. destruct E as (pre & post & [_ Hm] & _).
  split; [|split].
  - destruct (email_match_shape Hm) as (loc & D & T & -> & Hl & Hd & Ht & HT).
    exists (toLowerCase loc), (toLowerCase D), (toLowerCase T).
    unfold toLowerCase. rewrite !length_map. repeat split; auto.
    + rewrite map_app. cbn [map]. rewrite map_app. reflexivity.
    + apply Forall_forall. intros c Hc. apply in_map_iff in Hc.
      destruct Hc as (x & <- & Hx). rewrite Forall_forall in HT.
      apply letters_lower. auto.
  - rewrite count_at_lower.
    pose proof (count_bounds is_at Hm) as [L U].
    change (1 <= count is_at m) in L. change (count is_at m <= 1) in U. lia.
  - apply matches_may_hold in Hm. unfold toLowerCase.
    apply Forall_forall. intros c Hc. apply in_map_iff in Hc.
    destruct Hc as (x & <- & Hx). rewrite Forall_forall in Hm.
    apply email_chars. auto.
Qed.

Lemma email_shape_witness :
  (exists loc dom tld,
     str "jane@acme.com" = loc ++ "@"%char :: dom ++ "."%char :: tld /\
     1 <= length loc /\ 1 <= length dom /\ 2 <= length tld /\
     Forall (fun c => is_lower c = true) tld) /\
  count is_at (str "jane@acme.com") = 1 /\
  Forall (fun c => emailChar c = true) (str "jane@acme.com").
Proof.
  apply (@email_shape camera janeCard None). vm_compute. reflexivity.
Defined.

Lemma domainShape_lengths i w rest :
  matches true domainShape i w rest ->
  exists host T,
    w = host ++ "."%char :: T /\ 3 <= length host /\ 2 <= length T /\
    Forall (fun c => atom_has true letters c = true) T.
Proof.
  unfold domainShape, lit. intros H.
  inversion H as [| | | | | | |? ? ? w1 w2 ? Ma1 Mb1| |]; subst; clear H.
  inversion Ma1; subst; clear Ma1.
  inversion Mb1 as [| | | | | | |? ? ? w3 w4 ? Ma2 Mb2| |]; subst; clear Mb1.
  inversion Ma2; subst; clear Ma2.
  inversion Mb2 as [| | | | | | |? ? ? w5 w6 ? Ma3 Mb3| |]; subst; clear Mb2.
  inversion Ma3; subst; clear Ma3.
  inversion Mb3 as [| | | | | | |? ? ? w7 w8 ? Ma4 Mb4| |]; subst; clear Mb3.
  inversion Ma4; subst; clear Ma4.
  inversion Mb4; subst; clear Mb4.
  match goal with Hd : atom_has true (In_ [Ch "."]) ?c = true |- _ =>
    apply lit_dot in Hd; subst c end.
  match goal with |- context [[?a] ++ ?mid ++ [?z] ++ ["."%char] ++ ?T] =>
    exists (a :: mid ++ [z]), T end.
  repeat split; auto.
  - cbn [app]. rewrite <- app_assoc. reflexivity.
  - cbn [length]. rewrite length_app. cbn [length]. lia.
Qed.

Lemma host_chars c :
  may_hold true websiteRegex c = true -> kept c -> hostChar c = true.
Proof. unfold kept. by_ascii c. Qed.

Lemma letters_letter c : atom_has true letters c = true -> is_letter c = true.
Proof. by_ascii c. Qed.

(** X16: the website, when set, is a host of at least three characters, a
    dot, and an ending of at least two letters; it holds only letters,
    digits, hyphens and dots. *)
Theorem website_shape (src : Source) (text : jsstring) (conf : option float)
        (w : jsstring) :
  website (extractContactInfo src text conf) = Some w ->
  (exists host tld,
     w = host ++ "."%char :: tld /\ 3 <= length host /\ 2 <= length tld /\
     Forall (fun c => is_letter c = true) tld) /\
  Forall (fun c => hostChar c = true) w.
Proof.
  intros H. rewrite website_is_first_match in H.
  pose proof (firstMatch_kept _ _ _ H) as Hk.
  apply firstMatch_found in H. destruct H as (pre & post & [_ Hm] & _).
  split.
  - unfold websiteRegex in Hm.
    inversion Hm as [| | | | | | |? ? ? w1 w2 ? Ma1 Mb1| |]; subst; clear Hm.
    inversion Mb1 as [| | | | | | |? ? ? w3 w4 ? Ma2 Mb2| |]; subst; clear Mb1.
    destruct (domainShape_lengths Mb2) as (host & T & -> & Hh & Ht & HT).
    exists (w1 ++ w3 ++ host), T. repeat split; auto.
    + rewrite <- !app_assoc. reflexivity.
    + rewrite !length_app. lia.
    + eapply Forall_impl; [|exact HT]. apply letters_letter.
  - apply matches_may_hold in Hm.
    rewrite Forall_forall in *. intros c Hc. apply host_chars; auto.
Qed.

Lemma website_shape_witness :
  (exists host tld,
     str "Acme.com" = host ++ "."%char :: tld /\ 3 <= length host /\ 2 <= length tld /\
     Forall (fun c => is_letter c = true) tld) /\
  Forall (fun c => hostChar c = true) (str "Acme.com").
Proof.
  apply (@website_shape camera janeCard None). vm_compute. reflexivity.
Defined.

(** ** Lines that hold the email or the phone *)

Lemma digit_cases d :
  is_digit d = true -> In d ["0"; "1"; "2"; "3"; "4"; "5"; "6"; "7"; "8"; "9"]%char.
Proof.
  destruct d as [[] [] [] [] [] [] [] []]; vm_compute; intros H;
    try discriminate H; auto 12.
Qed.

Lemma lower_digit c d :
  is_digit d = true -> ((d =? lower_char c) = (d =? c))%char.
Proof.
  intros H. apply digit_cases in H. cbn [In] in H.
  repeat (destruct H as [<-|H]; [by_ascii c|]). contradiction.
Qed.

Lemma starts_with_lower_digits ds : forall s,
  Forall (fun d => is_digit d = true) ds ->
  starts_with ds (toLowerCase s) = starts_with ds s.
Proof.
  induction ds as [|d ds IH]; intros s H; [reflexivity|].
  inversion H as [|? ? Hd Hds]; subst.
  destruct s as [|c s]; [reflexivity|]. cbn. rewrite (@lower_digit c d Hd).
  f_equal. apply IH. exact Hds.
Qed.

Lemma includes_lower_digits ds :
  Forall (fun d => is_digit d = true) ds ->
  forall s, includes (toLowerCase s) ds = includes s ds.
Proof.
  intros H. induction s as [|c s IH].
  - reflexivity.
  - change (toLowerCase (c :: s)) with (lower_char c :: toLowerCase s).
    cbn [includes]. fold (toLowerCase (c :: s)) .
    change (lower_char c :: toLowerCase s) with (toLowerCase (c :: s)).
    rewrite (starts_with_lower_digits (c :: s) H), IH. reflexivity.
Qed.

Lemma not_digit_keeps c : negb (atom_has false (NotIn [Dig]) c) = is_digit c.
Proof. by_ascii c. Qed.

Lemma digitsOf_filter m : digitsOf m = filter is_digit m.
Proof.
  unfold digitsOf. rewrite replace_g_filter. apply filter_ext. apply not_digit_keeps.
Qed.

Lemma opt_some_first {A} (arr : option (list A)) f m :
  opt_some arr f = false -> opt_first arr = Some m -> f m = false.
Proof.
  destruct arr as [[|x l]|]; cbn; try discriminate.
  intros H E. injection E as <-. apply orb_false_elim in H. tauto.
Qed.

(** X17: a line that holds the email address (in any letter case) or the
    digits of the phone is never taken as name, company or location. *)
Theorem contact_lines_skipped (src : Source) (text : jsstring) (conf : option float)
        (l : jsstring) :
  In (Some l) (guardedFields (extractContactInfo src text conf)) ->
  (forall e, email (extractContactInfo src text conf) = Some e ->
             includes (toLowerCase l) e = false) /\
  (forall p, phone (extractContactInfo src text conf) = Some p ->
             includes l (filter is_digit p) = false).
Proof.
  assert (Hline : forall f, option_map trim (Array_find f (linesOf text)) = Some l ->
                    trim l = l /\ exists i, f l i = true).
  { intros f E. destruct (Array_find f (linesOf text)) as [x|] eqn:Ef; [|discriminate].
    injection E as <-. pose proof (line_trimmed _ _ (find_in _ _ Ef)) as Ht.
    rewrite Ht. split; [exact Ht|]. apply find_holds in Ef.
    destruct Ef as (i & _ & Hi). eauto. }
  assert (Hgoal :
    opt_some (emailsOf text) (fun m => includes (toLowerCase l) (toLowerCase m)) = false ->
    opt_some (phonesOf text) (fun m => includes l (digitsOf m)) = false ->
    (forall e, email (extractContactInfo src text conf) = Some e ->
               includes (toLowerCase l) e = false) /\
    (forall p, phone (extractContactInfo src text conf) = Some p ->
               includes l (filter is_digit p) = false)).
  { intros He Hp. unfold extractContactInfo. cbn [email phone]. split.
    - intros e E. destruct (opt_first (emailsOf text)) as [m|] eqn:Em; [|discriminate].
      injection E as <-. apply (opt_some_first _ _ He Em).
    - intros p E. destruct (opt_first (phonesOf text)) as [m|] eqn:Em; [|discriminate].
      injection E as <-. rewrite cleanPhone_filter, filter_digits, <- digitsOf_filter.
      apply (opt_some_first _ _ Hp Em). }
  unfold guardedFields. cbn [In]. unfold extractContactInfo at 1 2 3.
  cbn [name company location].
  intros [E|[E|[E|[]]]]; apply Hline in E; destruct E as (Ht & i & Hi); apply Hgoal.
  - unfold isNameLine in Hi. rewrite Ht in Hi.
    destruct (3 <? i)%nat; [discriminate|].
    repeat (apply andb_prop in Hi; destruct Hi as [Hi ?]).
    match goal with H : negb (opt_some (emailsOf text) _) = true |- _ =>
      apply negb_true_iff in H; exact H end.
  - unfold isNameLine in Hi. rewrite Ht in Hi.
    destruct (3 <? i)%nat; [discriminate|].
    repeat (apply andb_prop in Hi; destruct Hi as [Hi ?]).
    match goal with H : negb (opt_some (phonesOf text) _) = true |- _ =>
      apply negb_true_iff in H; exact H end.
  - unfold isCompanyLine in Hi. rewrite Ht in Hi.
    destruct (isCandidate (nameCandidateOf text) l); [discriminate|].
    destruct (hasEmailIn (emailsOf text) (toLowerCase l)) eqn:E1; [discriminate|].
    exact E1.
  - unfold isCompanyLine in Hi. rewrite Ht in Hi.
    destruct (isCandidate (nameCandidateOf text) l); [discriminate|].
    destruct (hasEmailIn (emailsOf text) (toLowerCase l)); [discriminate|].
    destruct (hasPhoneIn (phonesOf text) (toLowerCase l)) eqn:E2; [discriminate|].
    unfold hasPhoneIn in E2. destruct (phonesOf text) as [ps|]; [|reflexivity].
    cbn [opt_some] in *. rewrite <- E2. clear.
    induction ps as [|m ps IH]; [reflexivity|]. cbn [existsb]. rewrite IH. f_equal.
    rewrite includes_lower_digits; [reflexivity|].
    rewrite digitsOf_filter. apply Forall_forall. intros c Hc.
    apply filter_In in Hc. tauto.
  - unfold isAddressLine in Hi. rewrite Ht in Hi.
    destruct (hasEmailIn (emailsOf text) (toLowerCase l)) eqn:E1; [discriminate|].
    exact E1.
  - unfold isAddressLine in Hi. rewrite Ht in Hi.
    destruct (hasEmailIn (emailsOf text) (toLowerCase l)); [discriminate|].
    destruct (hasPhoneIn (phonesOf text) l) eqn:E2; [discriminate|].
    exact E2.
Qed.

Lemma contact_lines_skipped_witness :
  (forall e, email (extractContactInfo camera janeCard None) = Some e ->
             includes (toLowerCase (str "Acme Solutions Inc")) e = false) /\
  (forall p, phone (extractContactInfo camera janeCard None) = Some p ->
             includes (str "Acme Solutions Inc") (filter is_digit p) = false).
Proof.
  apply (@contact_lines_skipped camera janeCard None).
  right. left. vm_compute. reflexivity.
Defined.

(** ** [includes] *)

Lemma starts_with_spec p : forall s,
  starts_with p s = true <-> exists q, s = p ++ q.
Proof.
  induction p as [|x p IH]; intros s; cbn.
  - split; eauto.
  - destruct s as [|y s].
    + split; [discriminate|]. intros [q H]. discriminate H.
    + rewrite andb_true_iff, Ascii.eqb_eq, IH. split.
      * intros [-> [q ->]]. eauto.
      * intros [q H]. injection H as -> ->. eauto.
Qed.

Lemma includes_spec sub : forall s, includes s sub = true <-> substring sub s.
Proof.
  unfold substring. induction s as [|c s IH]; cbn [includes].
  - rewrite orb_false_r, starts_with_spec. split.
    + intros [q H]. exists [], q. exact H.
    + intros (pre & post & H). destruct pre; [|discriminate H]. eauto.
  - rewrite orb_true_iff, starts_with_spec, IH. split.
    + intros [[q H]|(pre & post & H)].
      * exists [], q. exact H.
      * exists (c :: pre), post. cbn. f_equal. exact H.
    + intros (pre & post & H). destruct pre as [|x pre].
      * left. eauto.
      * right. injection H as _ H. eauto.
Qed.

Lemma jseq_false a b : jseq a b = false <-> a <> b.
Proof.
  split.
  - intros H ->. rewrite jseq_refl in H. discriminate.
  - intros H. destruct (jseq a b) eqn:E; auto. apply jseq_eq in E. contradiction.
Qed.

Lemma filter_swap {A} (p q : A -> bool) l :
  filter p (filter q l) = filter q (filter p l).
Proof.
  induction l as [|x l IH]; cbn; auto.
  destruct (p x) eqn:Ep, (q x) eqn:Eq; cbn; rewrite ?Ep, ?Eq, IH; reflexivity.
Qed.

(** ** Deleting a contact *)

Lemma handleDelete_without id : forall contacts,
  without id contacts (filter (fun contact => negb (jseq (c_id contact) id)) contacts).
Proof.
  induction contacts as [|c l IH]; cbn [filter]; [constructor|].
  destruct (jseq (c_id c) id) eqn:E; cbn [negb].
  - apply without_drop; [apply jseq_eq, E|exact IH].
  - apply without_keep; [apply jseq_false, E|exact IH].
Qed.

(** What [without] says of a list, only one list answers. *)
Lemma without_unique id : forall l a b, without id l a -> without id l b -> a = b.
Proof.
  intros l a b Ha. revert b.
  induction Ha as [|c l l' Hc _ IH|c l l' Hc _ IH]; intros b Hb;
    inversion Hb; subst; auto; try contradiction.
  f_equal. auto.
Qed.

(** X20: after a delete that the table accepted the contacts are the
    contacts before without those of that id, the others in their order, so
    that the list shown under a search term is the list shown before without
    that contact, however the search lower-cases; after a delete that failed
    the contacts are as they were. *)
Theorem delete_under_search (lowered : jsstring -> jsstring) (id term : jsstring)
        (contacts : list Contact) :
  without id contacts (fst (handleDelete false id contacts)) /\
  (forall l', without id contacts l' -> l' = fst (handleDelete false id contacts)) /\
  (forall c, In c (fst (handleDelete false id contacts)) <->
             In c contacts /\ c_id c <> id) /\
  filteredContacts lowered term (fst (handleDelete false id contacts)) =
  fst (handleDelete false id (filteredContacts lowered term contacts)) /\
  handleDelete true id contacts = (contacts, DeleteError).
Proof.
  unfold handleDelete. cbn [fst].
  split; [apply handleDelete_without|].
  split; [intros l' H; eapply without_unique; [exact H|apply handleDelete_without]|].
  split; [|split; [|reflexivity]].
  - intros c. rewrite filter_In, negb_true_iff, jseq_false. reflexivity.
  - unfold filteredContacts. destruct (truthy_str term); [|reflexivity].
    apply filter_swap.
Qed.

(** ** What the form sends *)

Lemma getField_change field f v d :
  getField field (handleInputChange f v d) =
  if field_eqb f field then Some v else getField field d.
Proof. destruct field, f; reflexivity. Qed.

Lemma typed_snoc edits e d :
  typed (edits ++ [e]) d = handleInputChange (fst e) (snd e) (typed edits d).
Proof. unfold typed. rewrite fold_left_app. reflexivity. Qed.

Lemma lastTyped_snoc field edits e :
  lastTyped field (edits ++ [e]) =
  if field_eqb (fst e) field then Some (snd e) else lastTyped field edits.
Proof.
  unfold lastTyped. rewrite rev_app_distr. cbn.
  destruct (field_eqb (fst e) field); reflexivity.
Qed.

Lemma typed_fields field d : forall edits,
  getField field (typed edits d) =
  match lastTyped field edits with
  | Some v => Some v
  | None => getField field d
  end.
Proof.
  induction edits as [|e edits IH] using rev_ind; [reflexivity|].
  rewrite typed_snoc, getField_change, lastTyped_snoc.
  destruct (field_eqb (fst e) field); auto.
Qed.

Lemma typed_keeps d : forall edits,
  Forall (fun e => In (fst e) formInputs) edits ->
  d_id (typed edits d) = d_id d /\ d_raw_text (typed edits d) = d_raw_text d /\
  d_source (typed edits d) = d_source d /\ d_confidence (typed edits d) = d_confidence d.
Proof.
  induction edits as [|e edits IH] using rev_ind; intros H; [auto|].
  apply Forall_app in H. destruct H as [H He]. inversion He as [|? ? Hin _]; subst.
  rewrite typed_snoc. destruct (IH H) as (H1 & H2 & H3 & H4).
  cbn [d_source d_confidence handleInputChange]. repeat split; auto.
  - rewrite <- H1. cbn in Hin.
    repeat (destruct Hin as [<-|Hin]; [reflexivity|]). contradiction.
  - rewrite <- H2. cbn in Hin.
    repeat (destruct Hin as [<-|Hin]; [reflexivity|]). contradiction.
Qed.

(** X21: whatever the user types into the seven inputs, in any order, a
    save by a signed-in user makes one call to the table, an insert when the
    form's id is missing or empty and an update otherwise; the row sent holds
    for each input the last value typed, or the value the form was opened
    with, the id, raw text, source and confidence the form was opened with,
    and the id of the signed-in user; [onSave] is called exactly when the
    call did not fail. *)
Theorem saved_row (userId : jsstring) (formData : ContactData)
        (edits : list (Field * jsstring)) (dbFailed : bool) :
  Forall (fun e => In (fst e) formInputs) edits ->
  exists ev row,
    filter isDbCall (handleSave (Some userId) (typed edits formData) dbFailed) = [ev] /\
    rowOf ev = Some row /\
    (ev = DbInsert row <-> truthy_opt (d_id formData) = false) /\
    (forall field,
       getField field row =
       match lastTyped field edits with
       | Some v => Some v
       | None => getField field formData
       end) /\
    d_id row = d_id formData /\ d_raw_text row = d_raw_text formData /\
    d_source row = d_source formData /\ d_confidence row = d_confidence formData /\
    d_user_id row = Some userId /\
    (In OnSave (handleSave (Some userId) (typed edits formData) dbFailed) <->
     dbFailed = false).
Proof.
  intros H. destruct (typed_keeps formData H) as (Hid & Hraw & Hsrc & Hconf).
  exists (match d_id formData with
          | Some id => if truthy_str id then DbUpdate id (withUser userId (typed edits formData))
                       else DbInsert (withUser userId (typed edits formData))
          | None => DbInsert (withUser userId (typed edits formData))
          end), (withUser userId (typed edits formData)).
  split; [|split; [|split; [|split; [|repeat split; auto]]]].
  - unfold handleSave. rewrite Hid. cbn [app filter isDbCall].
    destruct (d_id formData) as [id|]; [destruct (truthy_str id)|];
      destruct dbFailed; reflexivity.
  - destruct (d_id formData) as [id|]; [destruct (truthy_str id)|]; reflexivity.
  - unfold truthy_opt. destruct (d_id formData) as [id|]; [destruct (truthy_str id)|];
      split; intros E; try reflexivity; discriminate E.
  - intros field. rewrite <- typed_fields. destruct field; reflexivity.
  - unfold handleSave. intros Hin. destruct dbFailed; [|reflexivity].
    cbn in Hin. destruct (d_id (typed edits formData)) as [id|];
      [destruct (truthy_str id)|]; cbn in Hin;
      repeat (destruct Hin as [Hin|Hin]; [discriminate Hin|]); contradiction.
  - intros ->. unfold handleSave. cbn. auto 6.
Qed.

Lemma saved_row_witness :
  exists row,
    filter isDbCall (handleSave (Some (str "u1"))
                                (typed [(F_name, str "Jane M. Doe")] janeForm) false)
    = [DbInsert row] /\
    d_name row = Some (str "Jane M. Doe") /\
    d_raw_text row = Some janeCard /\ d_source row = Some upload.
Proof.
  destruct (@saved_row (str "u1") janeForm [(F_name, str "Jane M. Doe")] false)
    as (ev & row & Hcall & Hrow & Hins & Hfields & _ & Hraw & Hsrc & _).
  - repeat constructor.
  - exists row. assert (E : ev = DbInsert row) by (apply Hins; reflexivity).
    rewrite <- E. split; [exact Hcall|]. split; [|split].
    + apply (Hfields F_name).
    + exact Hraw.
    + exact Hsrc.
Defined.

(** ** The page *)

Lemma index_steps : forall l s,
  showContactForm s = (match scannedData s with Some _ => true | None => false end) ->
  let s' := fold_left indexStep l s in
  showContactForm s' = (match scannedData s' with Some _ => true | None => false end) /\
  scannedData s' = pendingScan l (scannedData s) /\
  refreshTrigger s' = refreshTrigger s + length (filter isSaved l).
Proof.
  induction l as [|a l IH]; intros s H; cbn [fold_left pendingScan filter length].
  - cbv zeta. repeat split; auto.
  - assert (Hs : showContactForm (indexStep s a) =
                 match scannedData (indexStep s a) with Some _ => true | None => false end)
      by (destruct a; cbn; auto).
    destruct (IH (indexStep s a) Hs) as (I1 & I2 & I3). cbv zeta.
    split; [exact I1|]. split.
    + rewrite I2. destruct a; reflexivity.
    + rewrite I3. destruct a; cbn [isSaved indexStep refreshTrigger length]; lia.
Qed.

(** X22: whatever is done on the page, in any order, the form is shown
    exactly while scanned data are held; the data held are those of the last
    scan that was neither saved nor dismissed since; and the refresh counter
    of the list is the number of saves. *)
Theorem page_invariant (l : list IndexAction) :
  showContactForm (indexAfter l) =
    (match scannedData (indexAfter l) with Some _ => true | None => false end) /\
  scannedData (indexAfter l) = pendingScan l None /\
  refreshTrigger (indexAfter l) = length (filter isSaved l).
Proof.
  apply (index_steps l indexStart). reflexivity.
Qed.

(** ** What a card of the list shows *)

Lemma filter_row_if P cond field row :
  (forall s, P (row s) = false) -> filter P (row_if cond field row) = [].
Proof.
  intros H. unfold row_if. destruct field as [s|]; auto.
  destruct (cond && truthy_str s); cbn; auto. rewrite H. reflexivity.
Qed.

(** X23: a card of the list shows the company once when the contact has a
    non-empty one, beside the job title or on a row of its own, and never
    twice; it shows the job title only when the contact has both a job title
    and a company. *)
Theorem card_shows_company_once (contact : Contact) :
  length (filter (showsCompany (str_or (c_company contact) []))
                 (contactCard contact)) =
    (if truthy_opt (c_company contact) then 1 else 0) /\
  existsb showsJobTitle (contactCard contact) =
    truthy_opt (c_job_title contact) && truthy_opt (c_company contact).
Proof.
  unfold contactCard. split.
  - rewrite !filter_app. cbn [filter showsCompany app].
    rewrite (filter_row_if _ true (c_email contact) EmailRow) by reflexivity.
    rewrite (filter_row_if _ true (c_phone contact) PhoneRow) by reflexivity.
    rewrite (filter_row_if _ true (c_website contact) WebsiteRow) by reflexivity.
    rewrite (filter_row_if _ true (c_location contact) LocationRow) by reflexivity.
    rewrite !app_nil_r. unfold row_if, truthy_opt, str_or.
    destruct (c_job_title contact) as [[|j0 j]|], (c_company contact) as [[|c0 c]|];
      cbn; rewrite ?Ascii.eqb_refl, ?jseq_refl; reflexivity.
  - rewrite !existsb_app. cbn [existsb showsJobTitle].
    assert (R : forall cond field row, (forall s, showsJobTitle (row s) = false) ->
                  existsb showsJobTitle (row_if cond field row) = false).
    { intros cond field row H. unfold row_if. destruct field as [s|]; auto.
      destruct (cond && truthy_str s); cbn; auto. rewrite H. reflexivity. }
    rewrite !R by reflexivity. rewrite !orb_false_r. unfold truthy_opt.
    destruct (c_job_title contact) as [[|j0 j]|], (c_company contact) as [[|c0 c]|];
      reflexivity.
Qed.

(** ** The export *)

(** X24: an export writes a file exactly when a user is signed in, the
    query gave at least one contact and the writing did not fail; the sheet
    then has one row for each contact, in the order of the query, and the
    toast names that number; each of the seven text columns of a row holds
    the contact's field, or the empty string when the field is missing or
    empty, and the date column holds the date text of its creation time; and
    whenever a user is signed in the run begins by setting [exporting] and
    ends by resetting it. *)
Theorem export_rows (user : option jsstring) (fetched : outcome (option (list Contact)))
        (dateText : jsstring -> jsstring) (nowIso : jsstring) (writeFails : bool) :
  let run := exportToExcel user fetched dateText nowIso writeFails in
  match user, fetched, writeFails with
  | Some _, Returned (Some (c :: cs)), false =>
    exists rows,
      run = [SetExporting true; WriteFile rows (exportFilename nowIso);
             ToastExported (length rows) (exportFilename nowIso); SetExporting false] /\
      length rows = length (c :: cs) /\
      forall i contact, nth_error (c :: cs) i = Some contact ->
        exists row, nth_error rows i = Some row /\
          x_name row = str_or (c_name contact) [] /\
          x_email row = str_or (c_email contact) [] /\
          x_phone row = str_or (c_phone contact) [] /\
          x_company row = str_or (c_company contact) [] /\
          x_job_title row = str_or (c_job_title contact) [] /\
          x_website row = str_or (c_website contact) [] /\
          x_location row = str_or (c_location contact) [] /\
          x_date_added row = dateText (c_created_at contact)
  | Some _, _, _ =>
    written run = None /\
    exists toast, run = [SetExporting true; toast; SetExporting false]
  | None, _, _ => run = []
  end.
Proof.
  cbv zeta. unfold exportToExcel.
  destruct user as [u|]; [|reflexivity].
  destruct fetched as [[[|c cs]|]|e];
    try (split; [reflexivity|eexists; reflexivity]).
  destruct writeFails; [split; [reflexivity|eexists; reflexivity]|].
  exists (map (exportRow dateText) (c :: cs)).
  rewrite length_map. repeat split.
  intros i contact Hn. exists (exportRow dateText contact).
  split; [|repeat split]. apply map_nth_error. exact Hn.
Qed.

(** ** The normalized text *)

Lemma space_atom c : atom_has false (In_ [Spc]) c = is_space c.
Proof. cbn [atom_has set_has existsb item_has andb]. rewrite !orb_false_r. reflexivity. Qed.

(** Passing over the rest of a match. *)
Lemma replace_from_skip ic r by_ : forall w i rest,
  replace_from ic r by_ i (w ++ rest) (length w) =
  replace_from ic r by_ (i + length w) rest 0.
Proof.
  induction w as [|c w IH]; intros i rest; cbn [length app].
  - rewrite Nat.add_0_r. reflexivity.
  - cbn [replace_from]. rewrite IH. f_equal. lia.
Qed.

Lemma collapse_other i c s :
  is_space c = false ->
  replace_from false (plus (In_ [Spc])) (str " ") i (c :: s) 0 =
  c :: replace_from false (plus (In_ [Spc])) (str " ") (S i) s 0.
Proof.
  intros Hc. cbn [replace_from].
  assert (E : exec false (plus (In_ [Spc])) i (c :: s) = None).
  { unfold exec, plus. cbn [run rep]. rewrite space_atom, Hc. reflexivity. }
  rewrite E. reflexivity.
Qed.

Lemma collapse_space i c s :
  is_space c = true ->
  exists w rest,
    s = w ++ rest /\
    Forall (fun x => is_space x = true) w /\
    match rest with [] => True | d :: _ => is_space d = false end /\
    replace_from false (plus (In_ [Spc])) (str " ") i (c :: s) 0 =
    " "%char :: replace_from false (plus (In_ [Spc])) (str " ") (S i + length w) rest 0.
Proof.
  intros Hc.
  destruct (exec false (plus (In_ [Spc])) i (c :: s)) as [e|] eqn:E.
  - pose proof E as E'. unfold exec, plus in E'. cbn [run] in E'.
    apply rep_greedy in E'.
    destruct E' as (w & rest & Heq & Hall & Hlo & _ & Hk & Hmax).
    destruct w as [|c' w]; [cbn in Hlo; lia|].
    cbn [app] in Heq. injection Heq as <- ->.
    injection Hk as <-.
    exists w, rest. split; [reflexivity|]. split; [|split].
    + inversion Hall as [|? ? _ Hw]; subst.
      eapply Forall_impl; [|exact Hw]. intros x Hx. rewrite <- space_atom. exact Hx.
    + destruct rest as [|d rest]; [exact I|].
      destruct (is_space d) eqn:Ed; [exfalso|reflexivity].
      specialize (Hmax ((c :: w) ++ [d]) rest).
      assert (Hn : accept (i + length ((c :: w) ++ [d])) rest = None).
      { apply Hmax.
        - rewrite <- app_assoc. reflexivity.
        - rewrite length_app. cbn. lia.
        - apply Forall_app. split; [exact Hall|].
          constructor; [|constructor]. rewrite space_atom. exact Ed.
        - exact I. }
      discriminate Hn.
    + cbn [replace_from]. rewrite E. cbn [length].
      replace (i + S (length w) =? i)%nat with false
        by (symmetry; apply Nat.eqb_neq; lia).
      replace (i + S (length w) - i - 1) with (length w) by lia.
      rewrite replace_from_skip. reflexivity.
  - apply exec_plus_none in E. rewrite space_atom in E. congruence.
Qed.

Lemma spaced_weaken s : spaced true s = true -> spaced false s = true.
Proof.
  destruct s as [|c s]; cbn; auto.
  destruct (is_space c); auto. rewrite andb_false_r. discriminate.
Qed.

(** Collapsing runs of white space leaves single blanks. *)
Lemma collapse_spaced : forall n s i,
  length s <= n ->
  spaced false (replace_from false (plus (In_ [Spc])) (str " ") i s 0) = true.
Proof.
  induction n as [|n IH]; intros s i Hn.
  - destruct s; [reflexivity|cbn in Hn; lia].
  - destruct s as [|c s]; [reflexivity|]. cbn [length] in Hn.
    destruct (is_space c) eqn:Hc.
    + destruct (@collapse_space i c s Hc) as (w & rest & -> & _ & Hrest & ->).
      rewrite length_app in Hn.
      change (spaced false (" "%char :: ?x)) with (spaced true x).
      destruct rest as [|d rest]; [reflexivity|].
      rewrite (@collapse_other _ _ _ Hrest). cbn [spaced]. rewrite Hrest.
      apply IH. cbn [length] in Hn. lia.
    + rewrite (@collapse_other _ _ _ Hc). cbn [spaced]. rewrite Hc.
      apply IH. lia.
Qed.

Lemma spaced_prefix : forall a b p, spaced p (a ++ b) = true -> spaced p a = true.
Proof.
  induction a as [|c a IH]; intros b p H; [reflexivity|].
  cbn [app spaced] in *. destruct (is_space c).
  - apply andb_prop in H. destruct H as [H1 H2]. rewrite H1. cbn. eapply IH; eauto.
  - eapply IH; eauto.
Qed.

Lemma spaced_drop : forall s p, spaced p s = true -> spaced false (drop_space s) = true.
Proof.
  induction s as [|c s IH]; intros p H; [reflexivity|].
  cbn [drop_space]. cbn [spaced] in H. destruct (is_space c) eqn:Hc.
  - apply andb_prop in H. destruct H as [_ H]. eapply IH; eauto.
  - cbn [spaced]. rewrite Hc. exact H.
Qed.

Lemma spaced_trim s : spaced false s = true -> spaced false (trim s) = true.
Proof.
  intros H. apply spaced_drop in H. unfold trim.
  destruct (drop_space_suffix (rev (drop_space s))) as [pre Hr].
  apply (f_equal (@rev ascii)) in Hr. rewrite rev_involutive, rev_app_distr in Hr.
  rewrite Hr in H. eapply spaced_prefix; eauto.
Qed.

(** A text in normal form is left as it is, step by step. *)
Lemma kept_unchanged s :
  Forall kept s -> replace_g true (One (NotIn keptChars)) (str " ") s = s.
Proof.
  intros H. rewrite replace_g_one. induction H as [|c s Hc _ IH]; [reflexivity|].
  cbn [flat_map]. rewrite IH. cbn [atom_has]. unfold kept in Hc. rewrite Hc. reflexivity.
Qed.

Lemma spaced_unchanged : forall s p i,
  spaced p s = true ->
  replace_from false (plus (In_ [Spc])) (str " ") i s 0 = s.
Proof.
  induction s as [|c s IH]; intros p i H; [reflexivity|].
  cbn [spaced] in H. destruct (is_space c) eqn:Hc.
  - apply andb_prop in H. destruct H as [H Hs]. apply andb_prop in H. destruct H as [Hb _].
    apply Ascii.eqb_eq in Hb. subst c.
    destruct (@collapse_space i " "%char s Hc) as (w & rest & Heq & Hw & Hrest & ->).
    destruct w as [|x w].
    + cbn [app] in Heq. subst rest. cbn [length]. rewrite (IH true _ Hs). reflexivity.
    + exfalso. subst s. cbn [app spaced] in Hs.
      inversion Hw as [|? ? Hx _]; subst. rewrite Hx in Hs.
      rewrite andb_false_r in Hs. discriminate.
  - rewrite (@collapse_other _ _ _ Hc). f_equal. eapply IH; eauto.
Qed.

(** X25: the normalized text, in which the email, the phone and the website
    are searched, holds only word characters, the characters @ . + - ( ) and
    blanks; its white space is single blanks, none at either end; and
    normalizing it again changes nothing. *)
Theorem cleanText_normal_form (text : jsstring) :
  Forall kept (cleanText text) /\
  spaced false (cleanText text) = true /\
  trim (cleanText text) = cleanText text /\
  cleanText (cleanText text) = cleanText text.
Proof.
  assert (Hs : spaced false (cleanText text) = true).
  { unfold cleanText, replace_g. apply spaced_trim. eapply collapse_spaced. reflexivity. }
  assert (Ht : trim (cleanText text) = cleanText text).
  { unfold cleanText. apply trim_trim. }
  split; [apply cleanText_kept|]. split; [exact Hs|]. split; [exact Ht|].
  unfold cleanText at 1.
  rewrite (kept_unchanged (cleanText_kept text)).
  unfold replace_g. rewrite (@spaced_unchanged _ false 0 Hs). exact Ht.
Qed.

(** ** What the job title and the location rest on *)

(** X26: the job title, when set, holds one of the title keywords, in any
    letter case, and the location, when set, holds a digit. *)
Theorem title_and_location_evidence (src : Source) (text : jsstring) (conf : option float) :
  (forall j, job_title (extractContactInfo src text conf) = Some j ->
     exists keyword, In keyword titleKeywords /\
       substring keyword (toLowerCase j)) /\
  (forall l, location (extractContactInfo src text conf) = Some l ->
     existsb is_digit l = true).
Proof.
  assert (Hline : forall f l, option_map trim (Array_find f (linesOf text)) = Some l ->
                    trim l = l /\ exists i, f l i = true).
  { intros f l E. destruct (Array_find f (linesOf text)) as [x|] eqn:Ef; [|discriminate].
    injection E as <-. pose proof (line_trimmed _ _ (find_in _ _ Ef)) as Ht.
    rewrite Ht. split; [exact Ht|]. apply find_holds in Ef.
    destruct Ef as (i & _ & Hi). eauto. }
  unfold extractContactInfo. cbn [job_title location]. split.
  - intros j E. apply Hline in E. destruct E as (Ht & i & Hi).
    unfold isJobTitleLine in Hi. rewrite Ht in Hi.
    destruct (isCandidate (nameCandidateOf text) j); [discriminate|].
    destruct (isCandidate (companyCandidateOf text) j); [discriminate|].
    apply existsb_exists in Hi. destruct Hi as (k & Hk & Hi).
    exists k. split; [exact Hk|]. apply includes_spec. exact Hi.
  - intros l E. apply Hline in E. destruct E as (Ht & i & Hi).
    apply addressLine_digit in Hi. rewrite Ht in Hi. exact Hi.
Qed.

Lemma title_and_location_evidence_witness :
  existsb is_digit (str "5 Main Street, Springfield") = true.
Proof.
  apply (proj2 (@title_and_location_evidence camera janeCard None)).
  vm_compute. reflexivity.
Defined.
